(** * chgentree: the concurrent organization-tree builder, enricher and flattener

    A shallow embedding of [main.go].  Goroutines are modelled as a pool of
    program counters over a shared store; the scheduler is a list of numbers
    that picks, at every step, one of the goroutines that can move.  The
    remote services, the JSON codec and the file system are collaborators
    passed in as a record. *)

From Stdlib Require Import ZArith Floats.SpecFloat.
From stdpp Require Import base option list gmap strings fin_maps relations.

#[local] Open Scope list_scope.
Set Warnings "-register-all".

(** ** Data model *)

Abbreviation bytes := (list Byte.byte) (only parsing).
(** A Go [error] value, by its message. *)
Abbreviation error := string (only parsing).
(** A [*Node]: the index of the node in the store. *)
Abbreviation loc := nat (only parsing).

Record ApplicationWorkersType := { CPU : string }.

Record ApplicationWorkers := {
  Type_ : ApplicationWorkersType;
  Amount : Z;
  RemainingOrgWorkers : spec_float;
  TotalOrgWorkers : spec_float
}.

Record ApplicationMuleVersion := { Version : string }.

Record Application := {
  Domain : string;
  FullDomain : string;
  Status : string;
  FileName : string;
  Workers : ApplicationWorkers;
  LastUpdateTime : Z;
  MuleVersion : ApplicationMuleVersion
}.

(** [Environment] and [Organization] both have fields [ID] and [Name]; each
    record lives in a module of its own.  A slice of pointers is a list of
    options: [None] is the nil pointer.  The pointee is stored in place,
    which is sound because every pointer comes fresh out of the decoder and
    is reachable from one node only. *)
Module Environment.
Record t := mk {
  ID : string;
  Name : string;
  Applications : list (option Application)
}.
End Environment.

Module Organization.
Record t := mk {
  Name : string;
  ID : string;
  SubOrganizationIds : list string;
  Environments : list (option Environment.t)
}.
(** The zero value of the struct, what [var organization Organization]
    declares. *)
Definition zero : t := mk "" "" [] [].
End Organization.

Abbreviation Environment := Environment.t.
Abbreviation Organization := Organization.t.

(** A [Node] in the store.  [mux] is [true] while the mutex is held. *)
Record Node := {
  mux : bool;
  BusinessOrganization : Organization;
  Children : list loc
}.

(** The pointer graph below a node, read as a tree once nobody writes to it
    any more. *)
Inductive Tree := TNode (org : Organization) (children : list Tree).

Definition tree_org (t : Tree) : Organization := let 'TNode o _ := t in o.
Definition tree_children (t : Tree) : list Tree := let 'TNode _ cs := t in cs.

Fixpoint tree_of (fuel : nat) (h : list Node) (p : loc) : Tree :=
  match fuel with
  | O => TNode Organization.zero []
  | S fuel' =>
      match h !! p with
      | None => TNode Organization.zero []
      | Some nd => TNode (BusinessOrganization nd) (map (tree_of fuel' h) (Children nd))
      end
  end.

Fixpoint tree_size (t : Tree) : nat :=
  let 'TNode _ cs := t in S (list_sum (map tree_size cs)).

(** Pre-order list of the organizations of a tree. *)
Fixpoint tree_orgs (t : Tree) : list Organization :=
  let 'TNode o cs := t in o :: concat (map tree_orgs cs).

(** ** The flattener *)

(** [flattenTree(p, orgMap)]: the map is threaded through the walk. *)
Fixpoint flattenTree (p : Tree) (orgMap : gmap string Organization) : gmap string Organization :=
  let 'TNode o cs := p in
  fold_left (fun m c => flattenTree c m) cs (<[Organization.Name o := o]> orgMap).

(** ** Collaborators *)

(** What an HTTP round trip gives: an error from [http.NewRequest] or
    [client.Do], or a response with its status code and the result of
    [ioutil.ReadAll] on its body. *)
Inductive HTTPResult :=
| RequestFailed (err : error)
| Response (StatusCode : Z) (Body : bytes + error).

Definition StatusOK : Z := 200%Z.

(** What is handed to [writeMetricsFile]. *)
Inductive Snapshot :=
| SnapTree (head : Tree)
| SnapFlat (values : list Organization).

Record Collaborators := {
  (** GET organizations/<orgID> with basic authentication. *)
  RemoteDirectory : string -> string -> string -> HTTPResult;
  (** GET applications with header x-anypnt-env-id. *)
  RemoteInventory : string -> string -> string -> HTTPResult;
  (** [json.Unmarshal(byteArray, &organization)]: the target after the call
      and the error returned. *)
  UnmarshalOrganization : bytes -> Organization -> Organization * option error;
  (** [json.Unmarshal(byteArray, &applications)]. *)
  UnmarshalApplications :
    bytes -> list (option Application) -> list (option Application) * option error;
  (** [json.MarshalIndent(data, "", "    ")]. *)
  MarshalIndent : Snapshot -> bytes + error;
  (** [os.Create(filename)]: the error, if any. *)
  osCreate : string -> option error;
  (** [f.Write(b)]: bytes written and the error, if any. *)
  fileWrite : string -> bytes -> Z * option error;
  (** The order in which [range orgMap] visits the values. *)
  rangeMap : gmap string Organization -> list Organization
}.

(** The command line after [flag.Parse]. *)
Record Config := {
  rootID : string;
  username : string;
  password : string;
  outdir : string
}.

(** ** The shared store and the outside world *)

Inductive Call :=
| DirectoryCall (orgID : string)
| InventoryCall (environment : string).

Inductive Output :=
| PrintMissingFlags
| PrintNonOK (StatusCode : Z)
| PrintWrote (n : Z)
| PrintOrganization (value : Organization).

Inductive Phase := Build | Enrich.

Record Shared := {
  heap : list Node;
  wgInit : Z;          (* the WaitGroup of InitTree *)
  wgMain : Z;          (* the WaitGroup of main *)
  calls : list Call;   (* round trips made, in the order in which they ended *)
  stdout : list Output;
  stderr : list string;
  files : list (string * bytes);   (* files created, with what was written *)
  dones : list (Phase * loc);      (* g.Done() calls, oldest first *)
  exited : option Z                (* the exit code once the process is gone *)
}.

Definition set_heap (f : list Node -> list Node) (s : Shared) : Shared :=
  {| heap := f (heap s); wgInit := wgInit s; wgMain := wgMain s; calls := calls s;
     stdout := stdout s; stderr := stderr s; files := files s; dones := dones s;
     exited := exited s |}.
Definition set_wgInit (f : Z -> Z) (s : Shared) : Shared :=
  {| heap := heap s; wgInit := f (wgInit s); wgMain := wgMain s; calls := calls s;
     stdout := stdout s; stderr := stderr s; files := files s; dones := dones s;
     exited := exited s |}.
Definition set_wgMain (f : Z -> Z) (s : Shared) : Shared :=
  {| heap := heap s; wgInit := wgInit s; wgMain := f (wgMain s); calls := calls s;
     stdout := stdout s; stderr := stderr s; files := files s; dones := dones s;
     exited := exited s |}.
Definition log_call (c : Call) (s : Shared) : Shared :=
  {| heap := heap s; wgInit := wgInit s; wgMain := wgMain s; calls := calls s ++ [c];
     stdout := stdout s; stderr := stderr s; files := files s; dones := dones s;
     exited := exited s |}.
Definition print (o : Output) (s : Shared) : Shared :=
  {| heap := heap s; wgInit := wgInit s; wgMain := wgMain s; calls := calls s;
     stdout := stdout s ++ [o]; stderr := stderr s; files := files s; dones := dones s;
     exited := exited s |}.
Definition eprint (e : string) (s : Shared) : Shared :=
  {| heap := heap s; wgInit := wgInit s; wgMain := wgMain s; calls := calls s;
     stdout := stdout s; stderr := stderr s ++ [e]; files := files s; dones := dones s;
     exited := exited s |}.
Definition add_file (name : string) (b : bytes) (s : Shared) : Shared :=
  {| heap := heap s; wgInit := wgInit s; wgMain := wgMain s; calls := calls s;
     stdout := stdout s; stderr := stderr s; files := files s ++ [(name, b)];
     dones := dones s; exited := exited s |}.
Definition log_done (ph : Phase) (p : loc) (s : Shared) : Shared :=
  {| heap := heap s; wgInit := wgInit s; wgMain := wgMain s; calls := calls s;
     stdout := stdout s; stderr := stderr s; files := files s;
     dones := dones s ++ [(ph, p)]; exited := exited s |}.
(** [os.Exit(code)], and the end of a panic that nobody recovers (code 2). *)
Definition os_Exit (code : Z) (s : Shared) : Shared :=
  {| heap := heap s; wgInit := wgInit s; wgMain := wgMain s; calls := calls s;
     stdout := stdout s; stderr := stderr s; files := files s; dones := dones s;
     exited := Some code |}.

(** [errorCheck(err)] with a non-nil error. *)
Definition errorCheck_fail (err : error) (s : Shared) : Shared :=
  os_Exit 1%Z (eprint err s).

Definition panic (msg : string) (s : Shared) : Shared :=
  os_Exit 2%Z (eprint msg s).

(** [g.Add(1)] and [g.Done()] on either WaitGroup.  A counter that would go
    below zero panics. *)
Definition wg_Add (ph : Phase) (s : Shared) : Shared :=
  match ph with
  | Build => set_wgInit (fun n => n + 1)%Z s
  | Enrich => set_wgMain (fun n => n + 1)%Z s
  end.

Definition wg_counter (ph : Phase) (s : Shared) : Z :=
  match ph with Build => wgInit s | Enrich => wgMain s end.

Definition wg_Done (ph : Phase) (p : loc) (s : Shared) : Shared :=
  if decide (wg_counter ph s - 1 < 0)%Z then panic "sync: negative WaitGroup counter" s
  else
    log_done ph p
      match ph with
      | Build => set_wgInit (fun n => n - 1)%Z s
      | Enrich => set_wgMain (fun n => n - 1)%Z s
      end.

Definition set_mux (b : bool) (nd : Node) : Node :=
  {| mux := b; BusinessOrganization := BusinessOrganization nd; Children := Children nd |}.
Definition append_child (n : loc) (nd : Node) : Node :=
  {| mux := mux nd; BusinessOrganization := BusinessOrganization nd;
     Children := Children nd ++ [n] |}.

(** [environment.Applications = applications] on the [i]-th environment of a
    node. *)
Definition store_applications (apps : list (option Application)) (e : option Environment)
  : option Environment :=
  match e with
  | None => None
  | Some e => Some (Environment.mk (Environment.ID e) (Environment.Name e) apps)
  end.

Definition set_applications (i : nat) (apps : list (option Application)) (nd : Node) : Node :=
  let o := BusinessOrganization nd in
  {| mux := mux nd;
     BusinessOrganization :=
       Organization.mk (Organization.Name o) (Organization.ID o)
         (Organization.SubOrganizationIds o)
         (alter (store_applications apps) i (Organization.Environments o));
     Children := Children nd |}.

(** ** Program counters *)

(** Where a goroutine stands in [buildOrgTree] (receiver [p]) or in
    [generateApplications] (argument [p]).  [vs] and [cs] are what the
    [range] loop has not visited yet; [n] is the node made in this iteration. *)
Inductive PC :=
| BEnter (p : loc)                           (* evaluate the range expression *)
| BLoop (p : loc) (vs : list string)         (* loop head: fetch and decode, or return *)
| BLock (p n : loc) (vs : list string)       (* p.mux.Lock() *)
| BAppend (p n : loc) (vs : list string)     (* p.Children = append(p.Children, node) *)
| BUnlock (p n : loc) (vs : list string)     (* p.mux.Unlock() *)
| BAdd (p n : loc) (vs : list string)        (* g.Add(1) *)
| BGo (p n : loc) (vs : list string)         (* go node.buildOrgTree(g) *)
| EEnv (p : loc) (i : nat)                   (* first loop head: getDeployedArtifacts *)
| EStore (p : loc) (i : nat) (applications : list (option Application))
| EChild (p : loc) (cs : list loc)           (* second loop head: g.Add(1), or return *)
| EGo (p c : loc) (cs : list loc)            (* go generateApplications(c, g) *)
| Panicking (ph : Phase) (p : loc)           (* nil dereference: the deferred g.Done() runs *)
| Crashing.                                  (* the runtime ends the process *)

(** The main goroutine. *)
Inductive MainPC :=
| MStart                                     (* the check of the three flags *)
| MInitTree                                  (* InitTree: the root node *)
| MBuildAdd (head : loc)                     (* g.Add(1) *)
| MBuild (head : loc) (pc : PC)              (* node.buildOrgTree(g), called directly *)
| MBuildWait (head : loc)                    (* g.Wait() *)
| MEnrichAdd (head : loc)                    (* g.Add(1) *)
| MEnrich (head : loc) (pc : PC)             (* generateApplications(head, g) *)
| MEnrichWait (head : loc)                   (* g.Wait() *)
| MWriteTree (head : loc)                    (* metrics.json *)
| MFlatten (head : loc)
| MWriteFlat (values : list Organization)    (* metrics_flat.json *)
| MReturned.

Record State := {
  shared : Shared;
  mainpc : MainPC;
  gos : list PC      (* the goroutines started with [go] that have not returned *)
}.

(** What one step of a goroutine does. *)
Inductive Outcome :=
| Blocked
| Next (pc : PC) (forks : list PC) (s : Shared)
| Return (s : Shared).

Section Program.
Context (W : Collaborators) (cfg : Config).

Definition new_node (organization : Organization) : Node :=
  {| mux := false; BusinessOrganization := organization; Children := [] |}.

(** [getOrganizationMetrics]: a status other than 200 is printed and the
    body is read all the same.  The round trip is one step of the goroutine
    that makes it: the request, the answer and the status line are not
    interleaved with the steps of other goroutines, so [calls] and [stdout]
    have the round trips in the order in which they end, which need not be
    the order in which the requests leave. *)
Definition getOrganizationMetrics (orgID : string) (s : Shared) : option bytes * Shared :=
  let s := log_call (DirectoryCall orgID) s in
  match RemoteDirectory W (username cfg) (password cfg) orgID with
  | RequestFailed err => (None, errorCheck_fail err s)
  | Response code body =>
      let s := if decide (code = StatusOK) then s else print (PrintNonOK code) s in
      match body with
      | inr err => (None, errorCheck_fail err s)
      | inl b => (Some b, s)
      end
  end.

(** [getDeployedArtifacts]: a status other than 200 is printed and ends
    the process.  One step, as for [getOrganizationMetrics]. *)
Definition getDeployedArtifacts (environment : string) (s : Shared) : option bytes * Shared :=
  let s := log_call (InventoryCall environment) s in
  match RemoteInventory W (username cfg) (password cfg) environment with
  | RequestFailed err => (None, errorCheck_fail err s)
  | Response code body =>
      if decide (code = StatusOK) then
        match body with
        | inr err => (None, errorCheck_fail err s)
        | inl b => (Some b, s)
        end
      else (None, os_Exit 1%Z (print (PrintNonOK code) s))
  end.

(** The organization a node gets for a payload: the decoder's error is
    dropped. *)
Definition decode_organization (byteArray : bytes) : Organization :=
  (UnmarshalOrganization W byteArray Organization.zero).1.

Definition decode_applications (byteArray : bytes) : list (option Application) :=
  (UnmarshalApplications W byteArray []).1.

Definition step_pc (pc : PC) (s : Shared) : Outcome :=
  match pc with
  | BEnter p =>
      match heap s !! p with
      | Some nd => Next (BLoop p (Organization.SubOrganizationIds (BusinessOrganization nd))) [] s
      | None => Next (Panicking Build p) [] s
      end
  | BLoop p [] => Return (wg_Done Build p s)
  | BLoop p (v :: vs) =>
      match getOrganizationMetrics v s with
      | (None, s') => Next pc [] s'
      | (Some byteArray, s') =>
          let node := new_node (decode_organization byteArray) in
          Next (BLock p (length (heap s')) vs) [] (set_heap (fun h => h ++ [node]) s')
      end
  | BLock p n vs =>
      match heap s !! p with
      | Some nd =>
          if mux nd then Blocked
          else Next (BAppend p n vs) [] (set_heap (alter (set_mux true) p) s)
      | None => Next (Panicking Build p) [] s
      end
  | BAppend p n vs => Next (BUnlock p n vs) [] (set_heap (alter (append_child n) p) s)
  | BUnlock p n vs => Next (BAdd p n vs) [] (set_heap (alter (set_mux false) p) s)
  | BAdd p n vs => Next (BGo p n vs) [] (wg_Add Build s)
  | BGo p n vs => Next (BLoop p vs) [BEnter n] s
  | EEnv p i =>
      match heap s !! p with
      | None => Next (Panicking Enrich p) [] s
      | Some nd =>
          match Organization.Environments (BusinessOrganization nd) !! i with
          | None => Next (EChild p (Children nd)) [] s
          | Some None => Next (Panicking Enrich p) [] s
          | Some (Some environment) =>
              match getDeployedArtifacts (Environment.ID environment) s with
              | (None, s') => Next pc [] s'
              | (Some byteArray, s') => Next (EStore p i (decode_applications byteArray)) [] s'
              end
          end
      end
  | EStore p i applications =>
      Next (EEnv p (S i)) [] (set_heap (alter (set_applications i applications) p) s)
  | EChild p [] => Return (wg_Done Enrich p s)
  | EChild p (c :: cs) => Next (EGo p c cs) [] (wg_Add Enrich s)
  | EGo p c cs => Next (EChild p cs) [EEnv c 0] s
  | Panicking ph p => Next Crashing [] (wg_Done ph p s)
  | Crashing => Next Crashing [] (panic "invalid memory address or nil pointer dereference" s)
  end.

(** [writeMetricsFile]: the pair it returns, and the file it leaves. *)
Definition writeMetricsFile (data : Snapshot) (filename : string) (s : Shared)
  : (Z * option error) * Shared :=
  match MarshalIndent W data with
  | inr err => ((-1)%Z, Some err, s)
  | inl b =>
      match osCreate W filename with
      | Some err => ((-1)%Z, Some err, s)
      | None =>
          let '(n, err) := fileWrite W filename b in
          ((n, err), add_file filename (take (Z.to_nat n) b) s)
      end
  end.

(** [bytes, err := writeMetricsFile(...); errorCheck(err); fmt.Printf(...)]. *)
Definition write_and_report (data : Snapshot) (filename : string) (s : Shared) : Shared :=
  match writeMetricsFile data filename s with
  | ((_, Some err), s') => errorCheck_fail err s'
  | ((n, None), s') => print (PrintWrote n) s'
  end.

Definition head_tree (s : Shared) (head : loc) : Tree :=
  tree_of (length (heap s)) (heap s) head.

Definition with_main (σ : State) (pc : MainPC) (s : Shared) : State :=
  {| shared := s; mainpc := pc; gos := gos σ |}.

(** A step of the main goroutine; [None] when it is blocked in [g.Wait()]
    or has returned.  The return of [main] ends the process with exit code 0
    at once, also when a call that has panicked has run its deferred
    [g.Done()] and not yet brought the process down; the Go runtime lets such
    a panic finish, with exit code 2.  The model has the runs of the program
    and, in that case, runs with exit code 0 besides. *)
Definition step_main (σ : State) : option State :=
  let s := shared σ in
  match mainpc σ with
  | MStart =>
      if decide (rootID cfg = "" \/ username cfg = "" \/ password cfg = "")
      then Some (with_main σ MStart (os_Exit 1%Z (print PrintMissingFlags s)))
      else Some (with_main σ MInitTree s)
  | MInitTree =>
      match getOrganizationMetrics (rootID cfg) s with
      | (None, s') => Some (with_main σ MInitTree s')
      | (Some byteArray, s') =>
          let node := new_node (decode_organization byteArray) in
          Some (with_main σ (MBuildAdd (length (heap s'))) (set_heap (fun h => h ++ [node]) s'))
      end
  | MBuildAdd head => Some (with_main σ (MBuild head (BEnter head)) (wg_Add Build s))
  | MBuild head pc =>
      match step_pc pc s with
      | Blocked => None
      | Next pc' forks s' =>
          Some {| shared := s'; mainpc := MBuild head pc'; gos := gos σ ++ forks |}
      | Return s' => Some (with_main σ (MBuildWait head) s')
      end
  | MBuildWait head =>
      if decide (wgInit s = 0%Z) then Some (with_main σ (MEnrichAdd head) s) else None
  | MEnrichAdd head => Some (with_main σ (MEnrich head (EEnv head 0)) (wg_Add Enrich s))
  | MEnrich head pc =>
      match step_pc pc s with
      | Blocked => None
      | Next pc' forks s' =>
          Some {| shared := s'; mainpc := MEnrich head pc'; gos := gos σ ++ forks |}
      | Return s' => Some (with_main σ (MEnrichWait head) s')
      end
  | MEnrichWait head =>
      if decide (wgMain s = 0%Z) then Some (with_main σ (MWriteTree head) s) else None
  | MWriteTree head =>
      Some (with_main σ (MFlatten head)
              (write_and_report (SnapTree (head_tree s head)) (outdir cfg +:+ "/metrics.json") s))
  | MFlatten head =>
      let orgMap := flattenTree (head_tree s head) ∅ in
      let values := rangeMap W orgMap in
      Some (with_main σ (MWriteFlat values)
              (fold_left (fun s value => print (PrintOrganization value) s) values s))
  | MWriteFlat values =>
      let s' := write_and_report (SnapFlat values) (outdir cfg +:+ "/metrics_flat.json") s in
      Some (with_main σ MReturned
              (match exited s' with Some _ => s' | None => os_Exit 0%Z s' end))
  | MReturned => None
  end.

(** A step of goroutine [i] of the pool. *)
Definition step_go (i : nat) (σ : State) : option State :=
  match gos σ !! i with
  | None => None
  | Some pc =>
      match step_pc pc (shared σ) with
      | Blocked => None
      | Next pc' forks s' =>
          Some {| shared := s'; mainpc := mainpc σ; gos := <[i := pc']> (gos σ) ++ forks |}
      | Return s' =>
          Some {| shared := s'; mainpc := mainpc σ; gos := delete i (gos σ) |}
      end
  end.

(** Thread 0 is the main goroutine, thread [S i] is goroutine [i] of the
    pool.  Nothing moves once the process has exited. *)
Definition step_at (tid : nat) (σ : State) : option State :=
  match exited (shared σ) with
  | Some _ => None
  | None =>
      match tid with
      | O => step_main σ
      | S i => step_go i σ
      end
  end.

Definition step (σ σ' : State) : Prop := exists tid, step_at tid σ = Some σ'.

Definition enabled (σ : State) : list nat :=
  filter (fun tid => is_Some (step_at tid σ)) (seq 0 (S (length (gos σ)))).

(** The scheduler: each number of the schedule picks one of the threads
    that can move.  The run ends early when [stop] holds or nothing can
    move. *)
Fixpoint run_until (stop : State -> bool) (sched : list nat) (σ : State) : State :=
  match sched with
  | [] => σ
  | k :: sched' =>
      if stop σ then σ
      else
        match enabled σ with
        | [] => σ
        | tid0 :: tids =>
            let tid := nth (k mod length (tid0 :: tids)) (tid0 :: tids) tid0 in
            match step_at tid σ with
            | Some σ' => run_until stop sched' σ'
            | None => σ
            end
        end
  end.

Definition run : list nat -> State -> State := run_until (fun _ => false).

Definition empty_shared : Shared :=
  {| heap := []; wgInit := 0%Z; wgMain := 0%Z; calls := []; stdout := []; stderr := [];
     files := []; dones := []; exited := None |}.

(** The process right after [flag.Parse()]. *)
Definition initial : State :=
  {| shared := empty_shared; mainpc := MStart; gos := [] |}.

End Program.

(** ** The pool of running calls

    The calls of [buildOrgTree] or [generateApplications] that are running:
    the one the main goroutine makes itself, if it is inside one, and those
    of the pool.  Invariants are stated on this list up to permutation. *)

Definition pool (σ : State) : list PC :=
  match mainpc σ with
  | MBuild _ pc | MEnrich _ pc => pc :: gos σ
  | _ => gos σ
  end.

(** The main goroutine is at the same place, up to the position inside the
    call it is running. *)
Definition same_stage (m m' : MainPC) : Prop :=
  match m, m' with
  | MBuild r _, MBuild r' _ => r = r'
  | MEnrich r _, MEnrich r' _ => r = r'
  | MBuild _ _, _ | MEnrich _ _, _ | _, MBuild _ _ | _, MEnrich _ _ => False
  | _, _ => m = m'
  end.

(** The main goroutine has not left [InitTree] yet. *)
Definition in_build (m : MainPC) : bool :=
  match m with
  | MStart | MInitTree | MBuildAdd _ | MBuild _ _ | MBuildWait _ => true
  | _ => false
  end.

(** [InitTree] has returned (or the main goroutine is further still). *)
Definition built (σ : State) : bool := negb (in_build (mainpc σ)).

(** The main goroutine after some call returned: its own, or one of the
    pool. *)
Definition return_stage (m m' : MainPC) : Prop :=
  match m with
  | MBuild r _ => m' = MBuildWait r \/ m' = m
  | MEnrich r _ => m' = MEnrichWait r \/ m' = m
  | _ => m' = m
  end.

Definition in_call (m : MainPC) : bool :=
  match m with MBuild _ _ | MEnrich _ _ => true | _ => false end.

Section Steps.
Context (W : Collaborators) (cfg : Config).

(** A step seen from the pool. *)
Inductive pstep (σ σ' : State) : Prop :=
| pstep_main :
    in_call (mainpc σ) = false -> step_main W cfg σ = Some σ' -> gos σ' = gos σ ->
    pstep σ σ'
| pstep_next pc rest pc' forks :
    pool σ ≡ₚ pc :: rest ->
    step_pc W cfg pc (shared σ) = Next pc' forks (shared σ') ->
    pool σ' ≡ₚ pc' :: rest ++ forks ->
    same_stage (mainpc σ) (mainpc σ') ->
    pstep σ σ'
| pstep_return pc rest :
    pool σ ≡ₚ pc :: rest ->
    step_pc W cfg pc (shared σ) = Return (shared σ') ->
    pool σ' ≡ₚ rest ->
    return_stage (mainpc σ) (mainpc σ') ->
    pstep σ σ'.

Lemma same_stage_refl m : same_stage m m.
Proof. by destruct m. Qed.

Lemma insert_perm_cons (l : list PC) i pc pc' :
  l !! i = Some pc -> exists rest, l ≡ₚ pc :: rest /\ <[i:=pc']> l ≡ₚ pc' :: rest /\
                                   delete i l ≡ₚ rest.
Proof.
  revert i. induction l as [|x l IH]; intros [|i] Hi; simplify_eq/=.
  - by exists l.
  - destruct (IH i Hi) as (rest & H1 & H2 & H3). exists (x :: rest).
    split_and!.
    + rewrite (perm_swap x pc rest). by constructor.
    + rewrite (perm_swap x pc' rest). by constructor.
    + by constructor.
Qed.

Lemma step_at_pstep tid σ σ' :
  step_at W cfg tid σ = Some σ' -> exited (shared σ) = None /\ pstep σ σ'.
Proof.
  unfold step_at. destruct (exited (shared σ)) eqn:Hex; [done|].
  intros Hstep. split; [done|]. destruct tid as [|i].
  - unfold step_main in Hstep.
    destruct (mainpc σ) as [| |r|r pc|r|r|r pc|r|r|r|vs|] eqn:Hm;
      try (apply pstep_main; [by rewrite Hm | by unfold step_main; rewrite Hm
                              | repeat case_match; by simplify_eq/=]).
    + destruct (step_pc W cfg pc (shared σ)) as [|pc' forks s'|s'] eqn:Hpc; simplify_eq/=.
      * eapply (pstep_next _ _ pc (gos σ) pc' forks); unfold pool; simpl; rewrite ?Hm; try done.
      * eapply (pstep_return _ _ pc (gos σ)); unfold pool; simpl; rewrite ?Hm; simpl; auto.
    + destruct (step_pc W cfg pc (shared σ)) as [|pc' forks s'|s'] eqn:Hpc; simplify_eq/=.
      * eapply (pstep_next _ _ pc (gos σ) pc' forks); unfold pool; simpl; rewrite ?Hm; try done.
      * eapply (pstep_return _ _ pc (gos σ)); unfold pool; simpl; rewrite ?Hm; simpl; auto.
  - unfold step_go in Hstep.
    destruct (gos σ !! i) as [pc|] eqn:Hi; [|done].
    destruct (insert_perm_cons _ _ _ pc Hi) as (rest & Hp & _ & Hd).
    destruct (step_pc W cfg pc (shared σ)) as [|pc' forks s'|s'] eqn:Hpc; simplify_eq/=.
    + destruct (insert_perm_cons _ _ _ pc' Hi) as (rest' & Hp' & Hi' & _).
      assert (rest' ≡ₚ rest) as Hrr.
      { apply (Permutation_cons_inv (a:=pc)). by rewrite <- Hp, <- Hp'. }
      destruct (mainpc σ) eqn:Hm;
        (eapply (pstep_next _ _ pc (match mainpc σ with
                                    | MBuild _ q | MEnrich _ q => q :: rest
                                    | _ => rest end) pc' forks);
         [unfold pool; rewrite Hm; simpl; rewrite ?Hp; try done; apply perm_swap
         | done
         | unfold pool; simpl; rewrite Hm; simpl; rewrite Hi', Hrr; try done;
           apply perm_swap
         | simpl; rewrite Hm; done]).
    + destruct (mainpc σ) eqn:Hm;
        (eapply (pstep_return _ _ pc (match mainpc σ with
                                    | MBuild _ q | MEnrich _ q => q :: rest
                                    | _ => rest end));
         [unfold pool; rewrite Hm; simpl; rewrite ?Hp; try done; apply perm_swap
         | done
         | unfold pool; simpl; rewrite Hm; simpl; rewrite Hd; done
         | simpl; rewrite Hm; simpl; auto]).
Qed.

Lemma enabled_pick σ tid0 tids k :
  enabled W cfg σ = tid0 :: tids ->
  is_Some (step_at W cfg (nth (k mod length (tid0 :: tids)) (tid0 :: tids) tid0) σ).
Proof.
  intros Hen.
  assert (nth (k mod length (tid0 :: tids)) (tid0 :: tids) tid0 ∈ enabled W cfg σ) as Hin.
  { rewrite Hen. apply list_elem_of_In, nth_In. apply Nat.mod_upper_bound. done. }
  unfold enabled in Hin. by apply list_elem_of_filter in Hin as [? _].
Qed.

Lemma enabled_nonempty σ tid σ' :
  tid <= length (gos σ) -> step_at W cfg tid σ = Some σ' -> enabled W cfg σ <> [].
Proof.
  intros Hle Hstep Hnil.
  assert (tid ∈ enabled W cfg σ) as Hin.
  { unfold enabled. apply list_elem_of_filter. split; [by rewrite Hstep|].
    apply elem_of_seq. lia. }
  rewrite Hnil in Hin. by apply elem_of_nil in Hin.
Qed.

Lemma run_until_stop stop sched σ :
  stop σ = true -> run_until W cfg stop sched σ = σ.
Proof. intros Hs. destruct sched; simpl; [done|]. by rewrite Hs. Qed.

Lemma run_until_cons stop k sched σ :
  run_until W cfg stop (k :: sched) σ =
  if stop σ then σ
  else match enabled W cfg σ with
       | [] => σ
       | tid0 :: tids =>
           match step_at W cfg (nth (k mod length (tid0 :: tids)) (tid0 :: tids) tid0) σ with
           | Some σ' => run_until W cfg stop sched σ'
           | None => σ
           end
       end.
Proof. reflexivity. Qed.

Lemma run_until_step stop k sched σ :
  stop σ = false -> enabled W cfg σ <> [] ->
  exists σ', pstep σ σ' /\
             run_until W cfg stop (k :: sched) σ = run_until W cfg stop sched σ'.
Proof.
  intros Hs Hen. rewrite run_until_cons, Hs.
  destruct (enabled W cfg σ) as [|tid0 tids] eqn:Heq; [done|].
  destruct (enabled_pick σ tid0 tids k Heq) as [σ' Hstep]. rewrite Hstep.
  apply step_at_pstep in Hstep as [_ Hstep]. eauto.
Qed.

(** An invariant of the steps holds after any run. *)
Lemma run_until_invariant (P : State -> Prop) stop sched σ :
  (forall σ1 σ2, P σ1 -> exited (shared σ1) = None -> pstep σ1 σ2 -> P σ2) ->
  P σ -> P (run_until W cfg stop sched σ).
Proof.
  intros Hpres. revert σ. induction sched as [|k sched IH]; intros σ HP; [done|].
  rewrite run_until_cons.
  destruct (stop σ); [done|].
  destruct (enabled W cfg σ) as [|tid0 tids]; [done|].
  destruct (step_at W cfg _ σ) as [σ'|] eqn:Hstep; [|done].
  apply step_at_pstep in Hstep as [Hex Hstep]. eauto.
Qed.

End Steps.

(** ** The tree builder: invariant of the construction *)

(** The locations a running call may write to or is about to hand over. *)
Definition owned (pc : PC) : list loc :=
  match pc with
  | BEnter p | BLoop p _ => [p]
  | BLock p n _ | BAppend p n _ | BUnlock p n _ | BAdd p n _ | BGo p n _ => [p; n]
  | _ => []
  end.

Definition owners (threads : list PC) : list loc := threads ≫= owned.

Lemma owners_cons pc rest : owners (pc :: rest) = owned pc ++ owners rest.
Proof. apply bind_cons. Qed.

Lemma owners_app l1 l2 : owners (l1 ++ l2) = owners l1 ++ owners l2.
Proof. apply bind_app. Qed.

Global Instance owners_perm : Proper ((≡ₚ) ==> (≡ₚ)) owners.
Proof. intros l1 l2 H. unfold owners. by rewrite H. Qed.

Lemma elem_of_owners l threads :
  l ∈ owners threads <-> exists pc, pc ∈ threads /\ l ∈ owned pc.
Proof.
  unfold owners. rewrite list_elem_of_bind.
  split; intros (pc & ? & ?); exists pc; done.
Qed.

Ltac open_hyps :=
  repeat match goal with
    | H : exists _, _ |- _ => destruct H as [? H]
    | H : _ /\ _ |- _ => destruct H as [? ?]
    end.

(** Reading a field of an updated store. *)
Ltac sh :=
  cbn [heap wgInit wgMain calls stdout stderr files dones exited
       set_heap set_wgInit set_wgMain log_call print eprint add_file log_done os_Exit
       wg_Add wg_counter panic errorCheck_fail] in *.

(** Membership in the locations owned by a pool, spelled out. *)
Ltac own :=
  rewrite ?owners_cons, ?owners_app in *; cbn [owned app] in *;
  rewrite ?elem_of_app, ?elem_of_cons, ?elem_of_nil in *.

Ltac split_goal :=
  repeat match goal with
    | |- exists _, _ => eexists
    | |- _ /\ _ => split
    end.

(** What a running call accounts for on the WaitGroup of its phase: itself
    until its deferred [g.Done()], and the child it has registered but not
    started yet. *)
Definition units (ph : Phase) (pc : PC) : nat :=
  match ph, pc with
  | Build, BGo _ _ _ => 2
  | Build, (BEnter _ | BLoop _ _ | BLock _ _ _ | BAppend _ _ _ | BUnlock _ _ _ | BAdd _ _ _) => 1
  | Enrich, EGo _ _ _ => 2
  | Enrich, (EEnv _ _ | EStore _ _ _ | EChild _ _) => 1
  | Build, Panicking Build _ | Enrich, Panicking Enrich _ => 1
  | _, _ => 0
  end.

(** Steps that touch neither the store nor the counters. *)
Definition quiet (s s' : Shared) : Prop :=
  heap s' = heap s /\ wgInit s' = wgInit s /\ wgMain s' = wgMain s /\
  files s' = files s /\ dones s' = dones s.

Section Build.
Context (W : Collaborators) (cfg : Config).

(** What the directory reports for an identifier, read off the directory
    and [json.Unmarshal] alone, with none of the program's functions: the
    organization the decoder writes into a zero value for the body of the
    answer, whatever the status code, when the request goes through and the
    body can be read. *)
Definition resolve (orgID : string) : option Organization :=
  match RemoteDirectory W (username cfg) (password cfg) orgID with
  | Response _ (inl b) => Some (UnmarshalOrganization W b Organization.zero).1
  | _ => None
  end.

Lemma getOrganizationMetrics_quiet v s r s' :
  getOrganizationMetrics W cfg v s = (r, s') -> quiet s s'.
Proof.
  unfold getOrganizationMetrics, quiet. intros H.
  repeat case_match; simplify_eq/=; done.
Qed.

Lemma getOrganizationMetrics_Some v s b s' :
  getOrganizationMetrics W cfg v s = (Some b, s') ->
  resolve v = Some (decode_organization W b) /\ exited s' = exited s.
Proof.
  unfold getOrganizationMetrics, resolve. intros H.
  repeat case_match; simplify_eq/=; done.
Qed.

Lemma getOrganizationMetrics_None v s s' :
  getOrganizationMetrics W cfg v s = (None, s') ->
  resolve v = None /\ exited s' = Some 1%Z.
Proof.
  unfold getOrganizationMetrics, resolve. intros H.
  repeat case_match; simplify_eq/=; done.
Qed.

(** Node [c] carries what the directory gives for identifier [v]. *)
Definition resolved (h : list Node) (c : loc) (v : string) : Prop :=
  exists nd, h !! c = Some nd /\ resolve v = Some (BusinessOrganization nd).

(** Node [n] has just been made for [v] and is not attached or started. *)
Definition fresh (h : list Node) (n : loc) (v : string) : Prop :=
  exists nd, h !! n = Some nd /\ Children nd = [] /\ mux nd = false /\
             resolve v = Some (BusinessOrganization nd).

(** The call on [p] has dealt with the identifiers [ds] of its payload, in
    this order, and still has [vs] to visit. *)
Definition expanding (h : list Node) (p : loc) (locked : bool) (ds vs : list string)
           (nd : Node) : Prop :=
  h !! p = Some nd /\ mux nd = locked /\
  Organization.SubOrganizationIds (BusinessOrganization nd) = ds ++ vs /\
  Forall2 (resolved h) (Children nd) ds.

Definition thread_ok (h : list Node) (pc : PC) : Prop :=
  match pc with
  | BEnter p => exists nd, h !! p = Some nd /\ mux nd = false /\ Children nd = []
  | BLoop p vs => exists nd ds, expanding h p false ds vs nd
  | BLock p n vs =>
      exists nd ds v, expanding h p false ds (v :: vs) nd /\ fresh h n v /\
                      p < n /\ Forall (fun c => c < n) (Children nd)
  | BAppend p n vs =>
      exists nd ds v, expanding h p true ds (v :: vs) nd /\ fresh h n v /\
                      p < n /\ Forall (fun c => c < n) (Children nd)
  | BUnlock p n vs =>
      exists nd ds v, expanding h p true (ds ++ [v]) vs nd /\ fresh h n v
  | BAdd p n vs | BGo p n vs =>
      exists nd ds v, expanding h p false (ds ++ [v]) vs nd /\ fresh h n v
  | _ => False
  end.

(** Children are distinct, allocated after their parent, and in the store. *)
Definition heap_ok (h : list Node) : Prop :=
  forall l nd, h !! l = Some nd ->
    NoDup (Children nd) /\ Forall (fun c => l < c < length h) (Children nd).

(** The call on [l] has returned with every identifier of the payload
    turned into a child, in order. *)
Definition node_complete (h : list Node) (l : loc) : Prop :=
  exists nd, h !! l = Some nd /\
    Forall2 (resolved h) (Children nd)
            (Organization.SubOrganizationIds (BusinessOrganization nd)).

Record building (head : loc) (threads : list PC) (s : Shared) : Prop := {
  b_root : resolved (heap s) head (rootID cfg);
  b_heap : heap_ok (heap s);
  b_threads : Forall (thread_ok (heap s)) threads;
  b_owned : NoDup (owners threads);
  b_counter : wgInit s = Z.of_nat (sum_list_with (units Build) threads);
  b_done : forall l, (Build, l) ∈ dones s -> node_complete (heap s) l /\ l ∉ owners threads;
  b_cover : forall l, l < length (heap s) -> l ∈ owners threads \/ (Build, l) ∈ dones s;
  b_rest : wgMain s = 0%Z /\ files s = []
}.

(** The store changed without touching an organization. *)
Definition orgs_kept (h h' : list Node) : Prop :=
  forall l nd, h !! l = Some nd ->
    exists nd', h' !! l = Some nd' /\ BusinessOrganization nd' = BusinessOrganization nd.

Lemma resolved_kept h h' c v : orgs_kept h h' -> resolved h c v -> resolved h' c v.
Proof.
  intros Hk (nd & Hc & Hr). destruct (Hk _ _ Hc) as (nd' & Hc' & Ho).
  exists nd'. by rewrite Ho.
Qed.

Lemma Forall2_resolved_kept h h' cs vs :
  orgs_kept h h' -> Forall2 (resolved h) cs vs -> Forall2 (resolved h') cs vs.
Proof.
  intros Hk H. eapply Forall2_impl; [done|]. intros c v. by apply resolved_kept.
Qed.

Lemma thread_ok_frame h h' pc :
  orgs_kept h h' -> (forall l, l ∈ owned pc -> h' !! l = h !! l) ->
  thread_ok h pc -> thread_ok h' pc.
Proof.
  intros Hk Heq. unfold thread_ok, expanding, fresh.
  destruct pc; simpl in *; try done.
  all: intros H; open_hyps.
  all: repeat match goal with
         | H : _ !! _ = Some _ |- _ => rewrite <- Heq in H by set_solver
         end.
  all: split_goal; eauto using Forall2_resolved_kept.
Qed.

Lemma thread_ok_owned_lt h pc l : thread_ok h pc -> l ∈ owned pc -> l < length h.
Proof.
  unfold thread_ok, expanding, fresh. destruct pc; simpl; try done.
  all: intros H Hl; open_hyps.
  all: repeat match goal with
         | H : _ !! _ = Some _ |- _ => apply lookup_lt_Some in H
         end.
  all: set_unfold; destruct_or?; subst; done.
Qed.

Lemma thread_ok_units h pc : thread_ok h pc -> 1 <= units Build pc.
Proof. destruct pc; simpl; try done; lia. Qed.

Lemma orgs_kept_app h nd : orgs_kept h (h ++ [nd]).
Proof. intros l nd' Hl. exists nd'. split; [|done]. by apply lookup_app_l_Some. Qed.

Lemma orgs_kept_alter h p f :
  (forall nd, BusinessOrganization (f nd) = BusinessOrganization nd) ->
  orgs_kept h (alter f p h).
Proof.
  intros Hf l nd Hl. destruct (decide (l = p)) as [->|Hne].
  - exists (f nd). split; [|done]. rewrite list_lookup_alter_eq. by rewrite Hl.
  - exists nd. split; [|done]. by rewrite list_lookup_alter_ne.
Qed.

Global Instance building_perm head :
  Proper ((≡ₚ) ==> (=) ==> iff) (building head).
Proof.
  assert (forall t1 t2 s, t1 ≡ₚ t2 -> building head t1 s -> building head t2 s) as Himp.
  { intros t1 t2 s Hp [H1 H2 H3 H4 H5 H6 H7 H8]. split; try done.
    - by rewrite <- Hp.
    - by rewrite <- Hp.
    - by rewrite <- Hp.
    - intros l Hl. rewrite <- Hp. auto.
    - intros l Hl. rewrite <- Hp. auto. }
  intros t1 t2 Hp s ? <-. split; apply Himp; done.
Qed.

Lemma building_quiet head threads s s' :
  quiet s s' -> building head threads s -> building head threads s'.
Proof.
  intros (Hh & Hi & Hm & Hf & Hd) [H1 H2 H3 H4 H5 H6 H7 H8].
  split; rewrite ?Hh, ?Hi, ?Hm, ?Hf, ?Hd; done.
Qed.

Lemma heap_ok_app h nd : heap_ok h -> Children nd = [] -> heap_ok (h ++ [nd]).
Proof.
  intros Hok Hnd l nd' Hl. rewrite length_app; simpl.
  apply lookup_app_Some in Hl as [Hl|[_ Hl]].
  - destruct (Hok _ _ Hl) as [Hn Hf]. split; [done|].
    eapply Forall_impl; [done|]. simpl. lia.
  - apply list_lookup_singleton_Some in Hl as [_ <-]. rewrite Hnd.
    split; constructor.
Qed.

Lemma heap_ok_alter h p f :
  heap_ok h -> (forall nd, Children (f nd) = Children nd) -> heap_ok (alter f p h).
Proof.
  intros Hok Hf l nd Hl. rewrite length_alter.
  destruct (decide (l = p)) as [->|Hne].
  - rewrite list_lookup_alter_eq in Hl.
    destruct (h !! p) as [nd0|] eqn:Hp; simplify_eq/=. rewrite Hf. eauto.
  - rewrite list_lookup_alter_ne in Hl by done. eauto.
Qed.

Lemma node_complete_kept h h' l :
  orgs_kept h h' -> (forall nd, h !! l = Some nd -> h' !! l = Some nd) ->
  node_complete h l -> node_complete h' l.
Proof.
  intros Hk Hl (nd & Hnd & Hf). exists nd. split; [auto|].
  by eapply Forall2_resolved_kept.
Qed.

Lemma frame_rest h h' rest :
  orgs_kept h h' ->
  (forall l, l ∈ owners rest -> h' !! l = h !! l) ->
  Forall (thread_ok h) rest -> Forall (thread_ok h') rest.
Proof.
  intros Hk Heq. rewrite !Forall_forall. intros Hall pc Hpc.
  apply (thread_ok_frame h); [done| |by apply Hall].
  intros l Hl. apply Heq. apply elem_of_owners. eauto.
Qed.

Lemma rest_owned_lt h rest l :
  Forall (thread_ok h) rest -> l ∈ owners rest -> l < length h.
Proof.
  rewrite Forall_forall. intros Hall (pc & Hl & Hpc)%elem_of_owners.
  eapply thread_ok_owned_lt; eauto.
Qed.

(** A call writes to the node it runs on: the other calls and the nodes
    that are complete do not see it. *)
Lemma building_alter head pc pc' rest s p f :
  building head (pc :: rest) s ->
  p ∈ owned pc -> owned pc' = owned pc -> units Build pc' = units Build pc ->
  (forall nd, BusinessOrganization (f nd) = BusinessOrganization nd) ->
  heap_ok (alter f p (heap s)) ->
  thread_ok (alter f p (heap s)) pc' ->
  building head (pc' :: rest) (set_heap (alter f p) s).
Proof.
  intros [Hroot Hheap [Hpc Hrest]%Forall_cons Hown Hcnt Hdone Hcov Hq] Hp Ho Hu Hf Hheap' Hpc'.
  assert (orgs_kept (heap s) (alter f p (heap s))) as Hk by by apply orgs_kept_alter.
  assert (forall l, l ∈ owned pc -> l ∉ owners rest) as Hdisj.
  { rewrite owners_cons in Hown. by apply NoDup_app in Hown as (_ & Hdisj & _). }
  split; sh; try done.
  - by eapply resolved_kept.
  - constructor; [done|]. eapply frame_rest; [done| |done].
    intros l Hl. apply list_lookup_alter_ne. intros ->. by eapply Hdisj.
  - by rewrite owners_cons, Ho, <- owners_cons.
  - rewrite Hcnt. cbn [sum_list_with]. by rewrite Hu.
  - intros l Hl. destruct (Hdone l Hl) as [Hc Hno]. split.
    + eapply node_complete_kept; [done| |done]. intros nd Hl'.
      rewrite list_lookup_alter_ne; [done|]. intros ->. apply Hno.
      rewrite owners_cons, elem_of_app. auto.
    + by rewrite owners_cons, Ho, <- owners_cons.
  - intros l. rewrite length_alter, owners_cons, Ho, <- owners_cons. apply Hcov.
Qed.

Lemma building_next head pc rest pc' forks s s' :
  building head (pc :: rest) s ->
  step_pc W cfg pc s = Next pc' forks s' ->
  building head (pc' :: rest ++ forks) s'.
Proof.
  intros Hb Hstep.
  destruct pc; simpl in Hstep; try (by destruct Hb as [_ _ [[] _]%Forall_cons]).
  - (* BEnter *)
    destruct Hb as [Hroot Hheap [Hpc Hrest]%Forall_cons Hown Hcnt Hdone Hcov Hq].
    destruct Hpc as (nd & Hp & Hmux & Hch). rewrite Hp in Hstep. simplify_eq/=.
    rewrite app_nil_r. split; try done.
    constructor; [|done]. exists nd, []. unfold expanding. rewrite Hch. auto.
  - (* BLoop *)
    destruct vs as [|v vs]; [done|].
    destruct (getOrganizationMetrics W cfg v s) as [[b|] s1] eqn:Hget; simplify_eq/=.
    2:{ apply getOrganizationMetrics_quiet in Hget.
        rewrite app_nil_r. by eapply building_quiet. }
    apply getOrganizationMetrics_quiet in Hget as Hq.
    apply getOrganizationMetrics_Some in Hget as [Hres _].
    apply (building_quiet _ _ _ _ Hq) in Hb. clear Hq s.
    destruct Hb as [Hroot Hheap [Hpc Hrest]%Forall_cons Hown Hcnt Hdone Hcov Hq].
    destruct Hpc as (nd & ds & Hp & Hmux & Hids & Hch).
    set (node := new_node (decode_organization W b)).
    assert (orgs_kept (heap s1) (heap s1 ++ [node])) as Hk by apply orgs_kept_app.
    rewrite owners_cons in Hown. simpl in Hown. apply NoDup_cons in Hown as [Hpn Hown].
    assert (forall l, l ∈ owners rest -> l < length (heap s1)) as Hlt.
    { intros l. by apply rest_owned_lt. }
    apply lookup_lt_Some in Hp as Hplt.
    rewrite app_nil_r. split; try done.
    + by eapply resolved_kept.
    + by apply heap_ok_app.
    + constructor.
      * exists nd, ds, v. unfold expanding, fresh. split_and!; try done.
        -- by apply lookup_app_l_Some.
        -- by eapply Forall2_resolved_kept.
        -- exists node. split_and!; try done. by apply list_lookup_middle.
        -- destruct (Hheap _ _ Hp) as [_ Hf]. eapply Forall_impl; [done|]. simpl. lia.
      * eapply frame_rest; [done| |done]. intros l Hl.
        apply lookup_app_l. auto.
    + rewrite owners_cons. simpl.
      apply NoDup_cons. split; [|apply NoDup_cons; split; [|done]].
      * intros [->|Hin]%elem_of_cons; [lia|done].
      * intros Hin%Hlt. lia.
    + intros l Hl. destruct (Hdone l Hl) as [Hc Hno]. split.
      * eapply node_complete_kept; [done| |done]. intros. by apply lookup_app_l_Some.
      * destruct Hc as (ndl & Hndl%lookup_lt_Some & _).
        own. intros [->|[->|Hin]]; [|lia|]; tauto.
    + intros l. simpl. rewrite length_app. simpl. intros Hl.
      destruct (decide (l = length (heap s1))) as [->|Hne]; [own; tauto|].
      destruct (Hcov l) as [Hin|Hd]; [lia| |by right]. own. tauto.
  - (* BLock *)
    pose proof Hb as [_ Hheap [Hpc _]%Forall_cons _ _ _ _ _].
    destruct Hpc as (nd & ds & v & (Hp & Hmux & Hids & Hch) & (nn & Hn & Hnc & Hnm & Hnr) & Hlt & Hbelow).
    rewrite Hp, Hmux in Hstep. simplify_eq. rewrite app_nil_r.
    assert (p ≠ n) as Hne by lia.
    eapply building_alter; [done|own; tauto|done|done|done| |].
    + by apply heap_ok_alter.
    + exists (set_mux true nd), ds, v. unfold expanding, fresh. split_and!; try done.
      * rewrite list_lookup_alter_eq. by rewrite Hp.
      * eapply Forall2_resolved_kept; [|done]. by apply orgs_kept_alter.
      * exists nn. split_and!; try done. by rewrite list_lookup_alter_ne.
  - (* BAppend *)
    pose proof Hb as [_ Hheap [Hpc _]%Forall_cons _ _ _ _ _]. simplify_eq.
    destruct Hpc as (nd & ds & v & (Hp & Hmux & Hids & Hch) & (nn & Hn & Hnc & Hnm & Hnr) & Hlt & Hbelow).
    assert (p ≠ n) as Hne by lia. rewrite app_nil_r.
    assert (orgs_kept (heap s) (alter (append_child n) p (heap s))) as Hk
        by by apply orgs_kept_alter.
    eapply building_alter; [done|own; tauto|done|done|done| |].
    + intros l nd' Hl. rewrite length_alter.
      destruct (decide (l = p)) as [->|Hlp].
      * rewrite list_lookup_alter_eq, Hp in Hl. simpl in Hl. simplify_eq. simpl.
        destruct (Hheap _ _ Hp) as [Hnd Hf]. split.
        -- apply NoDup_app. split_and!; [done| |apply NoDup_singleton].
           intros c Hc ->%list_elem_of_singleton.
           rewrite Forall_forall in Hbelow. specialize (Hbelow _ Hc). lia.
        -- apply Forall_app. split; [done|]. apply Forall_singleton.
           apply lookup_lt_Some in Hn. lia.
      * rewrite list_lookup_alter_ne in Hl by done. eauto.
    + exists (append_child n nd), ds, v. unfold expanding, fresh. split_and!; try done.
      * rewrite list_lookup_alter_eq. by rewrite Hp.
      * simpl. by rewrite Hids, <- app_assoc.
      * simpl. apply Forall2_app; [by eapply Forall2_resolved_kept|].
        constructor; [|constructor]. exists nn. split; [|done].
        by rewrite list_lookup_alter_ne.
      * exists nn. split_and!; try done. by rewrite list_lookup_alter_ne.
  - (* BUnlock *)
    pose proof Hb as [_ Hheap [Hpc _]%Forall_cons Hown _ _ _ _]. simplify_eq.
    destruct Hpc as (nd & ds & v & (Hp & Hmux & Hids & Hch) & (nn & Hn & Hnc & Hnm & Hnr)).
    assert (p ≠ n) as Hne.
    { rewrite owners_cons in Hown. simpl in Hown.
      apply NoDup_cons in Hown as [Hown _]. intros ->. apply Hown. left. }
    rewrite app_nil_r.
    eapply building_alter; [done|own; tauto|done|done|done| |].
    + by apply heap_ok_alter.
    + exists (set_mux false nd), ds, v. unfold expanding, fresh. split_and!; try done.
      * rewrite list_lookup_alter_eq. by rewrite Hp.
      * eapply Forall2_resolved_kept; [|done]. by apply orgs_kept_alter.
      * exists nn. split_and!; try done. by rewrite list_lookup_alter_ne.
  - (* BAdd *)
    simplify_eq. rewrite app_nil_r.
    destruct Hb as [Hroot Hheap [Hpc Hrest]%Forall_cons Hown Hcnt Hdone Hcov Hq].
    split; sh; try done.
    + by constructor.
    + rewrite Hcnt. simpl. lia.
  - (* BGo *)
    simplify_eq.
    destruct Hb as [Hroot Hheap [Hpc Hrest]%Forall_cons Hown Hcnt Hdone Hcov Hq].
    destruct Hpc as (nd & ds & v & (Hp & Hmux & Hids & Hch) & (nn & Hn & Hnc & Hnm & Hnr)).
    assert (owners (BLoop p vs :: rest ++ [BEnter n]) ≡ₚ owners (BGo p n vs :: rest)) as Hperm.
    { rewrite !owners_cons, owners_app, owners_cons. cbn [owned app owners mbind list_bind].
      constructor. symmetry. apply Permutation_cons_append. }
    split; sh; try done.
    + constructor; [by exists nd, (ds ++ [v])|]. apply Forall_app. split; [done|].
      apply Forall_singleton. by exists nn.
    + by rewrite Hperm.
    + rewrite Hcnt. simpl. rewrite sum_list_with_app. simpl. lia.
    + intros l Hl. rewrite Hperm. auto.
    + intros l Hl. rewrite Hperm. auto.
Qed.

Lemma building_return head pc rest s s' :
  building head (pc :: rest) s ->
  step_pc W cfg pc s = Return s' ->
  building head rest s'.
Proof.
  intros Hb Hstep.
  destruct pc; try (by destruct Hb as [_ _ [[] _]%Forall_cons]);
    simpl in Hstep; try (by repeat case_match).
  destruct vs as [|v vs]; [|by repeat case_match]. simplify_eq/=.
  destruct Hb as [Hroot Hheap [Hpc Hrest]%Forall_cons Hown Hcnt Hdone Hcov Hq].
  destruct Hpc as (nd & ds & Hp & Hmux & Hids & Hch). rewrite app_nil_r in Hids.
  rewrite owners_cons in Hown. simpl in Hown. apply NoDup_cons in Hown as [Hpn Hown].
  unfold wg_Done. simpl. simpl in Hcnt.
  destruct (decide _) as [Hneg|_]; [lia|].
  split; sh; try done.
  - rewrite Hcnt. lia.
  - intros l [Hl|Heq%list_elem_of_singleton]%elem_of_app.
    + destruct (Hdone l Hl) as [Hc Hno]. split; [done|]. own. tauto.
    + simplify_eq. split; [|done]. by exists nd.
  - intros l Hl. rewrite elem_of_app, list_elem_of_singleton.
    destruct (Hcov l Hl) as [Hin|Hd]; [|tauto]. own.
    destruct Hin as [->|Hin]; auto.
Qed.

(** The invariant of the whole construction, by the place of the main
    goroutine. *)
Definition nothing_yet (σ : State) : Prop :=
  gos σ = [] /\ wgInit (shared σ) = 0%Z /\ wgMain (shared σ) = 0%Z /\
  files (shared σ) = [] /\ dones (shared σ) = [].

Definition BInv (σ : State) : Prop :=
  match mainpc σ with
  | MStart | MInitTree => nothing_yet σ /\ heap (shared σ) = []
  | MBuildAdd head =>
      nothing_yet σ /\ head = 0 /\
      exists o, resolve (rootID cfg) = Some o /\ heap (shared σ) = [new_node o]
  | MBuild head _ | MBuildWait head => building head (pool σ) (shared σ)
  | MEnrichAdd head => building head [] (shared σ) /\ gos σ = []
  | _ => True
  end.

Lemma building_idle head threads s :
  building head threads s -> wgInit s = 0%Z -> threads = [].
Proof.
  intros [_ _ Hth _ Hcnt _ _ _] Hz. destruct threads as [|pc rest]; [done|].
  apply Forall_cons in Hth as [Hpc%thread_ok_units _].
  rewrite Hcnt in Hz. cbn [sum_list_with] in Hz. lia.
Qed.

Lemma building_start o :
  resolve (rootID cfg) = Some o ->
  building 0 [BEnter 0]
    {| heap := [new_node o]; wgInit := 1; wgMain := 0; calls := []; stdout := [];
       stderr := []; files := []; dones := []; exited := None |}.
Proof.
  intros Ho. split; sh; try done.
  - by exists (new_node o).
  - intros [|l] nd Hl; simplify_eq/=. split; constructor.
  - constructor; [|done]. by exists (new_node o).
  - apply NoDup_singleton.
  - intros l Hl. by apply elem_of_nil in Hl.
  - intros [|l] Hl; simpl in Hl; [|lia]. left. apply list_elem_of_singleton. done.
Qed.

Lemma BInv_step σ σ' : BInv σ -> pstep W cfg σ σ' -> BInv σ'.
Proof.
  intros Hinv [Hcall Hstep Hgos|pc rest pc' forks Hp Hstep Hp' Hst|pc rest Hp Hstep Hp' Hst].
  - unfold step_main in Hstep. unfold BInv, nothing_yet in *.
    destruct (mainpc σ) eqn:Hm; try done; repeat case_match; simplify_eq/=; try done.
    + destruct Hinv as ((Hg & Hi & Hwm & Hf & Hd) & Hh).
      match goal with H : getOrganizationMetrics _ _ _ _ = _ |- _ =>
        apply getOrganizationMetrics_quiet in H as Hq;
        apply getOrganizationMetrics_Some in H as [Hres _];
        destruct Hq as (Hh' & -> & -> & -> & ->) end.
      rewrite Hh', Hh. split_and!; try done. eauto.
    + destruct Hinv as ((Hg & Hi & Hwm & Hf & Hd) & Hh).
      match goal with H : getOrganizationMetrics _ _ _ _ = _ |- _ =>
        apply getOrganizationMetrics_quiet in H as (-> & -> & -> & -> & ->) end. done.
    + destruct Hinv as ((Hg & Hi & Hwm & Hf & Hd) & -> & o & Ho & Hh).
      unfold pool. simpl. rewrite Hg.
      pose proof (building_start o Ho) as [H1 H2 H3 H4 H5 H6 H7 [H8 H9]].
      split; sh; rewrite ?Hh, ?Hi, ?Hwm, ?Hf, ?Hd; done.
    + unfold pool in Hinv. rewrite Hm in Hinv.
      match goal with H : wgInit _ = 0%Z |- _ =>
        pose proof (building_idle _ _ _ Hinv H) as Hnil end.
      by rewrite Hnil in *.
  - unfold BInv in *.
    destruct (mainpc σ) eqn:Hm; destruct (mainpc σ') eqn:Hm'; simpl in Hst; try done;
      simplify_eq; unfold pool in Hp, Hinv; rewrite ?Hm in Hp; rewrite ?Hm in Hinv;
      unfold nothing_yet in Hinv;
      try (destruct Hinv as ((Hnil & _) & _); rewrite Hnil in Hp;
           by apply Permutation_nil_cons in Hp);
      try (destruct Hinv as (_ & Hnil); rewrite Hnil in Hp;
           by apply Permutation_nil_cons in Hp).
    + rewrite Hp'. eapply building_next; [|done]. by rewrite <- Hp.
    + rewrite Hp'. eapply building_next; [|done]. by rewrite <- Hp.
  - unfold BInv in *.
    destruct (mainpc σ) eqn:Hm; simpl in Hst; destruct_or?; simplify_eq;
      rewrite ?Hst; try done;
      unfold pool in Hp, Hinv; rewrite ?Hm in Hp; rewrite ?Hm in Hinv; unfold nothing_yet in Hinv;
      try (destruct Hinv as ((Hnil & _) & _); rewrite Hnil in Hp;
           by apply Permutation_nil_cons in Hp);
      try (destruct Hinv as (_ & Hnil); rewrite Hnil in Hp;
           by apply Permutation_nil_cons in Hp).
    all: rewrite ?Hm; rewrite Hp'; eapply building_return; [|done]; by rewrite <- Hp.
Qed.

Lemma BInv_initial : BInv initial.
Proof. by repeat split. Qed.

Lemma BInv_run stop sched : BInv (run_until W cfg stop sched initial).
Proof.
  apply run_until_invariant; [|apply BInv_initial].
  intros σ1 σ2 H1 _ H2. by eapply BInv_step.
Qed.

(** ** What the directory describes *)

(** The hierarchy below [orgID] is finite, of depth at most [d], and every
    request on the way goes through. *)
Fixpoint hierarchy_within (d : nat) (orgID : string) : bool :=
  match d with
  | O => false
  | S d' =>
      match resolve orgID with
      | Some o => forallb (hierarchy_within d') (Organization.SubOrganizationIds o)
      | None => false
      end
  end.

(** The tree the directory describes, unfolded from the identifiers alone. *)
Fixpoint directory_tree (d : nat) (orgID : string) : Tree :=
  match d with
  | O => TNode Organization.zero []
  | S d' =>
      match resolve orgID with
      | Some o => TNode o (map (directory_tree d') (Organization.SubOrganizationIds o))
      | None => TNode Organization.zero []
      end
  end.

(** The number of organizations the directory reports below [orgID]. *)
Fixpoint directory_count (d : nat) (orgID : string) : nat :=
  match d with
  | O => 0
  | S d' =>
      match resolve orgID with
      | Some o => S (sum_list_with (directory_count d') (Organization.SubOrganizationIds o))
      | None => 0
      end
  end.

Lemma hierarchy_within_S d orgID :
  hierarchy_within d orgID = true -> hierarchy_within (S d) orgID = true.
Proof.
  revert orgID. induction d as [|d IH]; intros orgID; [done|].
  intros H. simpl in H. change (hierarchy_within (S (S d)) orgID) with
    (match resolve orgID with
     | Some o => forallb (hierarchy_within (S d)) (Organization.SubOrganizationIds o)
     | None => false end).
  destruct (resolve orgID) as [o|]; [|done].
  rewrite forallb_forall in H. apply forallb_forall. intros v Hv. apply IH. auto.
Qed.

Lemma hierarchy_within_children d orgID o :
  hierarchy_within d orgID = true -> resolve orgID = Some o ->
  Forall (fun v => hierarchy_within (pred d) v = true) (Organization.SubOrganizationIds o) /\
  Forall (fun v => hierarchy_within d v = true) (Organization.SubOrganizationIds o).
Proof.
  destruct d as [|d]; [done|]. simpl. intros H Ho. rewrite Ho in H.
  rewrite forallb_forall in H. split; apply Forall_forall; intros v Hv%list_elem_of_In.
  - auto.
  - apply hierarchy_within_S. auto.
Qed.

Lemma directory_tree_size d orgID :
  hierarchy_within d orgID = true ->
  tree_size (directory_tree d orgID) = directory_count d orgID.
Proof.
  revert orgID. induction d as [|d IH]; intros orgID; [done|]. simpl.
  destruct (resolve orgID) as [o|]; [|done]. rewrite forallb_forall. intros H.
  simpl. f_equal. induction (Organization.SubOrganizationIds o) as [|v vs IHvs]; [done|].
  simpl. rewrite IH by (apply H; by left). rewrite IHvs; [done|].
  intros x Hx. apply H. by right.
Qed.

(** ** The tree in the store once every call has returned *)

(** Children are allocated after their parent and are in the store. *)
Definition linked (h : list Node) : Prop :=
  forall l nd, h !! l = Some nd -> Forall (fun c => l < c < length h) (Children nd).

Lemma heap_ok_linked h : heap_ok h -> linked h.
Proof. intros Hok l nd Hl. by destruct (Hok l nd Hl). Qed.

Lemma tree_of_fuel h f1 f2 l :
  linked h -> l < length h -> length h - l <= f1 -> length h - l <= f2 ->
  tree_of f1 h l = tree_of f2 h l.
Proof.
  intros Hok. revert f2 l. induction f1 as [|f1 IH]; intros f2 l Hl H1 H2; [lia|].
  destruct f2 as [|f2]; [lia|]. simpl.
  destruct (h !! l) as [nd|] eqn:Hnd; [|done]. f_equal.
  pose proof (Hok _ _ Hnd) as Hf. rewrite Forall_forall in Hf.
  apply map_ext_in. intros c Hc%list_elem_of_In. specialize (Hf _ Hc).
  apply IH; lia.
Qed.

Lemma tree_of_unfold h l nd :
  linked h -> h !! l = Some nd ->
  tree_of (length h) h l
  = TNode (BusinessOrganization nd) (map (tree_of (length h) h) (Children nd)).
Proof.
  intros Hok Hl. apply lookup_lt_Some in Hl as Hlt.
  rewrite (tree_of_fuel h (length h) (S (length h)) l) by (try done; lia).
  cbn [tree_of]. by rewrite Hl.
Qed.

Lemma tree_of_complete h :
  (forall l, l < length h -> node_complete h l) ->
  forall d fuel l orgID,
    d <= fuel -> hierarchy_within d orgID = true -> resolved h l orgID ->
    tree_of fuel h l = directory_tree d orgID.
Proof.
  intros Hall. induction d as [|d IH]; intros fuel l orgID Hf Hw (nd & Hl & Hr); [done|].
  destruct fuel as [|fuel]; [lia|]. simpl. rewrite Hl, Hr. f_equal.
  destruct (Hall l) as (nd' & Hl' & Hch); [by eapply lookup_lt_Some|].
  rewrite Hl in Hl'. injection Hl' as <-.
  destruct (hierarchy_within_children _ _ _ Hw Hr) as [Hsub _]. simpl in Hsub.
  revert Hch Hsub. generalize (Organization.SubOrganizationIds (BusinessOrganization nd)).
  intros vs Hch Hsub. induction Hch as [|c v cs vs Hcv Hrest IHr]; [done|].
  apply Forall_cons in Hsub as [Hv Hvs]. simpl. f_equal; [|auto].
  apply IH; [lia|done|done].
Qed.

(** ** Termination of the construction *)

(** The steps it takes to deal with identifier [orgID]: six in the parent
    (fetch, lock, append, unlock, add, go), two in the child's own call
    (entering and the deferred [g.Done()]), and what its children take. *)
Fixpoint cost (d : nat) (orgID : string) : nat :=
  match d with
  | O => 0
  | S d' =>
      match resolve orgID with
      | Some o => 8 + sum_list_with (cost d') (Organization.SubOrganizationIds o)
      | None => 0
      end
  end.

Lemma sum_list_with_ext {A} (f g : A -> nat) l :
  Forall (fun x => f x = g x) l -> sum_list_with f l = sum_list_with g l.
Proof. induction 1 as [|x l Hx _ IH]; simpl; [done|]. by rewrite Hx, IH. Qed.

Lemma cost_fuel d d' orgID :
  hierarchy_within d orgID = true -> d <= d' -> cost d' orgID = cost d orgID.
Proof.
  revert d' orgID. induction d as [|d IH]; intros d' orgID Hw Hle; [done|].
  destruct d' as [|d']; [lia|]. simpl in *.
  destruct (resolve orgID) as [o|]; [|done]. do 8 f_equal.
  apply sum_list_with_ext. rewrite forallb_forall in Hw.
  apply Forall_forall. intros v Hv%list_elem_of_In. apply IH; [auto|lia].
Qed.

Section Measure.
Context (D : nat).

Definition todo (vs : list string) : nat := sum_list_with (cost D) vs.

Definition enter_cost (h : list Node) (n : loc) : nat :=
  match h !! n with
  | Some nd => 2 + todo (Organization.SubOrganizationIds (BusinessOrganization nd))
  | None => 0
  end.

Definition pc_cost (h : list Node) (pc : PC) : nat :=
  match pc with
  | BEnter p => enter_cost h p
  | BLoop p vs => 1 + todo vs
  | BLock p n vs => 6 + enter_cost h n + todo vs
  | BAppend p n vs => 5 + enter_cost h n + todo vs
  | BUnlock p n vs => 4 + enter_cost h n + todo vs
  | BAdd p n vs => 3 + enter_cost h n + todo vs
  | BGo p n vs => 2 + enter_cost h n + todo vs
  | _ => 0
  end.

Definition root_cost : nat :=
  match resolve (rootID cfg) with
  | Some o => 2 + todo (Organization.SubOrganizationIds o)
  | None => 0
  end.

(** The number of steps left until [InitTree] returns. *)
Definition build_measure (σ : State) : nat :=
  match mainpc σ with
  | MStart => 4 + root_cost
  | MInitTree => 3 + root_cost
  | MBuildAdd head => 2 + enter_cost (heap (shared σ)) head
  | MBuild _ _ | MBuildWait _ => 1 + sum_list_with (pc_cost (heap (shared σ))) (pool σ)
  | _ => 0
  end.

Definition ids_within (h : list Node) : Prop :=
  forall l nd, h !! l = Some nd ->
    Forall (fun v => hierarchy_within D v = true)
           (Organization.SubOrganizationIds (BusinessOrganization nd)).

Definition flags_present : Prop :=
  rootID cfg <> "" /\ username cfg <> "" /\ password cfg <> "".

Definition TInv (σ : State) : Prop :=
  exited (shared σ) = None /\ flags_present /\
  hierarchy_within D (rootID cfg) = true /\ ids_within (heap (shared σ)).

Lemma cost_unfold v o :
  hierarchy_within D v = true -> resolve v = Some o ->
  cost D v = 8 + todo (Organization.SubOrganizationIds o).
Proof.
  intros Hw Ho. destruct D as [|d] eqn:HD; [done|]. simpl. rewrite Ho. do 8 f_equal.
  unfold todo. apply sum_list_with_ext.
  destruct (hierarchy_within_children _ _ _ Hw Ho) as [Hsub _]. simpl in Hsub.
  eapply Forall_impl; [done|]. intros c Hc. simpl in Hc. symmetry.
  apply cost_fuel; [done|lia].
Qed.

Lemma enter_cost_kept h h' n :
  orgs_kept h h' -> n < length h -> enter_cost h' n = enter_cost h n.
Proof.
  intros Hk Hn. unfold enter_cost.
  destruct (lookup_lt_is_Some_2 _ _ Hn) as [nd Hnd]. rewrite Hnd.
  destruct (Hk _ _ Hnd) as (nd' & -> & ->). done.
Qed.

Lemma pc_cost_kept h h' pc :
  orgs_kept h h' -> thread_ok h pc -> pc_cost h' pc = pc_cost h pc.
Proof.
  intros Hk Hok.
  assert (forall l, l ∈ owned pc -> l < length h) as Hlt
      by (intros l; by apply thread_ok_owned_lt).
  destruct pc; simpl in *; try done;
    rewrite (enter_cost_kept h h') by (try done; apply Hlt; own; tauto); done.
Qed.

Lemma sum_pc_cost_kept h h' rest :
  orgs_kept h h' -> Forall (thread_ok h) rest ->
  sum_list_with (pc_cost h') rest = sum_list_with (pc_cost h) rest.
Proof.
  intros Hk Hall. apply sum_list_with_ext. eapply Forall_impl; [done|].
  intros pc Hpc. by apply pc_cost_kept.
Qed.

Lemma ids_within_alter h p f :
  (forall nd, BusinessOrganization (f nd) = BusinessOrganization nd) ->
  ids_within h -> ids_within (alter f p h).
Proof.
  intros Hf Hw l nd Hl. destruct (decide (l = p)) as [->|Hne].
  - rewrite list_lookup_alter_eq in Hl.
    destruct (h !! p) as [nd0|] eqn:Hp; simplify_eq/=. rewrite Hf. eauto.
  - rewrite list_lookup_alter_ne in Hl by done. eauto.
Qed.

Lemma ids_within_app h o v :
  ids_within h -> hierarchy_within D v = true -> resolve v = Some o ->
  ids_within (h ++ [new_node o]).
Proof.
  intros Hw Hv Ho l nd [Hl|[_ Hl]]%lookup_app_Some; [eauto|].
  apply list_lookup_singleton_Some in Hl as [_ <-]. simpl.
  by destruct (hierarchy_within_children _ _ _ Hv Ho).
Qed.

Lemma within_resolves v : hierarchy_within D v = true -> is_Some (resolve v).
Proof. destruct D; [done|]. simpl. by destruct (resolve v). Qed.

Lemma getOrganizationMetrics_within v s :
  hierarchy_within D v = true ->
  exists b s', getOrganizationMetrics W cfg v s = (Some b, s').
Proof.
  intros [o Ho]%within_resolves.
  destruct (getOrganizationMetrics W cfg v s) as [[b|] s'] eqn:Hget; [eauto|].
  apply getOrganizationMetrics_None in Hget as [Hn _]. congruence.
Qed.

Lemma building_next_decr head pc rest pc' forks s s' :
  building head (pc :: rest) s -> exited s = None -> ids_within (heap s) ->
  step_pc W cfg pc s = Next pc' forks s' ->
  exited s' = None /\ ids_within (heap s') /\
  sum_list_with (pc_cost (heap s')) (pc' :: rest ++ forks)
  < sum_list_with (pc_cost (heap s)) (pc :: rest).
Proof.
  intros [_ Hheap [Hpc Hrest]%Forall_cons Hown _ _ _ _] Hex Hw Hstep.
  assert (forall l, l ∈ owned pc -> l < length (heap s)) as Hlt
      by (intros l; by apply thread_ok_owned_lt).
  assert (forall f, (forall nd, BusinessOrganization (f nd) = BusinessOrganization nd) ->
            forall p, sum_list_with (pc_cost (alter f p (heap s))) rest
                      = sum_list_with (pc_cost (heap s)) rest) as Halter.
  { intros f Hf p. apply sum_pc_cost_kept; [by apply orgs_kept_alter|done]. }
  destruct pc; simpl in Hstep, Hpc; try done.
  - destruct Hpc as (nd & Hp & Hmux & Hch). rewrite Hp in Hstep. simplify_eq.
    split_and!; [done..|]. rewrite app_nil_r. cbn [sum_list_with pc_cost].
    unfold enter_cost. rewrite Hp. lia.
  - destruct Hpc as (nd & ds & Hp & Hmux & Hids & Hch).
    destruct vs as [|v vs]; [done|].
    assert (hierarchy_within D v = true) as Hv.
    { specialize (Hw _ _ Hp). rewrite Hids in Hw.
      by apply Forall_app in Hw as [_ [Hv _]%Forall_cons]. }
    destruct (getOrganizationMetrics_within v s Hv) as (b & s1 & Hget).
    rewrite Hget in Hstep. simplify_eq.
    apply getOrganizationMetrics_quiet in Hget as Hq. destruct Hq as (Hh & _).
    apply getOrganizationMetrics_Some in Hget as [Hres Hex1].
    sh. rewrite Hh, Hex1. split_and!; [done|by eapply ids_within_app|].
    rewrite app_nil_r. cbn [sum_list_with pc_cost].
    rewrite (sum_pc_cost_kept (heap s) (heap s ++ _)) by (try done; apply orgs_kept_app).
    unfold enter_cost. rewrite list_lookup_middle by done. simpl.
    unfold todo at 3. cbn [sum_list_with]. rewrite (cost_unfold v _ Hv Hres). fold (todo vs).
    lia.
  - destruct Hpc as (nd & ds & v & (Hp & Hmux & Hids & Hch) & _).
    rewrite Hp, Hmux in Hstep. simplify_eq. sh.
    split_and!; [done|by apply ids_within_alter|].
    rewrite app_nil_r. cbn [sum_list_with pc_cost]. rewrite Halter by done.
    rewrite (enter_cost_kept (heap s)); [lia|by apply orgs_kept_alter|apply Hlt; own; tauto].
  - simplify_eq. sh. split_and!; [done|by apply ids_within_alter|].
    rewrite app_nil_r. cbn [sum_list_with pc_cost]. rewrite Halter by done.
    rewrite (enter_cost_kept (heap s)); [lia|by apply orgs_kept_alter|apply Hlt; own; tauto].
  - simplify_eq. sh. split_and!; [done|by apply ids_within_alter|].
    rewrite app_nil_r. cbn [sum_list_with pc_cost]. rewrite Halter by done.
    rewrite (enter_cost_kept (heap s)); [lia|by apply orgs_kept_alter|apply Hlt; own; tauto].
  - simplify_eq. sh. split_and!; [done..|].
    rewrite app_nil_r. cbn [sum_list_with pc_cost]. lia.
  - simplify_eq. split_and!; [done..|].
    cbn [sum_list_with pc_cost]. rewrite sum_list_with_app. cbn [sum_list_with pc_cost]. lia.
Qed.

Lemma building_return_decr head pc rest s s' :
  building head (pc :: rest) s -> exited s = None ->
  step_pc W cfg pc s = Return s' ->
  exited s' = None /\ heap s' = heap s /\
  sum_list_with (pc_cost (heap s')) rest < sum_list_with (pc_cost (heap s)) (pc :: rest).
Proof.
  intros [_ _ [Hpc Hrest]%Forall_cons _ Hcnt _ _ _] Hex Hstep.
  destruct pc; simpl in Hpc; try done; simpl in Hstep; try (by repeat case_match).
  destruct vs as [|v vs]; [|by repeat case_match]. simplify_eq.
  unfold wg_Done. sh. cbn [sum_list_with units] in Hcnt.
  destruct (decide _) as [Hneg|_]; [lia|]. sh.
  split_and!; [done..|]. cbn [sum_list_with pc_cost]. lia.
Qed.

Lemma building_of_pool σ pc rest :
  BInv σ -> in_build (mainpc σ) = true -> pool σ ≡ₚ pc :: rest ->
  exists head, building head (pc :: rest) (shared σ) /\
               ((exists q, mainpc σ = MBuild head q) \/ mainpc σ = MBuildWait head).
Proof.
  intros Hinv Hin Hp. unfold BInv, pool in *.
  destruct (mainpc σ) eqn:Hm; try done; unfold nothing_yet in Hinv;
    try (destruct Hinv as ((Hnil & _) & _); rewrite Hnil in Hp;
         by apply Permutation_nil_cons in Hp).
  - exists head. rewrite <- Hp. eauto.
  - exists head. rewrite <- Hp. eauto.
Qed.

Lemma TInv_step σ σ' :
  BInv σ -> TInv σ -> in_build (mainpc σ) = true -> pstep W cfg σ σ' ->
  TInv σ' /\ build_measure σ' < build_measure σ /\
  (in_build (mainpc σ') = true \/ exists head, mainpc σ' = MEnrichAdd head).
Proof.
  intros Hinv (Hex & Hflags & Hroot & Hw) Hin
    [Hcall Hstep Hgos|pc rest pc' forks Hp Hstep Hp' Hst|pc rest Hp Hstep Hp' Hst].
  - unfold step_main in Hstep. unfold BInv, TInv, build_measure, nothing_yet in *.
    destruct (mainpc σ) eqn:Hm; try done.
    + destruct (decide _) as [Hd|_]; [unfold flags_present in Hflags; tauto|].
      simplify_eq/=. split_and!; [done..|lia|by left].
    + destruct (getOrganizationMetrics_within (rootID cfg) (shared σ) Hroot)
        as (b & s1 & Hget).
      rewrite Hget in Hstep. simplify_eq.
      apply getOrganizationMetrics_quiet in Hget as Hq. destruct Hq as (Hh & _).
      apply getOrganizationMetrics_Some in Hget as [Hres Hex1].
      destruct Hinv as (_ & Hnil). cbn [mainpc with_main shared]. sh.
      rewrite Hh, Hex1, Hnil. split_and!; try done.
      * by eapply (ids_within_app []).
      * unfold root_cost, enter_cost. rewrite Hres. simpl. lia.
      * by left.
    + simplify_eq. cbn [mainpc with_main shared pool gos]. sh.
      destruct Hinv as ((-> & _) & _). split_and!; try done.
      * cbn [sum_list_with pc_cost]. lia.
      * by left.
    + destruct (decide _) as [Hz|_]; [|done]. simplify_eq.
      cbn [mainpc with_main shared]. split_and!; try done; [lia|eauto].
  - destruct (building_of_pool σ pc rest Hinv Hin Hp) as (head & Hb & Hm).
    destruct (building_next_decr _ _ _ _ _ _ _ Hb Hex Hw Hstep) as (Hex' & Hw' & Hlt).
    assert (sum_list_with (pc_cost (heap (shared σ))) (pool σ)
            = sum_list_with (pc_cost (heap (shared σ))) (pc :: rest)) as Hsum
        by by rewrite Hp.
    assert (sum_list_with (pc_cost (heap (shared σ'))) (pool σ')
            = sum_list_with (pc_cost (heap (shared σ'))) (pc' :: rest ++ forks)) as Hsum'
        by by rewrite Hp'.
    unfold TInv, build_measure.
    destruct Hm as [[q Hm]|Hm]; rewrite Hm in *; destruct (mainpc σ') eqn:Hmm;
      simpl in Hst; try done; (split_and!; [done..|lia|by left]).
  - destruct (building_of_pool σ pc rest Hinv Hin Hp) as (head & Hb & Hm).
    destruct (building_return_decr _ _ _ _ _ Hb Hex Hstep) as (Hex' & Hh' & Hlt).
    assert (sum_list_with (pc_cost (heap (shared σ))) (pool σ)
            = sum_list_with (pc_cost (heap (shared σ))) (pc :: rest)) as Hsum
        by by rewrite Hp.
    assert (sum_list_with (pc_cost (heap (shared σ'))) (pool σ')
            = sum_list_with (pc_cost (heap (shared σ'))) rest) as Hsum'
        by by rewrite Hp'.
    unfold TInv, build_measure. rewrite Hh' in *.
    destruct Hm as [[q Hm]|Hm]; rewrite Hm in *; simpl in Hst; destruct_or?;
      rewrite Hst; cbv beta iota; (split_and!; [done..|lia|by left]).
Qed.

(** Some goroutine can always move while the tree is being built: the
    mutex of a node is only ever taken by the call that runs on it. *)
Lemma thread_ok_moves h pc s :
  thread_ok h pc -> heap s = h -> step_pc W cfg pc s <> Blocked.
Proof.
  unfold thread_ok, expanding. intros Hpc <-.
  destruct pc; simpl; try done; open_hyps; repeat case_match; simplify_eq; try done.
  congruence.
Qed.

Lemma build_progress σ :
  BInv σ -> TInv σ -> in_build (mainpc σ) = true ->
  exists tid σ', tid <= length (gos σ) /\ step_at W cfg tid σ = Some σ'.
Proof.
  intros Hinv (Hex & Hflags & Hroot & Hw) Hin. unfold step_at. rewrite Hex.
  unfold BInv in Hinv. destruct (mainpc σ) eqn:Hm; try done.
  - exists 0. unfold step_main. rewrite Hm. case_match; eauto with lia.
  - exists 0. unfold step_main. rewrite Hm. repeat case_match; eauto with lia.
  - exists 0. unfold step_main. rewrite Hm. eauto with lia.
  - exists 0. unfold step_main. rewrite Hm.
    unfold pool in Hinv. rewrite Hm in Hinv.
    destruct Hinv as [_ _ [Hpc _]%Forall_cons _ _ _ _ _].
    pose proof (thread_ok_moves _ _ (shared σ) Hpc eq_refl).
    destruct (step_pc W cfg pc (shared σ)); [done|eauto with lia..].
  - unfold pool in Hinv. rewrite Hm in Hinv.
    destruct (decide (wgInit (shared σ) = 0%Z)) as [Hz|Hnz].
    + exists 0. unfold step_main. rewrite Hm. rewrite decide_True by done. eauto with lia.
    + destruct (gos σ) as [|pc rest] eqn:Hg.
      { destruct Hinv as [_ _ _ _ Hcnt _ _ _]. simpl in Hcnt. done. }
      exists 1. unfold step_go. rewrite Hg. simpl.
      destruct Hinv as [_ _ [Hpc _]%Forall_cons _ _ _ _ _].
      pose proof (thread_ok_moves _ _ (shared σ) Hpc eq_refl).
      destruct (step_pc W cfg pc (shared σ)); [done|eauto with lia..].
Qed.

(** Whatever the schedule, [InitTree] returns within [build_measure]
    steps. *)
Lemma build_terminates sched σ :
  BInv σ -> TInv σ ->
  in_build (mainpc σ) = true \/ (exists head, mainpc σ = MEnrichAdd head) ->
  build_measure σ <= length sched ->
  (exists head, mainpc (run_until W cfg built sched σ) = MEnrichAdd head) /\
  BInv (run_until W cfg built sched σ) /\ TInv (run_until W cfg built sched σ).
Proof.
  revert σ. induction sched as [|k sched IH]; intros σ Hinv Ht Hin Hm.
  - simpl. destruct Hin as [Hin|Hdone]; [|done].
    unfold build_measure in Hm. simpl in Hm. destruct (mainpc σ); try done; lia.
  - destruct Hin as [Hin|[head Hd]].
    2:{ rewrite run_until_stop by (unfold built; by rewrite Hd). eauto. }
    destruct (build_progress σ Hinv Ht Hin) as (tid & σ1 & Hle & Hs).
    apply enabled_nonempty in Hs; [|done].
    destruct (run_until_step W cfg built k sched σ) as (σ' & Hstep & ->);
      [unfold built; by rewrite Hin|done|].
    destruct (TInv_step σ σ' Hinv Ht Hin Hstep) as (Ht' & Hlt & Hin').
    apply IH; [by eapply BInv_step|done|done|simpl in Hm; lia].
Qed.

End Measure.

(** The whole of [InitTree], from the start of the process. *)
Lemma build_result D sched :
  flags_present -> hierarchy_within D (rootID cfg) = true ->
  cost D (rootID cfg) <= length sched ->
  let σ := run_until W cfg built sched initial in
  exists head,
    mainpc σ = MEnrichAdd head /\ gos σ = [] /\ exited (shared σ) = None /\
    head_tree (shared σ) head = directory_tree D (rootID cfg) /\
    (forall l, l < length (heap (shared σ)) -> (Build, l) ∈ dones (shared σ)).
Proof.
  intros Hflags Hroot Hlen. cbv zeta.
  destruct (within_resolves D _ Hroot) as [o Ho].
  assert (TInv D initial) as Ht by (split_and!; done).
  destruct (build_terminates D sched initial BInv_initial Ht) as ((head & Hm) & Hinv & Ht').
  { by left. }
  { unfold build_measure, root_cost. simpl. rewrite Ho.
    rewrite (cost_unfold D _ _ Hroot Ho) in Hlen. lia. }
  exists head. unfold BInv in Hinv. rewrite Hm in Hinv.
  destruct Hinv as [[Hr Hheap _ _ _ Hdone Hcov _] Hgos].
  destruct Ht' as (Hex & _).
  assert (forall l, l < length (heap (shared (run_until W cfg built sched initial))) ->
                    (Build, l) ∈ dones (shared (run_until W cfg built sched initial))) as Hall.
  { intros l Hl. destruct (Hcov l Hl) as [Hin|Hd]; [|done]. by apply elem_of_nil in Hin. }
  split_and!; try done. unfold head_tree.
  set (h := heap (shared (run_until W cfg built sched initial))) in *.
  destruct Hr as (nd & Hnd & Hres).
  rewrite (tree_of_fuel h (length h) (length h `max` D) head)
    by first [by apply heap_ok_linked | by eapply lookup_lt_Some | lia].
  apply tree_of_complete; [|lia|done|by exists nd].
  intros l Hl. by apply Hdone, Hall.
Qed.

End Build.

(** ** The flattener: what the map holds *)

Section Flatten.
Implicit Types (t : Tree) (m : gmap string Organization) (o : Organization).

Lemma Tree_ind' (P : Tree -> Prop) :
  (forall o cs, Forall P cs -> P (TNode o cs)) -> forall t, P t.
Proof.
  intros H. fix IH 1. intros [o cs]. apply H.
  induction cs as [|c cs IHcs]; constructor; [apply IH|apply IHcs].
Qed.

Lemma tree_size_orgs t : tree_size t = length (tree_orgs t).
Proof.
  induction t as [o cs IH] using Tree_ind'. simpl. f_equal.
  induction IH as [|c cs Hc _ IHcs]; [done|]. simpl. rewrite length_app. by rewrite Hc, IHcs.
Qed.

(** The organizations entered one after the other, each under its name. *)
Definition index_all (orgs : list Organization) m : gmap string Organization :=
  fold_left (fun m o => <[Organization.Name o := o]> m) orgs m.

Lemma index_all_app orgs1 orgs2 m :
  index_all (orgs1 ++ orgs2) m = index_all orgs2 (index_all orgs1 m).
Proof. apply fold_left_app. Qed.

Lemma flattenTree_index_all t m : flattenTree t m = index_all (tree_orgs t) m.
Proof.
  revert m. induction t as [o cs IH] using Tree_ind'. intros m. simpl.
  generalize (<[Organization.Name o:=o]> m). clear m.
  induction IH as [|c cs Hc _ IHcs]; intros m; [done|].
  simpl. rewrite index_all_app, IHcs, Hc. done.
Qed.

(** The entry under a name is the last organization of that name. *)
Lemma index_all_lookup orgs m k :
  index_all orgs m !! k =
  match last (filter (fun o => Organization.Name o = k) orgs) with
  | Some o => Some o
  | None => m !! k
  end.
Proof.
  induction orgs as [|o orgs IH] using rev_ind; [done|].
  rewrite index_all_app, filter_app. simpl.
  destruct (decide (Organization.Name o = k)) as [<-|Hne].
  - rewrite lookup_insert_eq, filter_cons_True, filter_nil, last_snoc by done. done.
  - rewrite lookup_insert_ne, filter_cons_False, filter_nil, app_nil_r by done. done.
Qed.

Lemma filter_name_nil orgs k :
  filter (fun o => Organization.Name o = k) orgs = [] <->
  k ∉ map Organization.Name orgs.
Proof.
  induction orgs as [|o orgs IH]; simpl.
  - split; [intros _ H; by apply elem_of_nil in H|done].
  - rewrite not_elem_of_cons, <- IH. destruct (decide (Organization.Name o = k)) as [Heq|Hne].
    + rewrite filter_cons_True by done. split; [done|]. intros [H _]. by destruct H.
    + rewrite filter_cons_False by done. split; [by split|by intros [_ ?]].
Qed.

Lemma index_all_lookup_None orgs k :
  index_all orgs ∅ !! k = None <-> k ∉ map Organization.Name orgs.
Proof.
  rewrite index_all_lookup, lookup_empty, <- filter_name_nil.
  destruct (last _) as [o|] eqn:Hl.
  - split; [done|]. intros Hnil. by rewrite Hnil in Hl.
  - by apply last_None in Hl.
Qed.

Lemma index_all_size orgs :
  size (index_all orgs ∅) <= length orgs /\
  (NoDup (map Organization.Name orgs) <-> size (index_all orgs ∅) = length orgs).
Proof.
  induction orgs as [|o orgs [IHle IHeq]] using rev_ind.
  - simpl. rewrite map_size_empty. split; [done|]. split; [done|constructor].
  - rewrite index_all_app, length_app, map_app. simpl.
    assert (NoDup (map Organization.Name orgs ++ [Organization.Name o]) <->
            NoDup (map Organization.Name orgs) /\
            Organization.Name o ∉ map Organization.Name orgs) as ->.
    { rewrite NoDup_app. split.
      - intros (Hn & Hd & _). split; [done|]. intros Hin. apply (Hd _ Hin). by left.
      - intros [Hn Hni]. split_and!; [done| |apply NoDup_singleton].
        intros x Hx ->%list_elem_of_singleton. done. }
    destruct (index_all orgs ∅ !! Organization.Name o) as [o'|] eqn:Hl.
    + rewrite map_size_insert_Some by done.
      assert (~ (Organization.Name o ∉ map Organization.Name orgs)) as Hin.
      { rewrite <- index_all_lookup_None, Hl. done. }
      split; [lia|]. split; [tauto|lia].
    + rewrite map_size_insert_None by done.
      apply index_all_lookup_None in Hl. split; [lia|]. rewrite IHeq. split; [lia|].
      intros ?. split; [lia|done].
Qed.

Lemma filter_name_NoDup orgs o :
  NoDup (map Organization.Name orgs) -> o ∈ orgs ->
  filter (fun o' => Organization.Name o' = Organization.Name o) orgs = [o].
Proof.
  induction orgs as [|o' orgs IH]; simpl; intros Hn Hin; [by apply elem_of_nil in Hin|].
  apply NoDup_cons in Hn as [Hni Hn]. apply elem_of_cons in Hin as [<-|Hin].
  - rewrite filter_cons_True by done. f_equal. by apply filter_name_nil.
  - rewrite filter_cons_False; [auto|]. intros Heq. apply Hni. rewrite Heq.
    apply list_elem_of_fmap. eauto.
Qed.

Lemma index_all_lookup_NoDup orgs k o :
  NoDup (map Organization.Name orgs) ->
  index_all orgs ∅ !! k = Some o <-> o ∈ orgs /\ Organization.Name o = k.
Proof.
  intros Hn. rewrite index_all_lookup, lookup_empty. split.
  - destruct (last _) as [o'|] eqn:Hl; [|done]. intros [= ->].
    apply last_Some_elem_of, list_elem_of_filter in Hl. tauto.
  - intros [Hin <-]. by rewrite filter_name_NoDup.
Qed.

Lemma index_all_perm orgs orgs' :
  NoDup (map Organization.Name orgs) -> orgs ≡ₚ orgs' ->
  index_all orgs ∅ = index_all orgs' ∅.
Proof.
  intros Hn Hp. assert (NoDup (map Organization.Name orgs')) as Hn' by by rewrite <- Hp.
  apply map_eq. intros k. apply option_eq. intros o.
  rewrite !index_all_lookup_NoDup by done. by rewrite Hp.
Qed.

(** The same tree with the children of some nodes in another order. *)
Inductive tree_perm : Tree -> Tree -> Prop :=
| tree_perm_node o cs cs1 cs2 :
    Forall2 tree_perm cs cs1 -> cs1 ≡ₚ cs2 -> tree_perm (TNode o cs) (TNode o cs2).

Lemma tree_perm_orgs t t' : tree_perm t t' -> tree_orgs t ≡ₚ tree_orgs t'.
Proof.
  revert t'. induction t as [o cs IH] using Tree_ind'. intros t' Hp.
  inversion Hp as [o' cs' cs1 cs2 Hf Hperm]; subst. simpl. constructor.
  rewrite <- Hperm. clear Hp Hperm.
  induction Hf as [|c c1 cs cs1 Hc _ IHf]; [done|].
  apply Forall_cons in IH as [IHc IHcs]. simpl. by rewrite (IHc _ Hc), IHf.
Qed.

End Flatten.

(** ** Phases: which calls run when, and what has been written *)

Definition is_enrich (pc : PC) : Prop :=
  match pc with
  | EEnv _ _ | EStore _ _ _ | EChild _ _ | EGo _ _ _ | Panicking Enrich _ | Crashing => True
  | _ => False
  end.

Section Phases.
Context (W : Collaborators) (cfg : Config).

(** The inventory answered with a status other than 200. *)
Definition bad_status (environment : string) : Prop :=
  exists code body,
    RemoteInventory W (username cfg) (password cfg) environment = Response code body /\
    code <> StatusOK.

Lemma getDeployedArtifacts_quiet e s r s' :
  getDeployedArtifacts W cfg e s = (r, s') -> quiet s s'.
Proof.
  unfold getDeployedArtifacts, quiet. intros H.
  repeat case_match; simplify_eq/=; done.
Qed.

Lemma getDeployedArtifacts_calls e s r s' :
  getDeployedArtifacts W cfg e s = (r, s') ->
  calls s' = calls s ++ [InventoryCall e] /\
  (bad_status e -> exited s' = Some 1%Z) /\
  (r = None -> exited s' = Some 1%Z) /\ (r <> None -> exited s' = exited s).
Proof.
  unfold getDeployedArtifacts, bad_status. intros H.
  repeat case_match; simplify_eq/=; split_and!; try done;
    intros (code & body & ? & ?); simplify_eq.
Qed.

Lemma getOrganizationMetrics_calls v s r s' :
  getOrganizationMetrics W cfg v s = (r, s') -> calls s' = calls s ++ [DirectoryCall v].
Proof.
  unfold getOrganizationMetrics. intros H. repeat case_match; simplify_eq/=; done.
Qed.

(** The calls of [generateApplications] that run are accounted for on the
    WaitGroup of [main], and no file has been written. *)
Definition enriching (threads : list PC) (s : Shared) : Prop :=
  Forall is_enrich threads /\
  wgMain s = Z.of_nat (sum_list_with (units Enrich) threads) /\
  files s = [].

Global Instance enriching_perm : Proper ((≡ₚ) ==> (=) ==> iff) enriching.
Proof.
  intros t1 t2 Hp s ? <-. unfold enriching. by rewrite Hp.
Qed.

Lemma is_enrich_units pc : is_enrich pc -> pc = Crashing \/ 1 <= units Enrich pc.
Proof. destruct pc as [| | | | | | | | | | |[]|]; simpl; try done; auto with lia. Qed.

Lemma enriching_next pc rest pc' forks s s' :
  enriching (pc :: rest) s ->
  step_pc W cfg pc s = Next pc' forks s' ->
  enriching (pc' :: rest ++ forks) s'.
Proof.
  unfold enriching. intros ([Hpc Hrest]%Forall_cons & Hcnt & Hf) Hstep.
  destruct pc; simpl in Hpc; try done; simpl in Hstep; cbn [sum_list_with units] in *.
  - (* EEnv *)
    repeat case_match; simplify_eq; rewrite ?app_nil_r;
      try (split_and!; [by constructor|done..]).
    all: match goal with H : getDeployedArtifacts _ _ _ _ = _ |- _ =>
           apply getDeployedArtifacts_quiet in H as (_ & _ & -> & -> & _) end.
    all: split_and!; [by constructor|done..].
  - simplify_eq. rewrite app_nil_r. split_and!; [by constructor|done..].
  - destruct cs as [|c cs]; simplify_eq. rewrite app_nil_r. sh.
    split_and!; [by constructor|lia|done].
  - simplify_eq. split_and!; [|rewrite sum_list_with_app; cbn [sum_list_with units]; lia|done].
    constructor; [done|]. apply Forall_app. split; [done|]. by apply Forall_singleton.
  - destruct ph; [done|]. simplify_eq. rewrite app_nil_r. unfold wg_Done. sh.
    destruct (decide _) as [Hneg|_]; [lia|]. sh.
    split_and!; [by constructor|lia|done].
  - simplify_eq. rewrite app_nil_r. sh. split_and!; [by constructor|done..].
Qed.

Lemma enriching_return pc rest s s' :
  enriching (pc :: rest) s ->
  step_pc W cfg pc s = Return s' ->
  enriching rest s'.
Proof.
  unfold enriching. intros ([Hpc Hrest]%Forall_cons & Hcnt & Hf) Hstep.
  destruct pc; simpl in Hpc; try done; simpl in Hstep; try (by repeat case_match).
  cbn [sum_list_with units] in *.
  destruct cs as [|c cs]; simplify_eq. unfold wg_Done. sh.
  destruct (decide _) as [Hneg|_]; [lia|]. sh.
  split_and!; [done|lia|done].
Qed.

(** A status other than 200 from the inventory is the end of the
    process, with exit code 1 and before any file is written. *)
Definition bad_calls_fatal (s : Shared) : Prop :=
  forall e, InventoryCall e ∈ calls s -> bad_status e ->
            exited s = Some 1%Z /\ files s = [].

Definition PInv (σ : State) : Prop :=
  bad_calls_fatal (shared σ) /\
  match mainpc σ with
  | MStart | MInitTree | MBuildAdd _ | MBuild _ _ | MBuildWait _ => BInv W cfg σ
  | MEnrichAdd _ => gos σ = [] /\ wgMain (shared σ) = 0%Z /\ files (shared σ) = []
  | MEnrich _ _ | MEnrichWait _ => enriching (pool σ) (shared σ)
  | _ => Forall (fun pc => pc = Crashing) (gos σ)
  end.

Lemma BInv_files σ :
  BInv W cfg σ -> in_build (mainpc σ) = true -> files (shared σ) = [].
Proof.
  unfold BInv, nothing_yet. destruct (mainpc σ); try done; intros H _.
  - by destruct H as ((_ & _ & _ & ? & _) & _).
  - by destruct H as ((_ & _ & _ & ? & _) & _).
  - by destruct H as ((_ & _ & _ & ? & _) & _).
  - by destruct H as [_ _ _ _ _ _ _ [_ ?]].
  - by destruct H as [_ _ _ _ _ _ _ [_ ?]].
Qed.

Lemma step_pc_next_world pc s pc' forks s' :
  step_pc W cfg pc s = Next pc' forks s' ->
  files s' = files s /\
  (forall e, InventoryCall e ∈ calls s' ->
     InventoryCall e ∈ calls s \/
     (pc <> Crashing /\ (bad_status e -> exited s' = Some 1%Z))).
Proof.
  intros Hstep. destruct pc; simpl in Hstep; repeat case_match; simplify_eq; sh;
    try (split; [done|]; intros e He; by left).
  - match goal with H : getOrganizationMetrics _ _ _ _ = _ |- _ =>
      apply getOrganizationMetrics_quiet in H as Hq;
      apply getOrganizationMetrics_calls in H as Hc; destruct Hq as (_ & _ & _ & Hf & _) end.
    split; [done|]. intros e. rewrite Hc. intros [He|He%list_elem_of_singleton]%elem_of_app;
      [by left|done].
  - match goal with H : getOrganizationMetrics _ _ _ _ = _ |- _ =>
      apply getOrganizationMetrics_quiet in H as Hq;
      apply getOrganizationMetrics_calls in H as Hc; destruct Hq as (_ & _ & _ & Hf & _) end.
    split; [done|]. intros e. rewrite Hc. intros [He|He%list_elem_of_singleton]%elem_of_app;
      [by left|done].
  - match goal with H : getDeployedArtifacts _ _ _ _ = _ |- _ =>
      apply getDeployedArtifacts_quiet in H as Hq;
      apply getDeployedArtifacts_calls in H as (Hc & Hb & _);
      destruct Hq as (_ & _ & _ & Hf & _) end.
    split; [done|]. intros e. rewrite Hc. intros [He|He%list_elem_of_singleton]%elem_of_app;
      [by left|]. simplify_eq. right. done.
  - match goal with H : getDeployedArtifacts _ _ _ _ = _ |- _ =>
      apply getDeployedArtifacts_quiet in H as Hq;
      apply getDeployedArtifacts_calls in H as (Hc & Hb & _);
      destruct Hq as (_ & _ & _ & Hf & _) end.
    split; [done|]. intros e. rewrite Hc. intros [He|He%list_elem_of_singleton]%elem_of_app;
      [by left|]. simplify_eq. right. done.
  - unfold wg_Done. destruct ph; case_match; sh; (split; [done|]); intros e He; by left.
Qed.

Lemma step_pc_return_world pc s s' :
  step_pc W cfg pc s = Return s' -> files s' = files s /\ calls s' = calls s.
Proof.
  intros Hstep. destruct pc; simpl in Hstep; repeat case_match; simplify_eq;
    unfold wg_Done; case_match; sh; done.
Qed.

Lemma bad_calls_fatal_keep s s' :
  bad_calls_fatal s -> exited s = None ->
  (forall e, InventoryCall e ∈ calls s' -> InventoryCall e ∈ calls s) ->
  bad_calls_fatal s'.
Proof.
  intros Hb Hex Hc e He Hbad. destruct (Hb e (Hc e He) Hbad) as [Hx _]. congruence.
Qed.

Lemma bad_calls_fatal_next pc s pc' forks s' :
  bad_calls_fatal s -> exited s = None -> pc = Crashing \/ files s = [] ->
  step_pc W cfg pc s = Next pc' forks s' ->
  bad_calls_fatal s'.
Proof.
  intros Hb Hex Hf Hstep. apply step_pc_next_world in Hstep as [Hfiles Hcalls].
  intros e He Hbad. destruct (Hcalls e He) as [Hold|[Hne Hexit]].
  - destruct (Hb e Hold Hbad) as [Hx _]. congruence.
  - split; [auto|]. rewrite Hfiles. by destruct Hf.
Qed.

Lemma calls_prints (values : list Organization) s :
  calls (fold_left (fun s value => print (PrintOrganization value) s) values s) = calls s.
Proof. revert s. induction values as [|v values IH]; intros s; simpl; [done|]. by rewrite IH. Qed.

Lemma calls_write_and_report data filename s :
  calls (write_and_report W data filename s) = calls s.
Proof.
  unfold write_and_report, writeMetricsFile. repeat case_match; simplify_eq; done.
Qed.

Lemma step_main_calls σ σ' e :
  in_call (mainpc σ) = false -> step_main W cfg σ = Some σ' ->
  InventoryCall e ∈ calls (shared σ') -> InventoryCall e ∈ calls (shared σ).
Proof.
  unfold step_main. intros Hc Hstep.
  destruct (mainpc σ); try done; repeat case_match; simplify_eq;
    cbn [shared with_main]; sh;
    rewrite ?calls_write_and_report, ?calls_prints; try done.
  all: match goal with H : getOrganizationMetrics _ _ _ _ = _ |- _ =>
         apply getOrganizationMetrics_calls in H as -> end.
  all: by intros [He|He%list_elem_of_singleton]%elem_of_app.
Qed.

Lemma enriching_idle threads s :
  enriching threads s -> wgMain s = 0%Z -> Forall (fun pc => pc = Crashing) threads.
Proof.
  intros (Hall & Hcnt & _) Hz. rewrite Hz in Hcnt.
  induction Hall as [|pc rest Hpc _ IH]; [done|]. cbn [sum_list_with] in Hcnt.
  destruct (is_enrich_units _ Hpc) as [->|Hu]; [|lia].
  constructor; [done|]. apply IH. simpl in Hcnt. lia.
Qed.

Lemma files_prints (values : list Organization) s :
  exited (fold_left (fun s value => print (PrintOrganization value) s) values s) = exited s.
Proof. revert s. induction values as [|v values IH]; intros s; simpl; [done|]. by rewrite IH. Qed.

Lemma PInv_step σ σ' :
  PInv σ -> exited (shared σ) = None -> pstep W cfg σ σ' -> PInv σ'.
Proof.
  intros [Hbad Hphase] Hex Hstep. split.
  - (* a bad call is fatal *)
    destruct Hstep as [Hcall Hstep Hgos|pc rest pc' forks Hp Hstep Hp' Hst|pc rest Hp Hstep Hp' Hst].
    + apply (bad_calls_fatal_keep (shared σ)); [done|done|]. intros e. by apply step_main_calls.
    + apply (bad_calls_fatal_next pc (shared σ) pc' forks); [done|done| |done].
      assert (pc ∈ pool σ) as Hin by (rewrite Hp; by left).
      destruct (mainpc σ) eqn:Hm; unfold pool in Hin; rewrite Hm in Hin;
        try (right; apply BInv_files; [done|by rewrite Hm]);
        try (right; by destruct Hphase as (_ & _ & ?));
        try (left; rewrite Forall_forall in Hphase; by apply Hphase).
    + apply step_pc_return_world in Hstep as [_ Hc].
      apply (bad_calls_fatal_keep (shared σ)); [done|done|]. intros e. by rewrite Hc.
  - (* the phases *)
    destruct (in_build (mainpc σ)) eqn:Hin.
    { assert (BInv W cfg σ) as Hb by by destruct (mainpc σ).
      pose proof (BInv_step W cfg _ _ Hb Hstep) as Hb'.
      destruct Hstep as [Hcall Hstep Hgos|pc rest pc' forks Hp Hstep Hp' Hst|pc rest Hp Hstep Hp' Hst].
      - unfold step_main in Hstep.
        destruct (mainpc σ) eqn:Hm; try done; repeat case_match; simplify_eq;
          cbn [mainpc with_main]; try done.
        unfold BInv in Hb'. cbn [mainpc with_main shared gos] in Hb'.
        by destruct Hb' as [[_ _ _ _ _ _ _ [? ?]] ?].
      - destruct (mainpc σ) eqn:Hm; try done; destruct (mainpc σ') eqn:Hm'; try done.
      - destruct (mainpc σ) eqn:Hm; try done; simpl in Hst; destruct_or?; by rewrite Hst. }
    destruct Hstep as [Hcall Hstep Hgos|pc rest pc' forks Hp Hstep Hp' Hst|pc rest Hp Hstep Hp' Hst].
    + unfold step_main in Hstep.
      destruct (mainpc σ) eqn:Hm; try done; repeat case_match; simplify_eq;
        cbn [mainpc with_main shared gos pool]; try done.
      * destruct Hphase as (-> & Hz & Hf). unfold enriching. sh. rewrite Hz, Hf.
        split_and!; [by repeat constructor|done..].
      * unfold pool in Hphase. rewrite Hm in Hphase. by eapply enriching_idle.
    + destruct (mainpc σ) eqn:Hm; try done; destruct (mainpc σ') eqn:Hm'; try done;
        simpl in Hst; simplify_eq;
        try (destruct Hphase as (Hnil & _); unfold pool in Hp; rewrite Hm, Hnil in Hp;
             by apply Permutation_nil_cons in Hp);
        try (rewrite Hp'; eapply enriching_next; [|done]; by rewrite <- Hp).
      all: unfold pool in Hp, Hp'; rewrite ?Hm in Hp; rewrite ?Hm' in Hp'.
      all: rewrite Hp in Hphase; apply Forall_cons in Hphase as [-> Hrest].
      all: simpl in Hstep; simplify_eq; rewrite Hp', app_nil_r; by constructor.
    + destruct (mainpc σ) eqn:Hm; try done; simpl in Hst; destruct_or?; rewrite ?Hst;
        try (destruct Hphase as (Hnil & _); unfold pool in Hp; rewrite Hm, Hnil in Hp;
             by apply Permutation_nil_cons in Hp);
        try (rewrite ?Hm; rewrite Hp'; eapply enriching_return; [|done]; by rewrite <- Hp).
      all: unfold pool in Hp; rewrite ?Hm in Hp.
      all: rewrite Hp in Hphase; apply Forall_cons in Hphase as [-> Hrest]; done.
Qed.

Lemma PInv_initial : PInv initial.
Proof.
  split; [|apply BInv_initial]. intros e He. by apply elem_of_nil in He.
Qed.

Lemma PInv_run stop sched : PInv (run_until W cfg stop sched initial).
Proof.
  apply run_until_invariant; [|apply PInv_initial].
  intros σ1 σ2 H1 Hex H2. by eapply PInv_step.
Qed.

End Phases.

(** ** The enricher *)

(** The steps one call of [generateApplications] and the calls it starts
    take on a tree: two for every environment, one to leave the first loop,
    two for every child, and the deferred [g.Done()]. *)
Fixpoint tree_cost (t : Tree) : nat :=
  let 'TNode o cs := t in
  2 * length (Organization.Environments o) + 2 + list_sum (map (fun c => 2 + tree_cost c) cs).

(** The links of a store, checked. *)
Fixpoint linked_from (l len : nat) (h : list Node) : bool :=
  match h with
  | [] => true
  | nd :: h' =>
      forallb (fun c => (l <? c) && (c <? len)) (Children nd) && linked_from (S l) len h'
  end.

Definition linkedb (h : list Node) : bool := linked_from 0 (length h) h.

Lemma linked_from_spec l0 len h l nd :
  linked_from l0 len h = true -> h !! l = Some nd ->
  Forall (fun c => l0 + l < c < len) (Children nd).
Proof.
  revert l0 l. induction h as [|nd' h IH]; intros l0 l Hb Hl; [done|].
  simpl in Hb. apply andb_prop in Hb as [Hnd Hrest]. destruct l as [|l]; simplify_eq/=.
  - rewrite forallb_forall in Hnd. apply Forall_forall. intros c Hc%list_elem_of_In.
    specialize (Hnd c Hc). apply andb_prop in Hnd as [H1%Nat.ltb_lt H2%Nat.ltb_lt]. lia.
  - eapply Forall_impl; [by apply (IH (S l0) l)|]. simpl. lia.
Qed.

Lemma linkedb_linked h : linkedb h = true -> linked h.
Proof. intros Hb l nd Hl. by apply (linked_from_spec 0 (length h) h l nd). Qed.

(** The main goroutine has left the enrichment pass. *)
Definition enriched (σ : State) : bool :=
  match mainpc σ with
  | MEnrichAdd _ | MEnrich _ _ | MEnrichWait _ => false
  | _ => true
  end.

(** The process at the point where [main] starts the enrichment pass on the
    tree below [head]. *)
Definition enrich_entry (s : Shared) (head : loc) : State :=
  {| shared := s; mainpc := MEnrichAdd head; gos := [] |}.

Definition node_of (pc : PC) : option loc :=
  match pc with
  | EEnv p _ | EStore p _ _ | EChild p _ | EGo p _ _ => Some p
  | _ => None
  end.

Section Enrich.
Context (W : Collaborators) (cfg : Config).

(** What the inventory reports for an environment, read off the inventory
    and [json.Unmarshal] alone, with none of the program's functions: the
    applications the decoder writes into an empty slice for the body of the
    answer, when the request goes through with status 200 and the body can
    be read. *)
Definition inventory (environment : string) : option (list (option Application)) :=
  match RemoteInventory W (username cfg) (password cfg) environment with
  | Response code (inl b) =>
      if decide (code = StatusOK) then Some (UnmarshalApplications W b []).1 else None
  | _ => None
  end.

Lemma getDeployedArtifacts_inventory e s apps :
  inventory e = Some apps ->
  exists b s', getDeployedArtifacts W cfg e s = (Some b, s') /\
               decode_applications W b = apps /\ exited s' = exited s.
Proof.
  unfold inventory, getDeployedArtifacts. intros H.
  repeat case_match; simplify_eq/=; eauto.
Qed.

(** The tree to expect after the enricher, stated on trees and from
    [inventory] alone: every environment keeps its identifier and its name and
    has the applications the inventory reports for its identifier.  This is
    what the pass leaves only when every environment is there and the
    inventory answers for it ([enrichable] below): for a nil environment the
    program panics and for an inventory that does not answer it exits, where
    this function leaves the environment as it is. *)
Definition enrich_env (e : option Environment) : option Environment :=
  match e with
  | Some environment =>
      match inventory (Environment.ID environment) with
      | Some applications =>
          Some (Environment.mk (Environment.ID environment) (Environment.Name environment)
                  applications)
      | None => Some environment
      end
  | None => None
  end.

Definition enrich_org (o : Organization) : Organization :=
  Organization.mk (Organization.Name o) (Organization.ID o)
    (Organization.SubOrganizationIds o) (map enrich_env (Organization.Environments o)).

Fixpoint enrich_tree (t : Tree) : Tree :=
  let 'TNode o cs := t in TNode (enrich_org o) (map enrich_tree cs).

Lemma enrich_env_idem e : enrich_env (enrich_env e) = enrich_env e.
Proof.
  destruct e as [[id name apps]|]; [|done]. simpl.
  destruct (inventory id) as [apps'|] eqn:Hi; simpl; by rewrite Hi.
Qed.

Lemma enrich_org_idem o : enrich_org (enrich_org o) = enrich_org o.
Proof.
  unfold enrich_org. simpl. f_equal. rewrite map_map. apply map_ext. apply enrich_env_idem.
Qed.

Lemma enrich_tree_idem t : enrich_tree (enrich_tree t) = enrich_tree t.
Proof.
  induction t as [o cs IH] using Tree_ind'. simpl. rewrite enrich_org_idem. f_equal.
  rewrite map_map. apply map_ext_in. intros c Hc%list_elem_of_In.
  rewrite Forall_forall in IH. auto.
Qed.

(** Every environment of the store is there and its inventory answers. *)
Definition env_ok (e : option Environment) : bool :=
  match e with
  | Some environment =>
      match inventory (Environment.ID environment) with Some _ => true | None => false end
  | None => false
  end.

Definition enrichable (h : list Node) : bool :=
  forallb (fun nd => forallb env_ok (Organization.Environments (BusinessOrganization nd))) h.

Lemma enrichable_lookup h p nd i e :
  enrichable h = true -> h !! p = Some nd ->
  Organization.Environments (BusinessOrganization nd) !! i = Some e ->
  exists environment applications,
    e = Some environment /\ inventory (Environment.ID environment) = Some applications.
Proof.
  unfold enrichable. rewrite forallb_forall. intros Hall Hp Hi.
  specialize (Hall nd). rewrite forallb_forall in Hall.
  assert (env_ok e = true) as Hok.
  { apply Hall.
    - apply list_elem_of_In. by eapply list_elem_of_lookup_2.
    - apply list_elem_of_In. by eapply list_elem_of_lookup_2. }
  destruct e as [environment|]; [|done]. simpl in Hok.
  destruct (inventory _) as [apps|] eqn:Ha; [|done]. eauto.
Qed.

Section Pass.
Context (h0 : list Node) (Hlinked : linked h0) (Hable : enrichable h0 = true).

(** A node of the store against the node it was when the pass started:
    nothing has changed but the applications of some environments. *)
Definition node_like (nd nd0 : Node) : Prop :=
  mux nd = mux nd0 /\ Children nd = Children nd0 /\
  Organization.Name (BusinessOrganization nd) = Organization.Name (BusinessOrganization nd0) /\
  Organization.ID (BusinessOrganization nd) = Organization.ID (BusinessOrganization nd0) /\
  Organization.SubOrganizationIds (BusinessOrganization nd)
  = Organization.SubOrganizationIds (BusinessOrganization nd0) /\
  Forall2 (fun e e0 => e = e0 \/ e = enrich_env e0)
          (Organization.Environments (BusinessOrganization nd))
          (Organization.Environments (BusinessOrganization nd0)).

Definition heap_like (h : list Node) : Prop := Forall2 node_like h h0.

(** Environment [j] of node [p] has its applications. *)
Definition slot_done (h : list Node) (p : loc) (j : nat) : Prop :=
  exists nd nd0 e0,
    h !! p = Some nd /\ h0 !! p = Some nd0 /\
    Organization.Environments (BusinessOrganization nd0) !! j = Some e0 /\
    Organization.Environments (BusinessOrganization nd) !! j = Some (enrich_env e0).

Definition node_done (h : list Node) (p : loc) : Prop :=
  forall nd0, h0 !! p = Some nd0 ->
    forall j, j < length (Organization.Environments (BusinessOrganization nd0)) ->
              slot_done h p j.

(** Node [l] is taken care of: a call runs on it, or its environments are
    done and its children are taken care of. *)
Inductive covered (h : list Node) (threads : list PC) : loc -> Prop :=
| covered_running pc l : pc ∈ threads -> node_of pc = Some l -> covered h threads l
| covered_done l nd0 :
    h0 !! l = Some nd0 -> node_done h l ->
    (forall c, c ∈ Children nd0 -> covered h threads c) ->
    covered h threads l.

Definition ethread_ok (h : list Node) (threads : list PC) (pc : PC) : Prop :=
  match pc with
  | EEnv p i =>
      exists nd0, h0 !! p = Some nd0 /\ forall j, j < i -> slot_done h p j
  | EStore p i applications =>
      exists nd0 environment,
        h0 !! p = Some nd0 /\
        Organization.Environments (BusinessOrganization nd0) !! i = Some (Some environment) /\
        inventory (Environment.ID environment) = Some applications /\
        forall j, j < i -> slot_done h p j
  | EChild p cs =>
      exists nd0 ds,
        h0 !! p = Some nd0 /\ node_done h p /\ Children nd0 = ds ++ cs /\
        Forall (covered h threads) ds
  | EGo p c cs =>
      exists nd0 ds,
        h0 !! p = Some nd0 /\ node_done h p /\ Children nd0 = ds ++ c :: cs /\
        Forall (covered h threads) ds
  | _ => False
  end.

Record passing (head : loc) (threads : list PC) (s : Shared) : Prop := {
  p_like : heap_like (heap s);
  p_threads : Forall (ethread_ok (heap s) threads) threads;
  p_root : covered (heap s) threads head;
  p_counter : enriching threads s;
  p_exit : exited s = None
}.

Definition slots_kept (h h' : list Node) : Prop :=
  forall q j, slot_done h q j -> slot_done h' q j.

Definition nodes_kept (t t' : list PC) : Prop :=
  forall pc l, pc ∈ t -> node_of pc = Some l -> exists pc', pc' ∈ t' /\ node_of pc' = Some l.

Lemma node_done_kept h h' p : slots_kept h h' -> node_done h p -> node_done h' p.
Proof. intros Hk Hd nd0 Hp j Hj. apply Hk. by eapply Hd. Qed.

Lemma covered_kept h h' t t' l :
  slots_kept h h' -> nodes_kept t t' -> covered h t l -> covered h' t' l.
Proof.
  intros Hs Hn. induction 1 as [pc l Hpc Hl|l nd0 Hl Hd _ IH].
  - destruct (Hn pc l Hpc Hl) as (pc' & Hpc' & Hl'). by eapply covered_running.
  - eapply covered_done; [done|by eapply node_done_kept|done].
Qed.

Lemma ethread_ok_kept h h' t t' pc :
  slots_kept h h' -> (forall l, covered h t l -> covered h' t' l) ->
  ethread_ok h t pc -> ethread_ok h' t' pc.
Proof.
  intros Hs Hn. destruct pc; simpl; try done.
  - intros (nd0 & Hp & Hj). exists nd0. split; [done|]. intros j Hlt. apply Hs. auto.
  - intros (nd0 & env & Hp & Hi & Hinv & Hj). exists nd0, env. split_and!; try done.
    intros j Hlt. apply Hs. auto.
  - intros (nd0 & ds & Hp & Hd & Hc & Hcov). exists nd0, ds. split_and!; try done.
    + by eapply node_done_kept.
    + eapply Forall_impl; [done|]. intros x. by apply Hn.
  - intros (nd0 & ds & Hp & Hd & Hc & Hcov). exists nd0, ds. split_and!; try done.
    + by eapply node_done_kept.
    + eapply Forall_impl; [done|]. intros x. by apply Hn.
Qed.

Lemma slots_kept_refl h : slots_kept h h.
Proof. by intros q j. Qed.

Lemma nodes_kept_perm t t' : t ≡ₚ t' -> nodes_kept t t'.
Proof. intros Hp pc l Hpc Hl. exists pc. by rewrite <- Hp. Qed.

Global Instance passing_perm head : Proper ((≡ₚ) ==> (=) ==> iff) (passing head).
Proof.
  assert (forall t1 t2 s, t1 ≡ₚ t2 -> passing head t1 s -> passing head t2 s) as Himp.
  { intros t1 t2 s Hp [H1 H2 H3 H4 H5]. split; try done.
    - apply (Forall_impl (ethread_ok (heap s) t1)); [by rewrite <- Hp|]. intros pc.
      apply ethread_ok_kept; [apply slots_kept_refl|].
      intros l. apply covered_kept; [apply slots_kept_refl|by apply nodes_kept_perm].
    - eapply covered_kept; [apply slots_kept_refl|by apply nodes_kept_perm|done].
    - by rewrite <- Hp. }
  intros t1 t2 Hp s ? <-. split; apply Himp; done.
Qed.

Lemma heap_like_lookup h p nd0 :
  heap_like h -> h0 !! p = Some nd0 -> exists nd, h !! p = Some nd /\ node_like nd nd0.
Proof. intros Hl Hp. by eapply Forall2_lookup_r. Qed.

Lemma store_enriched environment applications e :
  inventory (Environment.ID environment) = Some applications ->
  e = Some environment \/ e = enrich_env (Some environment) ->
  store_applications applications e = enrich_env (Some environment).
Proof. simpl. intros Hi [->| ->]; rewrite ?Hi; simpl; by rewrite ?Hi. Qed.

(** Storing the applications of environment [i] of node [p]. *)
Lemma store_slot h p nd0 i environment applications :
  heap_like h -> h0 !! p = Some nd0 ->
  Organization.Environments (BusinessOrganization nd0) !! i = Some (Some environment) ->
  inventory (Environment.ID environment) = Some applications ->
  heap_like (alter (set_applications i applications) p h) /\
  slot_done (alter (set_applications i applications) p h) p i /\
  slots_kept h (alter (set_applications i applications) p h).
Proof.
  intros Hlike Hp Hi Hinv.
  destruct (heap_like_lookup h p nd0 Hlike Hp) as (nd & Hnd & Hm & Hc & Hn & Hid & Hsub & Henv).
  destruct (Forall2_lookup_r _ _ _ _ _ Henv Hi) as (e & He & Hrel).
  split_and!.
  - apply Forall2_alter_l; [done|]. intros x y Hx Hy (? & ? & ? & ? & ? & Hxy). simplify_eq.
    unfold node_like. simpl. split_and!; try done.
    apply Forall2_alter_l; [done|]. intros e1 e2 He1 He2 Hr. simplify_eq. right.
    by apply store_enriched.
  - exists (set_applications i applications nd), nd0, (Some environment).
    split_and!; try done.
    + rewrite list_lookup_alter_eq. by rewrite Hnd.
    + simpl. rewrite list_lookup_alter_eq, He. simpl. f_equal. by apply store_enriched.
  - intros q j (ndq & ndq0 & e0 & Hq & Hq0 & Hj0 & Hj).
    destruct (decide (q = p)) as [->|Hne].
    + simplify_eq. exists (set_applications i applications nd), nd0, e0.
      split_and!; try done.
      * rewrite list_lookup_alter_eq. by rewrite Hnd.
      * simpl. destruct (decide (j = i)) as [->|Hji].
        -- simplify_eq. rewrite list_lookup_alter_eq, He. simpl. f_equal.
           apply store_enriched; [done|by right].
        -- by rewrite list_lookup_alter_ne.
    + exists ndq, ndq0, e0. split_and!; try done. by rewrite list_lookup_alter_ne.
Qed.

Lemma heap_like_refl : heap_like h0.
Proof.
  apply Forall_Forall2_diag, Forall_forall. intros nd _. unfold node_like.
  split_and!; try done. apply Forall_Forall2_diag, Forall_forall. intros e _. by left.
Qed.

(** A node whose environments are all done carries the enriched
    organization. *)
Lemma node_done_org h l nd nd0 :
  heap_like h -> node_done h l -> h !! l = Some nd -> h0 !! l = Some nd0 ->
  BusinessOrganization nd = enrich_org (BusinessOrganization nd0) /\
  Children nd = Children nd0.
Proof.
  intros Hlike Hd Hl Hl0.
  pose proof (Forall2_lookup_lr _ _ _ _ _ _ Hlike Hl Hl0) as (Hm & Hc & Hn & Hid & Hsub & Henv).
  split; [|done]. destruct (BusinessOrganization nd) as [n i subs envs] eqn:Ho.
  unfold enrich_org. simpl in *. rewrite <- Hn, <- Hid, <- Hsub. f_equal.
  apply list_eq. intros j. rewrite list_lookup_fmap.
  destruct (Organization.Environments (BusinessOrganization nd0) !! j) as [e0|] eqn:Hj.
  - destruct (Hd nd0 Hl0 j) as (nd' & nd0' & e0' & Hl' & Hl0' & Hj0 & Hj');
      [by eapply lookup_lt_Some|]. simplify_eq. rewrite Ho in Hj'. simpl in Hj'. by rewrite Hj'.
  - simpl. apply lookup_ge_None. apply lookup_ge_None in Hj.
    apply Forall2_length in Henv. lia.
Qed.

Lemma covered_tree h l :
  heap_like h -> covered h [] l -> forall f, tree_of f h l = enrich_tree (tree_of f h0 l).
Proof.
  intros Hlike. induction 1 as [pc l Hpc _|l nd0 Hl0 Hd _ IH]; intros f.
  { by apply elem_of_nil in Hpc. }
  destruct f as [|f]; [done|]. simpl.
  destruct (heap_like_lookup h l nd0 Hlike Hl0) as (nd & Hl & _).
  destruct (node_done_org h l nd nd0 Hlike Hd Hl Hl0) as [Ho Hc].
  rewrite Hl, Hl0. simpl. rewrite Ho, Hc. f_equal.
  rewrite map_map. apply map_ext_in. intros c Hin%list_elem_of_In. by apply IH.
Qed.

Lemma heap_like_linked h : heap_like h -> linked h.
Proof.
  intros Hlike l nd Hl.
  destruct (Forall2_lookup_l _ _ _ _ _ Hlike Hl) as (nd0 & Hl0 & _ & Hc & _).
  rewrite Hc, (Forall2_length _ _ _ Hlike). by apply Hlinked.
Qed.

Lemma heap_like_enrichable h : heap_like h -> enrichable h = true.
Proof.
  intros Hlike. unfold enrichable. apply forallb_forall.
  intros nd (l & Hl)%list_elem_of_In%list_elem_of_lookup.
  destruct (Forall2_lookup_l _ _ _ _ _ Hlike Hl) as (nd0 & Hl0 & _ & _ & _ & _ & _ & Henv).
  apply forallb_forall. intros e (j & Hj)%list_elem_of_In%list_elem_of_lookup.
  destruct (Forall2_lookup_l _ _ _ _ _ Henv Hj) as (e0 & Hj0 & Hrel).
  destruct (enrichable_lookup h0 l nd0 j e0 Hable Hl0 Hj0) as (env & apps & -> & Hinv).
  destruct Hrel as [->| ->]; simpl; rewrite ?Hinv; simpl; by rewrite ?Hinv.
Qed.

(** *** The steps still to take *)

Definition node_cost (l : loc) : nat := tree_cost (tree_of (length h0) h0 l).

Definition kids (cs : list loc) : nat := sum_list_with (fun c => 2 + node_cost c) cs.

Definition nenv (p : loc) : nat :=
  match h0 !! p with
  | Some nd0 => length (Organization.Environments (BusinessOrganization nd0))
  | None => 0
  end.

Definition children0 (p : loc) : list loc :=
  match h0 !! p with Some nd0 => Children nd0 | None => [] end.

Definition ecost (pc : PC) : nat :=
  match pc with
  | EEnv p i => 2 * (nenv p - i) + 2 + kids (children0 p)
  | EStore p i _ => 2 * (nenv p - i) + 1 + kids (children0 p)
  | EChild p cs => 1 + kids cs
  | EGo p c cs => 2 + node_cost c + kids cs
  | _ => 0
  end.

Lemma node_cost_unfold l nd0 :
  h0 !! l = Some nd0 ->
  node_cost l
  = 2 * length (Organization.Environments (BusinessOrganization nd0)) + 2 + kids (Children nd0).
Proof.
  intros Hl. unfold node_cost. rewrite (tree_of_unfold h0 l nd0) by done.
  assert (forall cs, list_sum (map (fun c => 2 + tree_cost c) (map (tree_of (length h0) h0) cs))
                     = kids cs) as Hsum.
  { induction cs as [|c cs IH]; [done|]. unfold list_sum in *. cbn [map fold_right].
    rewrite IH. done. }
  rewrite <- Hsum. done.
Qed.

Lemma covered_return h p rest :
  ethread_ok h (EChild p [] :: rest) (EChild p []) ->
  forall l, covered h (EChild p [] :: rest) l -> covered h rest l.
Proof.
  intros (nd0 & ds & Hp & Hd & Hc & Hcov). rewrite app_nil_r in Hc. subst ds.
  assert (forall n l, length h0 - l <= n -> covered h (EChild p [] :: rest) l -> covered h rest l)
    as Hind; [|intros l; by apply (Hind (length h0 - l))].
  induction n as [|n IH]; intros l Hn Hl.
  - destruct Hl as [pc l Hpc Hl|l nd1 Hl1 _ _].
    + apply elem_of_cons in Hpc as [->|Hpc]; [|by eapply covered_running].
      simplify_eq/=. apply lookup_lt_Some in Hp. lia.
    + apply lookup_lt_Some in Hl1. lia.
  - assert (forall nd1, h0 !! l = Some nd1 -> node_done h l ->
              (forall c, c ∈ Children nd1 -> covered h (EChild p [] :: rest) c) ->
              covered h rest l) as Hdone.
    { intros nd1 Hl1 Hd1 Hch. eapply covered_done; [done..|]. intros c Hc.
      apply IH; [|by apply Hch]. pose proof (Hlinked _ _ Hl1) as Hf.
      rewrite Forall_forall in Hf. specialize (Hf c Hc). lia. }
    destruct Hl as [pc l Hpc Hl|l nd1 Hl1 Hd1 Hch].
    + apply elem_of_cons in Hpc as [->|Hpc]; [|by eapply covered_running].
      simplify_eq/=. apply (Hdone nd0); [done..|]. by apply Forall_forall.
    + by apply (Hdone nd1).
Qed.

Lemma passing_moved head pc rest pc' forks s s' :
  passing head (pc :: rest) s ->
  heap_like (heap s') -> slots_kept (heap s) (heap s') ->
  node_of pc' = node_of pc ->
  ethread_ok (heap s') (pc' :: rest ++ forks) pc' ->
  Forall (ethread_ok (heap s') (pc' :: rest ++ forks)) forks ->
  enriching (pc' :: rest ++ forks) s' -> exited s' = None ->
  passing head (pc' :: rest ++ forks) s'.
Proof.
  intros [Hlike Hthr Hroot Hcnt Hex] Hlike' Hkept Hnode Hpc' Hforks Hcnt' Hex'.
  assert (nodes_kept (pc :: rest) (pc' :: rest ++ forks)) as Hn.
  { intros x l [->|Hx]%elem_of_cons Hl.
    - exists pc'. split; [left|congruence].
    - exists x. split; [|done]. right. apply elem_of_app. by left. }
  apply Forall_cons in Hthr as [_ Hrest].
  split; try done.
  - constructor; [done|]. apply Forall_app. split; [|done].
    eapply Forall_impl; [done|]. intros x. apply ethread_ok_kept; [done|].
    intros l. by apply covered_kept.
  - by eapply covered_kept.
Qed.

(** A step of a running call keeps the pass in order and brings it closer
    to its end. *)
Lemma passing_next head pc rest pc' forks s s' :
  passing head (pc :: rest) s ->
  step_pc W cfg pc s = Next pc' forks s' ->
  passing head (pc' :: rest ++ forks) s' /\
  sum_list_with ecost (pc' :: rest ++ forks) < sum_list_with ecost (pc :: rest).
Proof.
  intros Hpass Hstep.
  pose proof (enriching_next W cfg _ _ _ _ _ _ (p_counter _ _ _ Hpass) Hstep) as Hcnt'.
  pose proof (p_like _ _ _ Hpass) as Hlike. pose proof (p_exit _ _ _ Hpass) as Hex.
  pose proof (p_threads _ _ _ Hpass) as [Hpc Hrest]%Forall_cons.
  cbn [sum_list_with]. rewrite sum_list_with_app.
  destruct pc as [| | | | | | |p i|p i apps|p cs|p c cs| |]; simpl in Hpc; try done.
  - (* EEnv *)
    destruct Hpc as (nd0 & Hp0 & Hslots).
    destruct (heap_like_lookup _ _ _ Hlike Hp0) as (nd & Hnd & Hm & Hc & _ & _ & _ & Henv).
    simpl in Hstep. rewrite Hnd in Hstep.
    destruct (Organization.Environments (BusinessOrganization nd) !! i) as [e|] eqn:Hi.
    + destruct (Forall2_lookup_l _ _ _ _ _ Henv Hi) as (e0 & Hi0 & Hrel).
      destruct (enrichable_lookup h0 p nd0 i e0 Hable Hp0 Hi0) as (env0 & apps & -> & Hinv).
      assert (exists env, e = Some env /\ Environment.ID env = Environment.ID env0)
        as (env & -> & Hid).
      { destruct Hrel as [->| ->]; [by eexists|]. simpl. rewrite Hinv. by eexists. }
      rewrite Hid in Hstep.
      destruct (getDeployedArtifacts_inventory _ s _ Hinv) as (b & s1 & Hget & Hdec & Hex1).
      rewrite Hget in Hstep. simplify_eq.
      apply getDeployedArtifacts_quiet in Hget as (Hheap & _).
      split.
      * apply (passing_moved head (EEnv p i) rest _ [] s s'); try done.
        -- by rewrite Hheap.
        -- rewrite Hheap. apply slots_kept_refl.
        -- simpl. exists nd0, env0. rewrite Hheap. by split_and!.
        -- congruence.
      * cbn [ecost sum_list_with]. lia.
    + simplify_eq. split.
      * apply (passing_moved head (EEnv p i) rest _ [] s' s'); try done.
        -- apply slots_kept_refl.
        -- simpl. exists nd0, []. split_and!; try done.
           intros nd1 Hp1 j Hj. simplify_eq. apply Hslots.
           apply lookup_ge_None in Hi. apply Forall2_length in Henv. lia.
      * cbn [ecost sum_list_with]. unfold children0. rewrite Hp0, Hc. lia.
  - (* EStore *)
    destruct Hpc as (nd0 & env & Hp0 & Hi & Hinv & Hslots).
    simpl in Hstep. simplify_eq.
    destruct (store_slot _ _ _ _ _ _ Hlike Hp0 Hi Hinv) as (Hlike' & Hdone & Hkept).
    split.
    + apply (passing_moved head (EStore p i apps) rest _ [] s); try done.
      simpl. exists nd0. split; [done|]. intros j Hj.
      destruct (decide (j = i)) as [->|Hne]; [done|]. apply Hkept, Hslots. lia.
    + cbn [ecost sum_list_with]. apply lookup_lt_Some in Hi.
      unfold nenv. rewrite Hp0. lia.
  - (* EChild *)
    destruct Hpc as (nd0 & ds & Hp0 & Hd & Hc & Hcov).
    simpl in Hstep. destruct cs as [|c cs]; simplify_eq. split.
    + apply (passing_moved head (EChild p (c :: cs)) rest _ [] s); try done.
      * apply slots_kept_refl.
      * simpl. exists nd0, ds. split_and!; try done.
        eapply Forall_impl; [done|]. intros x. apply covered_kept; [apply slots_kept_refl|].
        intros y l [->|Hy]%elem_of_cons Hl.
        -- exists (EGo p c cs). split; [left|done].
        -- exists y. split; [|done]. right. by rewrite app_nil_r.
    + cbn [ecost]. unfold kids. cbn [sum_list_with]. lia.
  - (* EGo *)
    destruct Hpc as (nd0 & ds & Hp0 & Hd & Hc & Hcov).
    simpl in Hstep. simplify_eq.
    assert (is_Some (h0 !! c)) as [ndc Hpc].
    { apply lookup_lt_is_Some. pose proof (Hlinked _ _ Hp0) as Hf.
      rewrite Hc, Forall_app, Forall_cons in Hf. lia. }
    split.
    + apply (passing_moved head (EGo p c cs) rest _ [EEnv c 0] s'); try done.
      * apply slots_kept_refl.
      * simpl. exists nd0, (ds ++ [c]). split_and!; try done.
        -- by rewrite <- app_assoc.
        -- apply Forall_app. split.
           ++ eapply Forall_impl; [done|]. intros x. apply covered_kept; [apply slots_kept_refl|].
              intros y l [->|Hy]%elem_of_cons Hl.
              ** exists (EChild p cs). split; [left|done].
              ** exists y. split; [|done]. right. apply elem_of_app. by left.
           ++ apply Forall_singleton. apply (covered_running _ _ (EEnv c 0)); [|done].
              right. apply elem_of_app. right. by left.
      * apply Forall_singleton. simpl. exists ndc. split; [done|]. lia.
    + cbn [ecost sum_list_with]. rewrite (node_cost_unfold c ndc) by done.
      unfold nenv, children0. rewrite Hpc. lia.
Qed.

(** A call that returns leaves its node done and its children taken care
    of. *)
Lemma passing_return head pc rest s s' :
  passing head (pc :: rest) s ->
  step_pc W cfg pc s = Return s' ->
  passing head rest s' /\
  sum_list_with ecost rest < sum_list_with ecost (pc :: rest).
Proof.
  intros Hpass Hstep.
  pose proof (enriching_return W cfg _ _ _ _ (p_counter _ _ _ Hpass) Hstep) as Hcnt'.
  destruct Hpass as [Hlike Hthr Hroot Hcnt Hex].
  pose proof Hthr as [Hpc Hrest]%Forall_cons.
  destruct pc as [| | | | | | |p i|p i apps|p cs|p c cs| |]; simpl in Hpc; try done;
    simpl in Hstep; try (by repeat case_match).
  destruct cs as [|c cs]; simplify_eq.
  destruct Hcnt as (_ & Hw & _). cbn [sum_list_with units] in Hw.
  assert (heap (wg_Done Enrich p s) = heap s /\ exited (wg_Done Enrich p s) = None)
    as [Hheap Hex'].
  { unfold wg_Done. sh. destruct (decide _) as [Hneg|_]; [lia|]. by sh. }
  split; [|cbn [sum_list_with ecost]; lia].
  pose proof (covered_return (heap s) p rest Hpc) as Hret.
  split; try done; rewrite Hheap; try done.
  - eapply Forall_impl; [done|]. intros x.
    apply ethread_ok_kept; [apply slots_kept_refl|done].
  - by apply Hret.
Qed.

(** *** The pass as a whole *)

Definition EInv (head : loc) (σ : State) : Prop :=
  match mainpc σ with
  | MEnrichAdd r =>
      r = head /\ gos σ = [] /\ heap (shared σ) = h0 /\ head < length h0 /\
      wgMain (shared σ) = 0%Z /\ files (shared σ) = [] /\ exited (shared σ) = None
  | MEnrich r _ | MEnrichWait r => r = head /\ passing head (pool σ) (shared σ)
  | MWriteTree r => r = head /\ passing head [] (shared σ) /\ gos σ = []
  | _ => False
  end.

Definition emeasure (σ : State) : nat :=
  match mainpc σ with
  | MEnrichAdd r => 2 + node_cost r
  | MEnrich _ _ | MEnrichWait _ => 1 + sum_list_with ecost (pool σ)
  | _ => 0
  end.

Lemma ethread_ok_units h t pc : ethread_ok h t pc -> 1 <= units Enrich pc.
Proof. destruct pc; simpl; try done; lia. Qed.

Lemma passing_idle head threads s : passing head threads s -> wgMain s = 0%Z -> threads = [].
Proof.
  intros [_ Hthr _ (_ & Hcnt & _) _] Hz. destruct threads as [|pc rest]; [done|].
  apply Forall_cons in Hthr as [Hpc%ethread_ok_units _].
  cbn [sum_list_with] in Hcnt. lia.
Qed.

Lemma ethread_ok_moves h t pc s : ethread_ok h t pc -> step_pc W cfg pc s <> Blocked.
Proof. destruct pc; simpl; try done; intros _; repeat case_match; done. Qed.

Lemma EInv_exited head σ : EInv head σ -> exited (shared σ) = None.
Proof.
  unfold EInv. destruct (mainpc σ); try done.
  - by intros (_ & _ & _ & _ & _ & _ & ?).
  - by intros (_ & []).
  - by intros (_ & []).
  - by intros (_ & [] & _).
Qed.

Lemma EInv_step head σ σ' :
  EInv head σ -> enriched σ = false -> pstep W cfg σ σ' ->
  EInv head σ' /\ emeasure σ' < emeasure σ.
Proof.
  intros Hinv Hin [Hcall Hstep Hgos|pc rest pc' forks Hp Hstep Hp' Hst|pc rest Hp Hstep Hp' Hst].
  - unfold step_main in Hstep. unfold EInv, emeasure, enriched in *.
    destruct (mainpc σ) eqn:Hm; try done.
    + destruct Hinv as (-> & Hg & Hh & Hlt & Hw & Hf & Hex). simplify_eq.
      cbn [mainpc with_main shared pool gos]. rewrite Hg.
      destruct (lookup_lt_is_Some_2 h0 head Hlt) as [nd0 Hnd0].
      split.
      * split; [done|]. split; sh; try done.
        -- rewrite Hh. apply heap_like_refl.
        -- apply Forall_singleton. simpl. exists nd0. split; [done|]. lia.
        -- apply (covered_running _ _ (EEnv head 0)); [by left|done].
        -- split_and!; [by apply Forall_singleton|cbn [sum_list_with units]; sh; lia|done].
      * cbn [sum_list_with ecost]. rewrite (node_cost_unfold head nd0) by done.
        unfold nenv, children0. rewrite Hnd0. lia.
    + destruct (decide _) as [Hz|_]; [|done]. simplify_eq.
      cbn [mainpc with_main shared gos]. destruct Hinv as (-> & Hpass).
      unfold pool in Hpass. rewrite Hm in Hpass.
      pose proof (passing_idle _ _ _ Hpass Hz) as Hnil. rewrite Hnil in *.
      split_and!; try done. lia.
  - assert (exists r, r = head /\ passing head (pool σ) (shared σ) /\
                      emeasure σ = 1 + sum_list_with ecost (pool σ) /\
                      (mainpc σ = MEnrichWait r \/ exists q, mainpc σ = MEnrich r q))
      as (r & -> & Hpass & Hms & Hm).
    { unfold EInv, emeasure, enriched in *. destruct (mainpc σ) eqn:Hm; try done.
      - destruct Hinv as (_ & Hg & _). unfold pool in Hp. rewrite Hm, Hg in Hp.
        by apply Permutation_nil_cons in Hp.
      - destruct Hinv as (-> & Hpass). eauto 10.
      - destruct Hinv as (-> & Hpass). eauto 10. }
    rewrite Hp in Hpass.
    destruct (passing_next _ _ _ _ _ _ _ Hpass Hstep) as [Hpass' Hlt].
    rewrite <- Hp' in Hpass'.
    assert (sum_list_with ecost (pool σ) = sum_list_with ecost (pc :: rest)) as Hsum
        by by rewrite Hp.
    assert (sum_list_with ecost (pool σ') = sum_list_with ecost (pc' :: rest ++ forks)) as Hsum'
        by by rewrite Hp'.
    rewrite Hms. unfold EInv, emeasure.
    destruct Hm as [Hm|[q Hm]]; rewrite Hm in Hst; destruct (mainpc σ') eqn:Hmm;
      simpl in Hst; simplify_eq; (split; [done|lia]).
  - assert (exists r, r = head /\ passing head (pool σ) (shared σ) /\
                      emeasure σ = 1 + sum_list_with ecost (pool σ) /\
                      (mainpc σ = MEnrichWait r \/ exists q, mainpc σ = MEnrich r q))
      as (r & -> & Hpass & Hms & Hm).
    { unfold EInv, emeasure, enriched in *. destruct (mainpc σ) eqn:Hm; try done.
      - destruct Hinv as (_ & Hg & _). unfold pool in Hp. rewrite Hm, Hg in Hp.
        by apply Permutation_nil_cons in Hp.
      - destruct Hinv as (-> & Hpass). eauto 10.
      - destruct Hinv as (-> & Hpass). eauto 10. }
    rewrite Hp in Hpass.
    destruct (passing_return _ _ _ _ _ Hpass Hstep) as [Hpass' Hlt].
    rewrite <- Hp' in Hpass'.
    assert (sum_list_with ecost (pool σ) = sum_list_with ecost (pc :: rest)) as Hsum
        by by rewrite Hp.
    assert (sum_list_with ecost (pool σ') = sum_list_with ecost rest) as Hsum'
        by by rewrite Hp'.
    rewrite Hms. unfold EInv, emeasure.
    destruct Hm as [Hm|[q Hm]]; rewrite Hm in Hst; simpl in Hst; destruct_or?;
      rewrite Hst; cbv beta iota; (split; [done|lia]).
Qed.

(** Nothing blocks a call of the pass, and [g.Wait()] is held up only
    while calls are running. *)
Lemma enrich_progress head σ :
  EInv head σ -> enriched σ = false ->
  exists tid σ', tid <= length (gos σ) /\ step_at W cfg tid σ = Some σ'.
Proof.
  intros Hinv Hin. pose proof (EInv_exited _ _ Hinv) as Hex.
  unfold step_at. rewrite Hex.
  unfold EInv, enriched in *. destruct (mainpc σ) eqn:Hm; try done.
  - exists 0. unfold step_main. rewrite Hm. eauto with lia.
  - exists 0. unfold step_main. rewrite Hm.
    unfold pool in Hinv. rewrite Hm in Hinv.
    destruct Hinv as (_ & [_ [Hpc _]%Forall_cons _ _ _]).
    pose proof (ethread_ok_moves _ _ _ (shared σ) Hpc).
    destruct (step_pc W cfg pc (shared σ)); [done|eauto with lia..].
  - unfold pool in Hinv. rewrite Hm in Hinv. destruct Hinv as (_ & Hpass).
    destruct (decide (wgMain (shared σ) = 0%Z)) as [Hz|Hnz].
    + exists 0. unfold step_main. rewrite Hm. rewrite decide_True by done. eauto with lia.
    + destruct (gos σ) as [|pc rest] eqn:Hg.
      { destruct Hpass as [_ _ _ (_ & Hcnt & _) _]. simpl in Hcnt. done. }
      exists 1. unfold step_go. rewrite Hg. simpl.
      destruct Hpass as [_ [Hpc _]%Forall_cons _ _ _].
      pose proof (ethread_ok_moves _ _ _ (shared σ) Hpc).
      destruct (step_pc W cfg pc (shared σ)); [done|eauto with lia..].
Qed.

(** Whatever the schedule, the pass is over within [emeasure] steps. *)
Lemma enrich_terminates head sched σ :
  EInv head σ -> emeasure σ <= length sched ->
  mainpc (run_until W cfg enriched sched σ) = MWriteTree head /\
  EInv head (run_until W cfg enriched sched σ).
Proof.
  revert σ. induction sched as [|k sched IH]; intros σ Hinv Hm.
  - simpl. split; [|done]. unfold EInv, emeasure in *. simpl in Hm.
    destruct (mainpc σ); try done; try lia. by destruct Hinv as (-> & _).
  - destruct (enriched σ) eqn:Hin.
    { rewrite run_until_stop by done. split; [|done].
      unfold EInv, enriched in *. destruct (mainpc σ); try done. by destruct Hinv as (-> & _). }
    destruct (enrich_progress head σ Hinv Hin) as (tid & σ1 & Hle & Hs).
    apply enabled_nonempty in Hs; [|done].
    destruct (run_until_step W cfg enriched k sched σ) as (σ' & Hstep & ->); [done..|].
    destruct (EInv_step head σ σ' Hinv Hin Hstep) as (Hinv' & Hlt).
    apply IH; [done|simpl in Hm; lia].
Qed.

End Pass.

(** The steps the pass takes on the tree below [head], at most. *)
Definition enrich_cost (h : list Node) (head : loc) : nat :=
  2 + tree_cost (tree_of (length h) h head).

Lemma tree_cost_enrich t : tree_cost (enrich_tree t) = tree_cost t.
Proof.
  induction t as [o cs IH] using Tree_ind'. cbn [enrich_tree tree_cost].
  unfold enrich_org at 1. cbn [Organization.Environments]. rewrite length_map. f_equal.
  rewrite map_map. induction IH as [|c cs Hc _ IHcs]; [done|].
  unfold list_sum in *. cbn [map fold_right]. by rewrite Hc, IHcs.
Qed.

(** The whole pass, from the point where [main] starts it: whatever the
    schedule, it ends, and the tree is then the enriched tree. *)
Lemma enrich_result sched s head :
  linked (heap s) -> enrichable (heap s) = true -> head < length (heap s) ->
  wgMain s = 0%Z -> files s = [] -> exited s = None ->
  enrich_cost (heap s) head <= length sched ->
  let σ := run_until W cfg enriched sched (enrich_entry s head) in
  mainpc σ = MWriteTree head /\ gos σ = [] /\ exited (shared σ) = None /\
  wgMain (shared σ) = 0%Z /\ files (shared σ) = [] /\
  heap_like (heap s) (heap (shared σ)) /\
  head_tree (shared σ) head = enrich_tree (head_tree s head).
Proof.
  intros Hl Ha Hlt Hw Hf Hex Hlen. cbv zeta.
  destruct (enrich_terminates (heap s) Hl Ha head sched (enrich_entry s head)) as [Hm Hinv].
  { unfold EInv. simpl. by split_and!. }
  { unfold emeasure. simpl. done. }
  unfold EInv in Hinv. rewrite Hm in Hinv.
  destruct Hinv as (_ & [Hlike _ Hroot (_ & Hcnt & Hfiles) Hex'] & Hgos).
  split_and!; try done.
  unfold head_tree. rewrite (Forall2_length _ _ _ Hlike). by apply covered_tree.
Qed.

(** Two passes in a row. *)
Lemma enrich_twice sched1 sched2 s head :
  linked (heap s) -> enrichable (heap s) = true -> head < length (heap s) ->
  wgMain s = 0%Z -> files s = [] -> exited s = None ->
  enrich_cost (heap s) head <= length sched1 ->
  enrich_cost (heap s) head <= length sched2 ->
  let σ1 := run_until W cfg enriched sched1 (enrich_entry s head) in
  let σ2 := run_until W cfg enriched sched2 (enrich_entry (shared σ1) head) in
  mainpc σ1 = MWriteTree head /\ mainpc σ2 = MWriteTree head /\
  exited (shared σ2) = None /\
  head_tree (shared σ1) head = enrich_tree (head_tree s head) /\
  head_tree (shared σ2) head = head_tree (shared σ1) head.
Proof.
  intros Hl Ha Hlt Hw Hf Hex Hlen1 Hlen2. cbv zeta.
  destruct (enrich_result sched1 s head) as (Hm1 & _ & Hex1 & Hw1 & Hf1 & Hlike & Ht1);
    [done..|].
  set (s1 := shared (run_until W cfg enriched sched1 (enrich_entry s head))) in *.
  destruct (enrich_result sched2 s1 head) as (Hm2 & _ & Hex2 & _ & _ & _ & Ht2);
    try done.
  - by eapply heap_like_linked.
  - by eapply heap_like_enrichable.
  - by rewrite (Forall2_length _ _ _ Hlike).
  - unfold enrich_cost in *. fold (head_tree s1 head). rewrite Ht1, tree_cost_enrich. done.
  - split_and!; try done. rewrite Ht2, Ht1. apply enrich_tree_idem.
Qed.

End Enrich.

(** ** A synthetic directory

    Four organizations: A (org-1) with children B (org-2) and C (org-3); B
    has one environment, env-1, and one child, D (org-4).  A body is the
    identifier asked for, and the decoders look the payload up in a table. *)

Definition ex_body (s : string) : list Byte.byte := String.list_byte_of_string s.

Definition ex_org (orgID : string) : Organization :=
  if decide (orgID = "org-1") then Organization.mk "A" "org-1" ["org-2"; "org-3"] []
  else if decide (orgID = "org-2") then
    Organization.mk "B" "org-2" ["org-4"] [Some (Environment.mk "env-1" "production" [])]
  else if decide (orgID = "org-3") then Organization.mk "C" "org-3" [] []
  else if decide (orgID = "org-4") then Organization.mk "D" "org-4" [] []
  else Organization.zero.

Definition ex_app : Application :=
  {| Domain := "x.example"; FullDomain := "x.example.cloudhub.io"; Status := "STARTED";
     FileName := "x.zip";
     Workers := {| Type_ := {| CPU := "1 vCore" |}; Amount := 1%Z;
                   RemainingOrgWorkers := S754_zero false;
                   TotalOrgWorkers := S754_zero false |};
     LastUpdateTime := 0%Z; MuleVersion := {| Version := "4.4.0" |} |}.

Definition ex_world : Collaborators :=
  {| RemoteDirectory := fun _ _ orgID => Response 200%Z (inl (ex_body orgID));
     RemoteInventory := fun _ _ environment => Response 200%Z (inl (ex_body environment));
     UnmarshalOrganization := fun b _ => (ex_org (String.string_of_list_byte b), None);
     UnmarshalApplications := fun _ _ => ([Some ex_app], None);
     MarshalIndent := fun _ => inl (ex_body "{}");
     osCreate := fun _ => None;
     fileWrite := fun _ b => (Z.of_nat (length b), None);
     rangeMap := fun m => map snd (map_to_list m) |}.

Definition ex_cfg : Config :=
  {| rootID := "org-1"; username := "user"; password := "secret"; outdir := "." |}.

(** The main goroutine runs whenever it can. *)
Definition ex_main_first : list nat := repeat 0 60.

(** The main goroutine first; then, of the two children's calls, the one of
    org-3 runs to its end before the one of org-2 starts. *)
Definition ex_second_child_first : list nat := repeat 0 17 ++ [1; 1] ++ repeat 0 40.

(** The directory answers 500 for every identifier, with a body. *)
Definition ex_world_500 : Collaborators :=
  {| RemoteDirectory := fun _ _ orgID => Response 500%Z (inl (ex_body orgID));
     RemoteInventory := RemoteInventory ex_world;
     UnmarshalOrganization := UnmarshalOrganization ex_world;
     UnmarshalApplications := UnmarshalApplications ex_world;
     MarshalIndent := MarshalIndent ex_world;
     osCreate := osCreate ex_world;
     fileWrite := fileWrite ex_world;
     rangeMap := rangeMap ex_world |}.

(** The inventory answers 503. *)
Definition ex_world_503 : Collaborators :=
  {| RemoteDirectory := RemoteDirectory ex_world;
     RemoteInventory := fun _ _ environment => Response 503%Z (inl (ex_body environment));
     UnmarshalOrganization := UnmarshalOrganization ex_world;
     UnmarshalApplications := UnmarshalApplications ex_world;
     MarshalIndent := MarshalIndent ex_world;
     osCreate := osCreate ex_world;
     fileWrite := fileWrite ex_world;
     rangeMap := rangeMap ex_world |}.

(** The payload of org-1 has a number where the identifier should be.
    [json.Unmarshal] skips a field whose value does not fit, goes on with the
    others and returns an [UnmarshalTypeError]: the name is decoded, the
    error is not nil. *)
Definition ex_quote : string := String (Ascii.ascii_of_nat 34) "".

Definition ex_ill_typed_json : string :=
  "{" +:+ ex_quote +:+ "Name" +:+ ex_quote +:+ ":" +:+ ex_quote +:+ "A" +:+ ex_quote +:+ "," +:+
  ex_quote +:+ "ID" +:+ ex_quote +:+ ":7}".

Definition ex_ill_typed : list Byte.byte := ex_body ex_ill_typed_json.

Definition ex_world_ill_typed : Collaborators :=
  {| RemoteDirectory := fun _ _ _ => Response 200%Z (inl ex_ill_typed);
     RemoteInventory := RemoteInventory ex_world;
     UnmarshalOrganization := fun b target =>
       if decide (String.string_of_list_byte b = ex_ill_typed_json) then
         (Organization.mk "A" (Organization.ID target)
            (Organization.SubOrganizationIds target) (Organization.Environments target),
          Some "json: cannot unmarshal number into Go struct field Organization.ID of type string")
       else (target, Some "unexpected end of JSON input");
     UnmarshalApplications := UnmarshalApplications ex_world;
     MarshalIndent := MarshalIndent ex_world;
     osCreate := osCreate ex_world;
     fileWrite := fileWrite ex_world;
     rangeMap := rangeMap ex_world |}.

(** ** The tree builder: results *)

(** [InitTree] is running, or has just returned. *)
Definition upto_built (m : MainPC) : bool :=
  in_build m || match m with MEnrichAdd _ => true | _ => false end.

Lemma BInv_cases W cfg σ :
  BInv W cfg σ -> upto_built (mainpc σ) = true ->
  (heap (shared σ) = [] /\ dones (shared σ) = [] /\ pool σ = [] /\ wgInit (shared σ) = 0%Z) \/
  (exists o, heap (shared σ) = [new_node o] /\ dones (shared σ) = [] /\ pool σ = [] /\
             wgInit (shared σ) = 0%Z) \/
  (exists head, building W cfg head (pool σ) (shared σ)).
Proof.
  unfold BInv, nothing_yet, pool. destruct (mainpc σ); try done; intros H _.
  - left. by destruct H as ((-> & ? & _ & _ & ?) & ?).
  - left. by destruct H as ((-> & ? & _ & _ & ?) & ?).
  - right. left. destruct H as ((-> & ? & _ & _ & ?) & _ & o & _ & ?). eauto.
  - right. right. eauto.
  - right. right. eauto.
  - right. right. destruct H as [H ->]. eauto.
Qed.

Lemma thread_ok_prefix W cfg h pc l :
  thread_ok W cfg h pc -> l ∈ owned pc ->
  exists nd ds rest,
    h !! l = Some nd /\
    Organization.SubOrganizationIds (BusinessOrganization nd) = ds ++ rest /\
    Forall2 (resolved W cfg h) (Children nd) ds.
Proof.
  unfold thread_ok, expanding, fresh. intros Hpc Hl.
  destruct pc; simpl in Hpc; try done; open_hyps; own; destruct_or?; subst; try done.
  all: try (eexists _, _, _; split_and!; [done..|]; done).
  all: match goal with H : Children ?nd = [] |- _ =>
         exists nd, [], (Organization.SubOrganizationIds (BusinessOrganization nd));
         rewrite H; split_and!; [done|done|constructor] end.
Qed.

Lemma building_prefix W cfg head threads s l nd :
  building W cfg head threads s -> heap s !! l = Some nd ->
  exists ds rest,
    Organization.SubOrganizationIds (BusinessOrganization nd) = ds ++ rest /\
    Forall2 (resolved W cfg (heap s)) (Children nd) ds.
Proof.
  intros [_ _ Hth _ _ Hdone Hcov _] Hl.
  destruct (Hcov l) as [Hin|Hd]; [by eapply lookup_lt_Some| |].
  - apply elem_of_owners in Hin as (pc & Hpc & Hown).
    rewrite Forall_forall in Hth.
    destruct (thread_ok_prefix _ _ _ _ _ (Hth _ Hpc) Hown) as (nd' & ds & rest & Hl' & ? & ?).
    simplify_eq. eauto.
  - destruct (Hdone l Hd) as [(nd' & Hl' & Hf) _]. simplify_eq.
    exists (Organization.SubOrganizationIds (BusinessOrganization nd)), [].
    by rewrite app_nil_r.
Qed.

(** C1. For a finite hierarchy below the root identifier, [InitTree] returns
    under every schedule, with no goroutine left; the tree in the store is the
    tree the directory describes, with as many nodes as the directory reports
    organizations, and the children of every node are the organizations of the
    identifiers of its payload.  What the directory describes and reports
    ([directory_tree], [directory_count], [resolved]) is unfolded from the
    answers of the directory and from [json.Unmarshal] by [resolve], not from
    what the builder does. *)
Theorem InitTree_builds_directory_tree W cfg D sched :
  flags_present cfg ->
  hierarchy_within W cfg D (rootID cfg) = true ->
  cost W cfg D (rootID cfg) <= length sched ->
  exists head,
    mainpc (run_until W cfg built sched initial) = MEnrichAdd head /\
    gos (run_until W cfg built sched initial) = [] /\
    exited (shared (run_until W cfg built sched initial)) = None /\
    head_tree (shared (run_until W cfg built sched initial)) head
    = directory_tree W cfg D (rootID cfg) /\
    tree_size (head_tree (shared (run_until W cfg built sched initial)) head)
    = directory_count W cfg D (rootID cfg) /\
    forall l nd,
      heap (shared (run_until W cfg built sched initial)) !! l = Some nd ->
      Forall2 (resolved W cfg (heap (shared (run_until W cfg built sched initial))))
              (Children nd) (Organization.SubOrganizationIds (BusinessOrganization nd)).
Proof.
  intros Hflags Hroot Hlen.
  destruct (build_result W cfg D sched Hflags Hroot Hlen) as (head & Hm & Hg & Hex & Ht & Hall).
  exists head. split_and!; try done.
  - rewrite Ht. by apply directory_tree_size.
  - intros l nd Hl. pose proof (BInv_run W cfg built sched) as Hinv.
    unfold BInv in Hinv. rewrite Hm in Hinv. destruct Hinv as [[_ _ _ _ _ Hdone _ _] _].
    destruct (Hdone l) as [(nd' & Hl' & Hf) _]; [apply Hall; by eapply lookup_lt_Some|].
    by simplify_eq.
Qed.

Lemma InitTree_builds_directory_tree_witness :
  mainpc (run_until ex_world ex_cfg built ex_second_child_first initial) = MEnrichAdd 0 /\
  gos (run_until ex_world ex_cfg built ex_second_child_first initial) = [] /\
  exited (shared (run_until ex_world ex_cfg built ex_second_child_first initial)) = None /\
  head_tree (shared (run_until ex_world ex_cfg built ex_second_child_first initial)) 0
  = TNode (Organization.mk "A" "org-1" ["org-2"; "org-3"] [])
      [TNode (Organization.mk "B" "org-2" ["org-4"]
                [Some (Environment.mk "env-1" "production" [])])
         [TNode (Organization.mk "D" "org-4" [] []) []];
       TNode (Organization.mk "C" "org-3" [] []) []] /\
  directory_tree ex_world ex_cfg 3 "org-1"
  = TNode (Organization.mk "A" "org-1" ["org-2"; "org-3"] [])
      [TNode (Organization.mk "B" "org-2" ["org-4"]
                [Some (Environment.mk "env-1" "production" [])])
         [TNode (Organization.mk "D" "org-4" [] []) []];
       TNode (Organization.mk "C" "org-3" [] []) []] /\
  directory_count ex_world ex_cfg 3 "org-1" = 4 /\
  forall l nd,
    heap (shared (run_until ex_world ex_cfg built ex_second_child_first initial)) !! l = Some nd ->
    Forall2 (resolved ex_world ex_cfg
               (heap (shared (run_until ex_world ex_cfg built ex_second_child_first initial))))
            (Children nd) (Organization.SubOrganizationIds (BusinessOrganization nd)).
Proof.
  destruct (InitTree_builds_directory_tree ex_world ex_cfg 3 ex_second_child_first)
    as (head & Hm & Hg & Hex & Ht & Hn & Hall).
  - unfold flags_present. simpl. split_and!; discriminate.
  - vm_compute. reflexivity.
  - vm_compute. lia.
  - assert (mainpc (run_until ex_world ex_cfg built ex_second_child_first initial)
            = MEnrichAdd 0) as Hm0 by (vm_compute; reflexivity).
    rewrite Hm0 in Hm. injection Hm as <-.
    split_and!; [exact Hm0|exact Hg|exact Hex| | | |exact Hall].
    + vm_compute. reflexivity.
    + vm_compute. reflexivity.
    + vm_compute. reflexivity.
Defined.

(** C2. While [InitTree] runs, its WaitGroup counts one for every call of
    [buildOrgTree] that has not run its deferred [g.Done()] and one more for
    every child that is registered but not started; so [g.Wait()] can only
    return when no call is left, and when it has returned every node's call
    has marked itself done. *)
Theorem InitTree_wait_not_premature W cfg sched :
  (in_build (mainpc (run W cfg sched initial)) = true ->
   wgInit (shared (run W cfg sched initial))
   = Z.of_nat (sum_list_with (units Build) (pool (run W cfg sched initial))) /\
   Forall (fun pc => 1 <= units Build pc) (pool (run W cfg sched initial))) /\
  (forall head,
     mainpc (run W cfg sched initial) = MBuildWait head ->
     wgInit (shared (run W cfg sched initial)) = 0%Z ->
     gos (run W cfg sched initial) = []) /\
  (forall head,
     mainpc (run W cfg sched initial) = MEnrichAdd head ->
     gos (run W cfg sched initial) = [] /\
     forall l, l < length (heap (shared (run W cfg sched initial))) ->
               (Build, l) ∈ dones (shared (run W cfg sched initial))).
Proof.
  pose proof (BInv_run W cfg (fun _ => false) sched) as Hinv.
  fold (run W cfg) in Hinv. split_and!.
  - intros Hin.
    destruct (BInv_cases _ _ _ Hinv) as [H|[H|[head H]]];
      [unfold upto_built; by rewrite Hin|..].
    + destruct H as (_ & _ & -> & ->). done.
    + destruct H as (o & _ & _ & -> & ->). done.
    + destruct H as [_ _ Hth _ Hcnt _ _ _]. split; [done|].
      eapply Forall_impl; [done|]. intros pc. apply thread_ok_units.
  - intros head Hm Hz. unfold BInv, pool in Hinv. rewrite Hm in Hinv.
    by eapply building_idle.
  - intros head Hm. unfold BInv in Hinv. rewrite Hm in Hinv.
    destruct Hinv as [[_ _ _ _ _ _ Hcov _] Hg]. split; [done|].
    intros l Hl. destruct (Hcov l Hl) as [Hin|Hd]; [|done]. by apply elem_of_nil in Hin.
Qed.

Lemma InitTree_wait_not_premature_witness :
  gos (run ex_world ex_cfg (repeat 0 30) initial) = [] /\
  forall l, l < length (heap (shared (run ex_world ex_cfg (repeat 0 30) initial))) ->
            (Build, l) ∈ dones (shared (run ex_world ex_cfg (repeat 0 30) initial)).
Proof.
  apply (proj2 (proj2 (InitTree_wait_not_premature ex_world ex_cfg (repeat 0 30))) 0).
  vm_compute. reflexivity.
Defined.

(** C3. Once the call of [buildOrgTree] on a node has run its [g.Done()],
    the child list of the node has one entry for every identifier of the
    node's payload, position by position: no entry is missing, none is there
    twice. *)
Theorem children_complete_once_done W cfg sched l :
  upto_built (mainpc (run W cfg sched initial)) = true ->
  (Build, l) ∈ dones (shared (run W cfg sched initial)) ->
  exists nd,
    heap (shared (run W cfg sched initial)) !! l = Some nd /\
    Forall2 (resolved W cfg (heap (shared (run W cfg sched initial))))
            (Children nd) (Organization.SubOrganizationIds (BusinessOrganization nd)) /\
    length (Children nd)
    = length (Organization.SubOrganizationIds (BusinessOrganization nd)) /\
    NoDup (Children nd).
Proof.
  intros Hup Hd. pose proof (BInv_run W cfg (fun _ => false) sched) as Hinv.
  fold (run W cfg) in Hinv.
  destruct (BInv_cases _ _ _ Hinv Hup) as [H|[H|[head H]]].
  - destruct H as (_ & Hn & _). rewrite Hn in Hd. by apply elem_of_nil in Hd.
  - destruct H as (o & _ & Hn & _). rewrite Hn in Hd. by apply elem_of_nil in Hd.
  - destruct H as [_ Hheap _ _ _ Hdone _ _].
    destruct (Hdone l Hd) as [(nd & Hl & Hf) _]. exists nd. split_and!; try done.
    + by eapply Forall2_length.
    + by destruct (Hheap l nd Hl).
Qed.

Lemma children_complete_once_done_witness :
  exists nd,
    heap (shared (run ex_world ex_cfg (repeat 0 18) initial)) !! 0 = Some nd /\
    Forall2 (resolved ex_world ex_cfg
               (heap (shared (run ex_world ex_cfg (repeat 0 18) initial))))
            (Children nd) (Organization.SubOrganizationIds (BusinessOrganization nd)) /\
    length (Children nd)
    = length (Organization.SubOrganizationIds (BusinessOrganization nd)) /\
    NoDup (Children nd).
Proof.
  apply (children_complete_once_done ex_world ex_cfg (repeat 0 18) 0).
  - vm_compute. reflexivity.
  - vm_compute. left.
Defined.

(** C7, as the code has it.  At every moment of the construction the child
    list of a node stands for a prefix of the identifiers of the node's
    payload, in the order of the payload: the call on the node fetches and
    appends its children itself, one after the other. *)
Theorem children_follow_discovery_order W cfg sched l nd :
  upto_built (mainpc (run W cfg sched initial)) = true ->
  heap (shared (run W cfg sched initial)) !! l = Some nd ->
  exists ds rest,
    Organization.SubOrganizationIds (BusinessOrganization nd) = ds ++ rest /\
    Forall2 (resolved W cfg (heap (shared (run W cfg sched initial)))) (Children nd) ds.
Proof.
  intros Hup Hl. pose proof (BInv_run W cfg (fun _ => false) sched) as Hinv.
  fold (run W cfg) in Hinv.
  destruct (BInv_cases _ _ _ Hinv Hup) as [H|[H|[head H]]].
  - destruct H as (Hh & _). by rewrite Hh in Hl.
  - destruct H as (o & Hh & _). rewrite Hh in Hl.
    apply list_lookup_singleton_Some in Hl as [_ <-].
    exists [], (Organization.SubOrganizationIds o). split; [done|constructor].
  - by eapply building_prefix.
Qed.

Lemma children_follow_discovery_order_witness :
  exists ds rest,
    ["org-2"; "org-3"] = ds ++ rest /\
    Forall2 (resolved ex_world ex_cfg (heap (shared (run ex_world ex_cfg (repeat 0 8) initial))))
            [1] ds.
Proof.
  apply (children_follow_discovery_order ex_world ex_cfg (repeat 0 8) 0
           {| mux := false; BusinessOrganization := ex_org "org-1"; Children := [1] |}).
  - vm_compute. reflexivity.
  - vm_compute. reflexivity.
Defined.

(** C7, as the claim has it, fails: the call of the second child (org-3,
    node 2) returns before the call of the first (org-2, node 1), and the
    child list of the root is still in the order of the payload. *)
Lemma child_order_is_not_completion_order :
  let σ := run_until ex_world ex_cfg built ex_second_child_first initial in
  mainpc σ = MEnrichAdd 0 /\
  dones (shared σ) = [(Build, 0); (Build, 2); (Build, 1); (Build, 3)] /\
  Children <$> heap (shared σ) !! 0 = Some [1; 2] /\
  (Organization.SubOrganizationIds ∘ BusinessOrganization) <$> heap (shared σ) !! 0
  = Some ["org-2"; "org-3"] /\
  (Organization.ID ∘ BusinessOrganization) <$> heap (shared σ) !! 1 = Some "org-2" /\
  (Organization.ID ∘ BusinessOrganization) <$> heap (shared σ) !! 2 = Some "org-3".
Proof. vm_compute. repeat split; reflexivity. Qed.

(** ** Failures *)

Lemma run_until_exited W cfg stop sched σ :
  exited (shared σ) <> None -> run_until W cfg stop sched σ = σ.
Proof.
  intros Hex. destruct sched as [|k sched]; [done|]. rewrite run_until_cons.
  destruct (stop σ); [done|].
  assert (enabled W cfg σ = []) as ->; [|done].
  unfold enabled. induction (seq 0 _) as [|tid l IH]; [done|].
  rewrite filter_cons_False; [done|]. intros [σ' Hs].
  unfold step_at in Hs. by destruct (exited (shared σ)).
Qed.

(** C4, as the code has it.  A status other than 200 from the inventory
    ends the process with exit code 1 before any file is written.  A status
    other than 200 from the directory is printed and nothing more: the call
    returns the body and the process goes on. *)
Theorem inventory_status_fatal_directory_status_printed W cfg sched :
  (forall environment,
     InventoryCall environment ∈ calls (shared (run W cfg sched initial)) ->
     bad_status W cfg environment ->
     exited (shared (run W cfg sched initial)) = Some 1%Z /\
     files (shared (run W cfg sched initial)) = []) /\
  (forall orgID s code b,
     RemoteDirectory W (username cfg) (password cfg) orgID = Response code (inl b) ->
     code <> StatusOK ->
     getOrganizationMetrics W cfg orgID s
     = (Some b, print (PrintNonOK code) (log_call (DirectoryCall orgID) s))).
Proof.
  split.
  - destruct (PInv_run W cfg (fun _ => false) sched) as [Hbad _]. apply Hbad.
  - intros orgID s code b Hr Hc. unfold getOrganizationMetrics. rewrite Hr.
    by rewrite decide_False.
Qed.

Lemma inventory_status_fatal_directory_status_printed_witness :
  exited (shared (run ex_world_503 ex_cfg (repeat 0 60) initial)) = Some 1%Z /\
  files (shared (run ex_world_503 ex_cfg (repeat 0 60) initial)) = [].
Proof.
  apply (proj1 (inventory_status_fatal_directory_status_printed ex_world_503 ex_cfg (repeat 0 60))
           "env-1").
  - vm_compute. do 4 right. left.
  - exists 503%Z, (inl (ex_body "env-1")). split; [reflexivity|discriminate].
Defined.

(** C4, as the claim has it, fails for the directory: every request gets
    status 500, each is printed, and the process ends with exit code 0 and
    both files written. *)
Lemma directory_status_500_not_fatal :
  let σ := run ex_world_500 ex_cfg (repeat 0 80) initial in
  RemoteDirectory ex_world_500 "user" "secret" "org-1" = Response 500%Z (inl (ex_body "org-1")) /\
  calls (shared σ)
  = [DirectoryCall "org-1"; DirectoryCall "org-2"; DirectoryCall "org-3"; DirectoryCall "org-4";
     InventoryCall "env-1"] /\
  List.filter (fun o => match o with PrintNonOK _ => true | _ => false end) (stdout (shared σ))
  = [PrintNonOK 500%Z; PrintNonOK 500%Z; PrintNonOK 500%Z; PrintNonOK 500%Z] /\
  mainpc σ = MReturned /\
  exited (shared σ) = Some 0%Z /\
  map fst (files (shared σ)) = ["./metrics.json"; "./metrics_flat.json"].
Proof. vm_compute. repeat split; reflexivity. Qed.

(** C9. With one of the three flags empty, the first step of the process
    prints the message and exits with code 1: no request has been sent, no
    node made, no goroutine started and no file written. *)
Theorem missing_flag_exits_before_any_work W cfg k sched :
  rootID cfg = "" \/ username cfg = "" \/ password cfg = "" ->
  exited (shared (run W cfg (k :: sched) initial)) = Some 1%Z /\
  stdout (shared (run W cfg (k :: sched) initial)) = [PrintMissingFlags] /\
  calls (shared (run W cfg (k :: sched) initial)) = [] /\
  files (shared (run W cfg (k :: sched) initial)) = [] /\
  heap (shared (run W cfg (k :: sched) initial)) = [] /\
  gos (run W cfg (k :: sched) initial) = [].
Proof.
  intros Hmissing.
  assert (step_at W cfg 0 initial
          = Some (with_main initial MStart (os_Exit 1 (print PrintMissingFlags empty_shared))))
    as Hstep.
  { unfold step_at, step_main. simpl. by rewrite decide_True. }
  assert (enabled W cfg initial = [0]) as Hen.
  { unfold enabled. simpl. rewrite filter_cons_True by by rewrite Hstep. done. }
  unfold run. rewrite run_until_cons, Hen. simpl. rewrite Hstep.
  rewrite run_until_exited by done. done.
Qed.

Lemma missing_flag_exits_before_any_work_witness :
  exited (shared (run ex_world {| rootID := "org-1"; username := ""; password := "secret";
                                  outdir := "." |} [0; 0; 0] initial)) = Some 1%Z /\
  stdout (shared (run ex_world {| rootID := "org-1"; username := ""; password := "secret";
                                  outdir := "." |} [0; 0; 0] initial)) = [PrintMissingFlags] /\
  calls (shared (run ex_world {| rootID := "org-1"; username := ""; password := "secret";
                                 outdir := "." |} [0; 0; 0] initial)) = [] /\
  files (shared (run ex_world {| rootID := "org-1"; username := ""; password := "secret";
                                 outdir := "." |} [0; 0; 0] initial)) = [] /\
  heap (shared (run ex_world {| rootID := "org-1"; username := ""; password := "secret";
                                outdir := "." |} [0; 0; 0] initial)) = [] /\
  gos (run ex_world {| rootID := "org-1"; username := ""; password := "secret";
                       outdir := "." |} [0; 0; 0] initial) = [].
Proof.
  apply (missing_flag_exits_before_any_work ex_world
           {| rootID := "org-1"; username := ""; password := "secret"; outdir := "." |} 0 [0; 0]).
  simpl. right. left. reflexivity.
Defined.

(** ** Decode errors *)

(** The same collaborators, with decoders that never report an error. *)
Definition discard_decode_errors (W : Collaborators) : Collaborators :=
  {| RemoteDirectory := RemoteDirectory W;
     RemoteInventory := RemoteInventory W;
     UnmarshalOrganization := fun b target => ((UnmarshalOrganization W b target).1, None);
     UnmarshalApplications := fun b target => ((UnmarshalApplications W b target).1, None);
     MarshalIndent := MarshalIndent W;
     osCreate := osCreate W;
     fileWrite := fileWrite W;
     rangeMap := rangeMap W |}.

Lemma step_at_discard W cfg tid σ :
  step_at (discard_decode_errors W) cfg tid σ = step_at W cfg tid σ.
Proof. reflexivity. Qed.

Lemma run_until_discard W cfg stop sched σ :
  run_until (discard_decode_errors W) cfg stop sched σ = run_until W cfg stop sched σ.
Proof.
  revert σ. induction sched as [|k sched IH]; intros σ; [done|].
  rewrite !run_until_cons. destruct (stop σ); [done|].
  change (enabled (discard_decode_errors W) cfg σ) with (enabled W cfg σ).
  destruct (enabled W cfg σ) as [|tid0 tids]; [done|].
  rewrite step_at_discard. destruct (step_at W cfg _ σ); [apply IH|done].
Qed.

(** C10, as the code has it.  The error of the decoder is dropped: the run
    is the one a decoder without errors gives, step for step, exit code
    included; the node is made with whatever the decoder left in the
    variable, which is the zero value when the decoder wrote nothing; and the
    call on a node with the zero value returns at once and marks itself
    done. *)
Theorem decode_error_discarded W cfg :
  (forall stop sched σ,
     run_until W cfg stop sched σ = run_until (discard_decode_errors W) cfg stop sched σ) /\
  (forall p orgID vs s code b o err,
     RemoteDirectory W (username cfg) (password cfg) orgID = Response code (inl b) ->
     UnmarshalOrganization W b Organization.zero = (o, err) ->
     exists s',
       getOrganizationMetrics W cfg orgID s = (Some b, s') /\
       exited s' = exited s /\ stderr s' = stderr s /\
       step_pc W cfg (BLoop p (orgID :: vs)) s
       = Next (BLock p (length (heap s)) vs) [] (set_heap (fun h => h ++ [new_node o]) s')) /\
  (forall n s nd,
     heap s !! n = Some nd -> BusinessOrganization nd = Organization.zero ->
     step_pc W cfg (BEnter n) s = Next (BLoop n []) [] s /\
     step_pc W cfg (BLoop n []) s = Return (wg_Done Build n s)).
Proof.
  split_and!.
  - intros stop sched σ. symmetry. apply run_until_discard.
  - intros p orgID vs s code b o err Hr Hd.
    assert (exists s', getOrganizationMetrics W cfg orgID s = (Some b, s') /\
                       exited s' = exited s /\ stderr s' = stderr s /\ heap s' = heap s)
      as (s' & Hget & Hex & Herr & Hh).
    { unfold getOrganizationMetrics. rewrite Hr. case_decide; eauto. }
    exists s'. split_and!; try done. simpl. rewrite Hget. unfold decode_organization.
    by rewrite Hd, Hh.
  - intros n s nd Hn Hz. simpl. by rewrite Hn, Hz.
Qed.

Lemma decode_error_discarded_witness :
  exists s',
    getOrganizationMetrics ex_world_ill_typed ex_cfg "org-2" empty_shared
    = (Some ex_ill_typed, s') /\
    exited s' = exited empty_shared /\ stderr s' = stderr empty_shared /\
    step_pc ex_world_ill_typed ex_cfg (BLoop 0 ["org-2"]) empty_shared
    = Next (BLock 0 (length (heap empty_shared)) []) []
        (set_heap (fun h => h ++ [new_node (Organization.mk "A" "" [] [])]) s').
Proof.
  apply (proj1 (proj2 (decode_error_discarded ex_world_ill_typed ex_cfg))
           0 "org-2" [] empty_shared 200%Z ex_ill_typed (Organization.mk "A" "" [] [])
           (Some "json: cannot unmarshal number into Go struct field Organization.ID of type string")).
  - reflexivity.
  - vm_compute. reflexivity.
Defined.

(** C10, as the claim has it, fails: the decoder reports an error for the
    payload of the root and has decoded the name all the same; the root node
    carries that organization, not the zero value, and the run ends with exit
    code 0. *)
Lemma decode_error_leaves_partial_organization :
  let σ := run ex_world_ill_typed ex_cfg (repeat 0 40) initial in
  UnmarshalOrganization ex_world_ill_typed ex_ill_typed Organization.zero
  = (Organization.mk "A" "" [] [],
     Some "json: cannot unmarshal number into Go struct field Organization.ID of type string") /\
  BusinessOrganization <$> heap (shared σ) !! 0 = Some (Organization.mk "A" "" [] []) /\
  Organization.Name (Organization.mk "A" "" [] []) <> Organization.Name Organization.zero /\
  dones (shared σ) = [(Build, 0); (Enrich, 0)] /\
  stderr (shared σ) = [] /\
  exited (shared σ) = Some 0%Z.
Proof. vm_compute. repeat split; try reflexivity. discriminate. Qed.

(** ** The flattener: results *)

(** C5. When the display names of a tree are all different, the map that
    [flattenTree] fills from empty has one key for every node, the node's
    name, bound to the node's organization, and nothing else; and the map is
    the same whatever the order of the children. *)
Theorem flattenTree_distinct_names t :
  NoDup (map Organization.Name (tree_orgs t)) ->
  size (flattenTree t ∅) = tree_size t /\
  (forall o, o ∈ tree_orgs t -> flattenTree t ∅ !! Organization.Name o = Some o) /\
  (forall k o, flattenTree t ∅ !! k = Some o -> o ∈ tree_orgs t /\ Organization.Name o = k) /\
  (forall t', tree_perm t t' -> flattenTree t' ∅ = flattenTree t ∅).
Proof.
  intros Hn. rewrite flattenTree_index_all. split_and!.
  - rewrite tree_size_orgs. by apply index_all_size.
  - intros o Ho. by apply index_all_lookup_NoDup.
  - intros k o Hk. by apply index_all_lookup_NoDup in Hk.
  - intros t' Hp. rewrite flattenTree_index_all. symmetry.
    apply index_all_perm; [done|]. by apply tree_perm_orgs.
Qed.

Definition ex_A : Organization := Organization.mk "A" "org-1" ["org-2"; "org-3"] [].
Definition ex_B : Organization := Organization.mk "B" "org-2" [] [].
Definition ex_C : Organization := Organization.mk "C" "org-3" [] [].

Lemma flattenTree_distinct_names_witness :
  size (flattenTree (TNode ex_A [TNode ex_B []; TNode ex_C []]) ∅) = 3 /\
  (forall o, o ∈ [ex_A; ex_B; ex_C] ->
             flattenTree (TNode ex_A [TNode ex_B []; TNode ex_C []]) ∅ !! Organization.Name o
             = Some o) /\
  (forall k o, flattenTree (TNode ex_A [TNode ex_B []; TNode ex_C []]) ∅ !! k = Some o ->
               o ∈ [ex_A; ex_B; ex_C] /\ Organization.Name o = k) /\
  (forall t', tree_perm (TNode ex_A [TNode ex_B []; TNode ex_C []]) t' ->
              flattenTree t' ∅ = flattenTree (TNode ex_A [TNode ex_B []; TNode ex_C []]) ∅).
Proof.
  apply (flattenTree_distinct_names (TNode ex_A [TNode ex_B []; TNode ex_C []])).
  simpl. repeat constructor; set_unfold; intros H; destruct_or?; discriminate.
Defined.

Lemma index_all_lookup_Some orgs k o :
  index_all orgs ∅ !! k = Some o -> o ∈ orgs /\ Organization.Name o = k.
Proof.
  rewrite index_all_lookup, lookup_empty.
  destruct (last _) as [o'|] eqn:Hl; [|done]. intros [= ->].
  apply last_Some_elem_of, list_elem_of_filter in Hl. tauto.
Qed.

(** C6. The map is keyed by display name.  When two nodes of the tree have
    the same name, the map has fewer entries than the tree has nodes; under
    that name it holds the organization visited last; and when the two
    organizations differ, they are not both in the map. *)
Theorem flattenTree_shared_name_loses_entry t i j o1 o2 :
  i < j ->
  tree_orgs t !! i = Some o1 ->
  tree_orgs t !! j = Some o2 ->
  Organization.Name o1 = Organization.Name o2 ->
  size (flattenTree t ∅) < tree_size t /\
  flattenTree t ∅ !! Organization.Name o1
  = last (filter (fun o => Organization.Name o = Organization.Name o1) (tree_orgs t)) /\
  (o1 <> o2 ->
   ~ ((exists k, flattenTree t ∅ !! k = Some o1) /\ (exists k, flattenTree t ∅ !! k = Some o2))).
Proof.
  intros Hij Hi Hj Hname. rewrite flattenTree_index_all, tree_size_orgs. split_and!.
  - destruct (index_all_size (tree_orgs t)) as [Hle Heq].
    assert (~ NoDup (map Organization.Name (tree_orgs t))) as Hdup.
    { intros Hn. assert (i = j); [|lia].
      eapply NoDup_lookup; [done| |]; rewrite list_lookup_fmap.
      - by rewrite Hi.
      - by rewrite Hj, Hname. }
    rewrite Heq in Hdup. lia.
  - rewrite index_all_lookup, lookup_empty. by destruct (last _).
  - intros Hne [[k1 H1] [k2 H2]].
    apply index_all_lookup_Some in H1 as H1'. apply index_all_lookup_Some in H2 as H2'.
    destruct H1' as [_ <-], H2' as [_ <-]. rewrite Hname in H1. congruence.
Qed.

Definition ex_A_again : Organization := Organization.mk "A" "org-9" [] [].

Lemma flattenTree_shared_name_loses_entry_witness :
  size (flattenTree (TNode ex_A [TNode ex_A_again []]) ∅) < 2 /\
  flattenTree (TNode ex_A [TNode ex_A_again []]) ∅ !! "A" = Some ex_A_again /\
  (ex_A <> ex_A_again ->
   ~ ((exists k, flattenTree (TNode ex_A [TNode ex_A_again []]) ∅ !! k = Some ex_A) /\
      (exists k, flattenTree (TNode ex_A [TNode ex_A_again []]) ∅ !! k = Some ex_A_again))).
Proof.
  apply (flattenTree_shared_name_loses_entry (TNode ex_A [TNode ex_A_again []]) 0 1
           ex_A ex_A_again); [lia|reflexivity..].
Defined.

(** C8. Running [generateApplications] twice over the same built tree, the
    inventory answering alike both times, leaves in every environment the
    application list one run leaves there: under every pair of schedules
    both passes end, [g.Wait()] returns without the process exiting, the
    tree after the first pass is the tree with every environment's
    applications replaced by the decoded inventory payload, and the tree
    after the second pass is the same tree. *)
Theorem generateApplications_idempotent W cfg s head sched1 sched2 :
  linkedb (heap s) = true ->
  enrichable W cfg (heap s) = true ->
  head < length (heap s) ->
  wgMain s = 0%Z -> files s = [] -> exited s = None ->
  enrich_cost (heap s) head <= length sched1 ->
  enrich_cost (heap s) head <= length sched2 ->
  let σ1 := run_until W cfg enriched sched1 (enrich_entry s head) in
  let σ2 := run_until W cfg enriched sched2 (enrich_entry (shared σ1) head) in
  mainpc σ1 = MWriteTree head /\ mainpc σ2 = MWriteTree head /\
  exited (shared σ2) = None /\
  head_tree (shared σ1) head = enrich_tree W cfg (head_tree s head) /\
  head_tree (shared σ2) head = head_tree (shared σ1) head.
Proof.
  intros Hl%linkedb_linked Ha Hlt Hw Hf Hex Hlen1 Hlen2.
  by apply enrich_twice.
Qed.

(** The store [InitTree] leaves for the synthetic directory. *)
Definition ex_built : Shared :=
  shared (run_until ex_world ex_cfg built ex_main_first initial).

Lemma generateApplications_idempotent_witness :
  let σ1 := run_until ex_world ex_cfg enriched (repeat 0 20) (enrich_entry ex_built 0) in
  let σ2 := run_until ex_world ex_cfg enriched (repeat 1 20) (enrich_entry (shared σ1) 0) in
  mainpc σ1 = MWriteTree 0 /\ mainpc σ2 = MWriteTree 0 /\
  exited (shared σ2) = None /\
  head_tree (shared σ1) 0 = enrich_tree ex_world ex_cfg (head_tree ex_built 0) /\
  head_tree (shared σ2) 0 = head_tree (shared σ1) 0.
Proof.
  apply (generateApplications_idempotent ex_world ex_cfg ex_built 0 (repeat 0 20) (repeat 1 20));
    vm_compute; first [reflexivity | lia].
Defined.

(** * The whole run

    What the program does to the outside world: requests, standard output,
    standard error, files and the exit code. *)

Definition same_world (s s' : Shared) : Prop :=
  calls s' = calls s /\ stdout s' = stdout s /\ stderr s' = stderr s /\
  files s' = files s /\ exited s' = exited s.

Lemma same_world_refl s : same_world s s.
Proof. by repeat split. Qed.

Definition tree_file (cfg : Config) : string := outdir cfg +:+ "/metrics.json".
Definition flat_file (cfg : Config) : string := outdir cfg +:+ "/metrics_flat.json".

Section World.
Context (W : Collaborators) (cfg : Config).

(** The error a request ends with, if it does: from [http.NewRequest] or
    [client.Do], or from [ioutil.ReadAll].  [getDeployedArtifacts] does not
    get to read the body of an answer that is not a 200. *)
Definition call_error (c : Call) : option error :=
  match c with
  | DirectoryCall orgID =>
      match RemoteDirectory W (username cfg) (password cfg) orgID with
      | RequestFailed err => Some err
      | Response _ (inr err) => Some err
      | Response _ (inl _) => None
      end
  | InventoryCall environment =>
      match RemoteInventory W (username cfg) (password cfg) environment with
      | RequestFailed err => Some err
      | Response code (inr err) => if decide (code = StatusOK) then Some err else None
      | Response _ (inl _) => None
      end
  end.

(** The error [writeMetricsFile] returns, if it does. *)
Definition write_error (data : Snapshot) (filename : string) : option error :=
  match MarshalIndent W data with
  | inr err => Some err
  | inl b =>
      match osCreate W filename with
      | Some err => Some err
      | None => (fileWrite W filename b).2
      end
  end.

(** What [writeMetricsFile] leaves in the file when it returns no error. *)
Definition written (data : Snapshot) (filename : string) : Z * bytes :=
  match MarshalIndent W data with
  | inr _ => (0%Z, [])
  | inl b => ((fileWrite W filename b).1, take (Z.to_nat (fileWrite W filename b).1) b)
  end.

(** The line a request leaves on standard output: the status, when it is
    not a 200. *)
Definition status_line (c : Call) : list Output :=
  match
    match c with
    | DirectoryCall orgID => RemoteDirectory W (username cfg) (password cfg) orgID
    | InventoryCall environment => RemoteInventory W (username cfg) (password cfg) environment
    end
  with
  | RequestFailed _ => []
  | Response code _ => if decide (code = StatusOK) then [] else [PrintNonOK code]
  end.

Definition status_lines (cs : list Call) : list Output := concat (map status_line cs).

Lemma status_lines_app cs1 cs2 :
  status_lines (cs1 ++ cs2) = status_lines cs1 ++ status_lines cs2.
Proof. unfold status_lines. by rewrite map_app, concat_app. Qed.

Lemma getOrganizationMetrics_world v s r s0 :
  getOrganizationMetrics W cfg v s = (r, s0) ->
  calls s0 = calls s ++ [DirectoryCall v] /\ files s0 = files s /\
  stdout s0 = stdout s ++ status_line (DirectoryCall v) /\
  match call_error (DirectoryCall v) with
  | Some err => r = None /\ stderr s0 = stderr s ++ [err] /\ exited s0 = Some 1%Z
  | None => r <> None /\ stderr s0 = stderr s /\ exited s0 = exited s
  end.
Proof.
  unfold getOrganizationMetrics, call_error, status_line. intros H.
  destruct (RemoteDirectory _ _ _ _) as [err|code [b|err]]; simplify_eq/=.
  - rewrite app_nil_r. split_and!; auto.
  - destruct (decide _); rewrite ?app_nil_r; split_and!; eauto.
  - destruct (decide _); rewrite ?app_nil_r; split_and!; eauto.
Qed.

Lemma getDeployedArtifacts_world e s r s0 :
  getDeployedArtifacts W cfg e s = (r, s0) ->
  calls s0 = calls s ++ [InventoryCall e] /\ files s0 = files s /\
  stdout s0 = stdout s ++ status_line (InventoryCall e) /\
  match call_error (InventoryCall e) with
  | Some err => r = None /\ stderr s0 = stderr s ++ [err] /\ exited s0 = Some 1%Z
  | None =>
      stderr s0 = stderr s /\
      ((r <> None /\ exited s0 = exited s) \/ (r = None /\ exited s0 = Some 1%Z))
  end.
Proof.
  unfold getDeployedArtifacts, call_error, status_line. intros H.
  destruct (RemoteInventory _ _ _ _) as [err|code [b|err]]; simplify_eq/=.
  - rewrite app_nil_r. split_and!; auto.
  - destruct (decide _); simplify_eq/=; rewrite ?app_nil_r; split_and!; eauto 10.
  - destruct (decide _); simplify_eq/=; rewrite ?app_nil_r; split_and!; eauto 10.
Qed.

(** What [write_and_report] does, by the error [writeMetricsFile] returns. *)
Lemma write_and_report_world data filename s :
  calls (write_and_report W data filename s) = calls s /\
  heap (write_and_report W data filename s) = heap s /\
  match write_error data filename with
  | Some err =>
      exited (write_and_report W data filename s) = Some 1%Z /\
      stderr (write_and_report W data filename s) = stderr s ++ [err] /\
      stdout (write_and_report W data filename s) = stdout s /\
      (files (write_and_report W data filename s) = files s \/
       exists b, MarshalIndent W data = inl b /\ osCreate W filename = None /\
                 files (write_and_report W data filename s) =
                 files s ++ [(filename, (written data filename).2)])
  | None =>
      exists b, MarshalIndent W data = inl b /\ osCreate W filename = None /\
      exited (write_and_report W data filename s) = exited s /\
      stderr (write_and_report W data filename s) = stderr s /\
      stdout (write_and_report W data filename s) =
        stdout s ++ [PrintWrote (written data filename).1] /\
      files (write_and_report W data filename s) =
        files s ++ [(filename, (written data filename).2)]
  end.
Proof.
  unfold write_and_report, writeMetricsFile, write_error, written.
  destruct (MarshalIndent W data) as [b|err]; [|by split_and!; auto].
  destruct (osCreate W filename) as [err|]; [by split_and!; auto|].
  destruct (fileWrite W filename b) as [n [err|]]; simpl; split_and!; eauto 10.
Qed.

(** What a step of a call does to the outside world. *)
Inductive effect (pc : PC) (s s' : Shared) : Prop :=
| eff_none : pc <> Crashing -> same_world s s' -> effect pc s s'
| eff_directory p v vs r s0 :
    pc = BLoop p (v :: vs) -> getOrganizationMetrics W cfg v s = (r, s0) ->
    same_world s0 s' -> effect pc s s'
| eff_inventory p i e r s0 :
    pc = EEnv p i -> getDeployedArtifacts W cfg e s = (r, s0) ->
    same_world s0 s' -> effect pc s s'
| eff_negative ph msg :
    1 <= units ph pc -> (wg_counter ph s - 1 < 0)%Z ->
    same_world (panic msg s) s' -> effect pc s s'
| eff_crash msg : pc = Crashing -> same_world (panic msg s) s' -> effect pc s s'.

Lemma wg_Done_effect pc ph p s :
  1 <= units ph pc -> effect pc s (wg_Done ph p s).
Proof.
  intros Hu. unfold wg_Done. destruct (decide _) as [Hneg|_].
  - by eapply eff_negative, same_world_refl.
  - apply eff_none; [intros ->; destruct ph; simpl in Hu; lia|]. by destruct ph.
Qed.

Lemma step_pc_next_effect pc s pc' forks s' :
  step_pc W cfg pc s = Next pc' forks s' -> effect pc s s'.
Proof.
  intros Hstep.
  destruct pc as [p|p [|v vs]|p n vs|p n vs|p n vs|p n vs|p n vs|p i|p i apps|p [|c cs]|p c cs|ph p|];
    simpl in Hstep; repeat case_match; simplify_eq;
    try (by apply eff_none);
    try (by eapply eff_directory; [done..|]);
    try (by eapply eff_inventory; [done..|]).
  - apply wg_Done_effect. by destruct ph.
  - by eapply eff_crash, same_world_refl.
Qed.

Lemma step_pc_return_effect pc s s' :
  step_pc W cfg pc s = Return s' -> effect pc s s'.
Proof.
  intros Hstep.
  destruct pc as [p|p [|v vs]|p n vs|p n vs|p n vs|p n vs|p n vs|p i|p i apps|p [|c cs]|p c cs|ph p|];
    simpl in Hstep; repeat case_match; simplify_eq; by apply wg_Done_effect.
Qed.

End World.

(** ** Where the main goroutine stands *)

Inductive Stage := SBuild | SEnrich | SWriteTree | SWriteFlat | SReturned.

Definition stage_of (m : MainPC) : Stage :=
  match m with
  | MStart | MInitTree | MBuildAdd _ | MBuild _ _ | MBuildWait _ => SBuild
  | MEnrichAdd _ | MEnrich _ _ | MEnrichWait _ => SEnrich
  | MWriteTree _ => SWriteTree
  | MFlatten _ | MWriteFlat _ => SWriteFlat
  | MReturned => SReturned
  end.

(** No file has been asked for yet. *)
Definition before_files (m : MainPC) : bool :=
  match stage_of m with
  | SBuild | SEnrich | SWriteTree => true
  | _ => false
  end.

Lemma same_stage_of m m' : same_stage m m' -> stage_of m' = stage_of m.
Proof. destruct m, m'; simpl; try done; by intros [= <-]. Qed.

Lemma return_stage_of m m' : return_stage m m' -> stage_of m' = stage_of m.
Proof. destruct m; simpl; intros H; destruct_or?; by subst. Qed.

Lemma sum_list_with_elem {A} (f : A -> nat) (x : A) (l : list A) :
  x ∈ l -> f x <= sum_list_with f l.
Proof.
  induction l as [|y l IH]; [by intros ?%elem_of_nil|].
  intros [->|Hx]%elem_of_cons; simpl; [lia|]. specialize (IH Hx). lia.
Qed.

Lemma prints_world (values : list Organization) s :
  let s' := fold_left (fun s value => print (PrintOrganization value) s) values s in
  heap s' = heap s /\ calls s' = calls s /\ stderr s' = stderr s /\ files s' = files s /\
  exited s' = exited s /\ stdout s' = stdout s ++ map PrintOrganization values.
Proof.
  revert s. induction values as [|v values IH]; intros s; simpl.
  - by rewrite app_nil_r.
  - destruct (IH (print (PrintOrganization v) s)) as (-> & -> & -> & -> & -> & ->).
    simpl. by rewrite <- app_assoc.
Qed.

Section Run.
Context (W : Collaborators) (cfg : Config).

(** A step, seen from the outside: the main goroutine moves on, or a call
    of the pool does something. *)
Lemma pstep_effect σ σ' :
  pstep W cfg σ σ' ->
  (in_call (mainpc σ) = false /\ step_main W cfg σ = Some σ') \/
  (exists pc, pc ∈ pool σ /\ effect W cfg pc (shared σ) (shared σ') /\
              stage_of (mainpc σ') = stage_of (mainpc σ) /\
              (in_call (mainpc σ) = false -> mainpc σ' = mainpc σ)).
Proof.
  intros [Hcall Hstep Hgos|pc rest pc' forks Hp Hstep Hp' Hst|pc rest Hp Hstep Hp' Hst].
  - by left.
  - right. exists pc. split_and!.
    + rewrite Hp. by left.
    + by eapply step_pc_next_effect.
    + by apply same_stage_of.
    + destruct (mainpc σ), (mainpc σ'); simpl in *; done.
  - right. exists pc. split_and!.
    + rewrite Hp. by left.
    + by eapply step_pc_return_effect.
    + by apply return_stage_of.
    + destruct (mainpc σ); simpl in *; done.
Qed.

(** The calls of the pool, by the stage of the main goroutine. *)
Lemma pool_cases σ pc :
  PInv W cfg σ -> pc ∈ pool σ ->
  (stage_of (mainpc σ) = SBuild /\ thread_ok W cfg (heap (shared σ)) pc /\
   wgInit (shared σ) = Z.of_nat (sum_list_with (units Build) (pool σ)) /\
   files (shared σ) = []) \/
  (stage_of (mainpc σ) = SEnrich /\ is_enrich pc /\
   wgMain (shared σ) = Z.of_nat (sum_list_with (units Enrich) (pool σ)) /\
   files (shared σ) = []) \/
  pc = Crashing.
Proof.
  intros [_ Hphase] Hin. unfold BInv, nothing_yet, pool in *.
  destruct (mainpc σ) eqn:Hm; simpl.
  - destruct Hphase as ((Hg & _) & _). rewrite Hg in Hin. by apply elem_of_nil in Hin.
  - destruct Hphase as ((Hg & _) & _). rewrite Hg in Hin. by apply elem_of_nil in Hin.
  - destruct Hphase as ((Hg & _) & _). rewrite Hg in Hin. by apply elem_of_nil in Hin.
  - left. destruct Hphase as [_ _ Hth _ Hcnt _ _ [_ Hf]]. rewrite Forall_forall in Hth. auto.
  - left. destruct Hphase as [_ _ Hth _ Hcnt _ _ [_ Hf]]. rewrite Forall_forall in Hth. auto.
  - destruct Hphase as (Hg & _). rewrite Hg in Hin. by apply elem_of_nil in Hin.
  - right; left. destruct Hphase as (Hall & Hcnt & Hf). rewrite Forall_forall in Hall. auto.
  - right; left. destruct Hphase as (Hall & Hcnt & Hf). rewrite Forall_forall in Hall. auto.
  - right; right. rewrite Forall_forall in Hphase. auto.
  - right; right. rewrite Forall_forall in Hphase. auto.
  - right; right. rewrite Forall_forall in Hphase. auto.
  - right; right. rewrite Forall_forall in Hphase. auto.
Qed.

Lemma thread_ok_not_enrich h pc ph :
  thread_ok W cfg h pc -> 1 <= units ph pc -> ph = Build.
Proof. destruct pc, ph; simpl; try done; lia. Qed.

Lemma is_enrich_not_build pc ph : is_enrich pc -> 1 <= units ph pc -> ph = Enrich.
Proof. destruct pc as [| | | | | | | | | | |[]|], ph; simpl; try done; lia. Qed.

(** The WaitGroup a call is about to signal counts that call. *)
Lemma counter_positive σ pc ph :
  PInv W cfg σ -> pc ∈ pool σ -> 1 <= units ph pc ->
  (1 <= wg_counter ph (shared σ))%Z.
Proof.
  intros Hinv Hin Hu.
  destruct (pool_cases σ pc Hinv Hin) as [(_ & Hpc & Hcnt & _)|[(_ & Hpc & Hcnt & _)| ->]].
  - assert (ph = Build) as -> by by eapply thread_ok_not_enrich. simpl. rewrite Hcnt.
    pose proof (sum_list_with_elem (units Build) pc (pool σ) Hin). lia.
  - assert (ph = Enrich) as -> by by eapply is_enrich_not_build. simpl. rewrite Hcnt.
    pose proof (sum_list_with_elem (units Enrich) pc (pool σ) Hin). lia.
  - destruct ph; simpl in Hu; lia.
Qed.

(** What can be seen from outside, whatever the directory, the inventory
    and the file system do. *)
Record outside (σ : State) : Prop := {
  o_stderr :
    exited (shared σ) = None \/ exited (shared σ) = Some 0%Z -> stderr (shared σ) = [];
  o_exit0 : exited (shared σ) = Some 0%Z -> mainpc σ = MReturned;
  o_files :
    match stage_of (mainpc σ) with
    | SBuild | SEnrich | SWriteTree => files (shared σ) = []
    | SWriteFlat =>
        exited (shared σ) = None ->
        exists t,
          write_error W (SnapTree t) (tree_file cfg) = None /\
          files (shared σ) = [(tree_file cfg, (written W (SnapTree t) (tree_file cfg)).2)] /\
          (forall head, mainpc σ = MFlatten head -> t = head_tree (shared σ) head) /\
          (forall values, mainpc σ = MWriteFlat values ->
                          values = rangeMap W (flattenTree t ∅))
    | SReturned =>
        exited (shared σ) <> None /\
        (exited (shared σ) = Some 0%Z ->
         exists t,
           write_error W (SnapTree t) (tree_file cfg) = None /\
           write_error W (SnapFlat (rangeMap W (flattenTree t ∅))) (flat_file cfg) = None /\
           files (shared σ) =
             [(tree_file cfg, (written W (SnapTree t) (tree_file cfg)).2);
              (flat_file cfg,
               (written W (SnapFlat (rangeMap W (flattenTree t ∅))) (flat_file cfg)).2)])
    end;
  o_calls :
    exists ds es,
      calls (shared σ) = map DirectoryCall ds ++ map InventoryCall es /\
      (stage_of (mainpc σ) = SBuild -> es = []);
  o_failed :
    forall c err, c ∈ calls (shared σ) -> call_error W cfg c = Some err ->
      exited (shared σ) = Some 1%Z /\ files (shared σ) = [] /\ err ∈ stderr (shared σ);
  o_stdout :
    flags_present cfg -> before_files (mainpc σ) = true ->
    stdout (shared σ) = status_lines W cfg (calls (shared σ))
}.

Lemma outside_initial : outside initial.
Proof.
  split; simpl; try done.
  - by exists [], [].
  - intros c err Hc. by apply elem_of_nil in Hc.
Qed.

(** A step that writes no file and, if it sends a request, sends the one
    of its phase before any file exists. *)
Definition summary (build : bool) (s s' : Shared) : Prop :=
  files s' = files s /\
  ((exited s' = None /\ stderr s' = stderr s) \/
   exited s' = Some 1%Z \/ exited s' = Some 2%Z) /\
  ((calls s' = calls s /\ (flags_present cfg -> stdout s' = stdout s)) \/
   exists c, calls s' = calls s ++ [c] /\ stdout s' = stdout s ++ status_line W cfg c /\
             files s = [] /\
             (if build then exists v, c = DirectoryCall v else exists e, c = InventoryCall e) /\
             forall err, call_error W cfg c = Some err ->
                         exited s' = Some 1%Z /\ err ∈ stderr s').

Lemma summary_same build s s' : exited s = None -> same_world s s' -> summary build s s'.
Proof.
  intros Hex (Hc & Ho & He & Hf & Hx). unfold summary. split_and!; [done| |by left].
  left. by rewrite Hx, He.
Qed.

Lemma summary_directory s v r s0 s' :
  exited s = None -> files s = [] ->
  getOrganizationMetrics W cfg v s = (r, s0) -> same_world s0 s' -> summary true s s'.
Proof.
  intros Hex Hfiles (Hc & Hf & Ho & Herr)%getOrganizationMetrics_world
    (Hc' & Ho' & He' & Hf' & Hx').
  unfold summary. rewrite Hc', Ho', Hf', Hx', He', Hc, Hf, Ho. split_and!; [done|..].
  - destruct (call_error W cfg (DirectoryCall v)) as [err|].
    + right; left. by destruct Herr as (_ & _ & ?).
    + left. destruct Herr as (_ & ? & ?). split; congruence.
  - right. exists (DirectoryCall v). split_and!; eauto.
    intros err Herr'. rewrite Herr' in Herr. destruct Herr as (_ & -> & ->).
    split; [done|]. apply elem_of_app. right. by left.
Qed.

Lemma summary_inventory s e r s0 s' :
  exited s = None -> files s = [] ->
  getDeployedArtifacts W cfg e s = (r, s0) -> same_world s0 s' -> summary false s s'.
Proof.
  intros Hex Hfiles (Hc & Hf & Ho & Herr)%getDeployedArtifacts_world
    (Hc' & Ho' & He' & Hf' & Hx').
  unfold summary. rewrite Hc', Ho', Hf', Hx', He', Hc, Hf, Ho. split_and!; [done|..].
  - destruct (call_error W cfg (InventoryCall e)) as [err|].
    + right; left. by destruct Herr as (_ & _ & ?).
    + destruct Herr as (-> & [(_ & ->)|(_ & ->)]); auto.
  - right. exists (InventoryCall e). split_and!; eauto.
    intros err Herr'. rewrite Herr' in Herr. destruct Herr as (_ & -> & ->).
    split; [done|]. apply elem_of_app. right. by left.
Qed.

Lemma summary_panic build msg s s' : same_world (panic msg s) s' -> summary build s s'.
Proof.
  intros (Hc & Ho & He & Hf & Hx). unfold summary. split_and!; [done| |by left].
  right; right. by rewrite Hx.
Qed.

Lemma effect_summary σ pc s' :
  PInv W cfg σ -> exited (shared σ) = None -> pc ∈ pool σ ->
  effect W cfg pc (shared σ) s' ->
  summary (in_build (mainpc σ)) (shared σ) s'.
Proof.
  intros Hinv Hex Hin Heff.
  destruct Heff as [_ Hsame|p v vs r s0 -> Hget Hsame|p i e r s0 -> Hget Hsame
                   |ph msg Hu Hneg Hsame|msg -> Hsame].
  - by apply summary_same.
  - destruct (pool_cases σ _ Hinv Hin) as [(Hst & _ & _ & Hf)|[(_ & [] & _)|?]]; [|done].
    assert (in_build (mainpc σ) = true) as -> by by destruct (mainpc σ).
    by eapply summary_directory.
  - destruct (pool_cases σ _ Hinv Hin) as [(_ & [] & _)|[(Hst & _ & _ & Hf)|?]]; [|done].
    assert (in_build (mainpc σ) = false) as -> by by destruct (mainpc σ).
    by eapply summary_inventory.
  - pose proof (counter_positive σ pc ph Hinv Hin Hu). lia.
  - by eapply summary_panic.
Qed.

Definition follows (st st' : Stage) : Prop :=
  st' = st \/ (st = SBuild /\ st' = SEnrich) \/ (st = SEnrich /\ st' = SWriteTree).

Lemma outside_summary σ σ' :
  outside σ -> exited (shared σ) = None ->
  summary (in_build (mainpc σ)) (shared σ) (shared σ') ->
  follows (stage_of (mainpc σ)) (stage_of (mainpc σ')) ->
  (stage_of (mainpc σ) = SWriteFlat -> exited (shared σ') = None ->
   mainpc σ' = mainpc σ /\ heap (shared σ') = heap (shared σ)) ->
  outside σ'.
Proof.
  intros [Herr Hx0 Hfiles Hcalls Hfailed Hout] Hex (Hf & Hx & Hc) Hfol Hflat. split.
  - intros Hpre. destruct Hx as [[Hn He]|[H1|H2]].
    + rewrite He. apply Herr. by left.
    + rewrite H1 in Hpre. by destruct Hpre.
    + rewrite H2 in Hpre. by destruct Hpre.
  - intros H0. destruct Hx as [[Hn He]|[H1|H2]]; congruence.
  - rewrite Hf. destruct (stage_of (mainpc σ)) eqn:Hst;
      destruct Hfol as [Heq|[[? Heq]|[? Heq]]]; rewrite Heq; try done.
    + intros Hex'. destruct (Hflat eq_refl Hex') as [Hm Hh].
      destruct (Hfiles Hex) as (t & Hw & Hft & Hhead & Hvals). exists t.
      rewrite Hm. unfold head_tree. rewrite Hh. done.
    + by destruct Hfiles.
  - destruct Hcalls as (ds & es & Hcs & Hb).
    assert (stage_of (mainpc σ') = SBuild -> stage_of (mainpc σ) = SBuild) as Hback.
    { intros Hst'. destruct Hfol as [Heq|[[? Heq]|[? Heq]]]; congruence. }
    destruct Hc as [[Hc _]|(c & Hc & _ & Hnil & Hkind & _)].
    + exists ds, es. rewrite Hc. auto.
    + destruct (in_build (mainpc σ)) eqn:Hin.
      * destruct Hkind as [v ->]. rewrite Hb in Hcs by (by destruct (mainpc σ)).
        exists (ds ++ [v]), []. rewrite Hc, Hcs, map_app. simpl. by rewrite !app_nil_r.
      * destruct Hkind as [e ->]. exists ds, (es ++ [e]).
        split; [by rewrite Hc, Hcs, map_app, app_assoc|].
        intros Hst'%Hback. by destruct (mainpc σ).
  - intros c err Hin Herr'.
    destruct Hc as [[Hc _]|(c0 & Hc & _ & Hnil & _ & Hnew)]; rewrite Hc in Hin.
    + destruct (Hfailed c err Hin Herr') as [? _]. congruence.
    + apply elem_of_app in Hin as [Hin|Hin%list_elem_of_singleton]; [|subst c].
      * destruct (Hfailed c err Hin Herr') as [? _]. congruence.
      * destruct (Hnew err Herr') as [? ?]. split_and!; [done|by rewrite Hf|done].
  - intros Hflags Hbefore.
    assert (before_files (mainpc σ) = true) as Hb.
    { unfold before_files in *.
      destruct Hfol as [Heq|[[Heq ?]|[Heq ?]]]; rewrite Heq in *; done. }
    specialize (Hout Hflags Hb).
    destruct Hc as [[Hc Ho]|(c & Hc & Ho & _)]; rewrite Hc.
    + by rewrite Ho.
    + by rewrite Ho, Hout, status_lines_app; unfold status_lines; simpl; rewrite app_nil_r.
Qed.

Lemma follows_refl st : follows st st.
Proof. by left. Qed.

Local Ltac main_summary :=
  match goal with
  | Hm : mainpc ?σ = _ |- _ =>
      apply (outside_summary σ); try done;
      cbn [mainpc with_main shared]; rewrite ?Hm; cbn [in_build stage_of];
      try apply follows_refl; try done
  end.

Lemma outside_step σ σ' :
  PInv W cfg σ -> outside σ -> exited (shared σ) = None -> pstep W cfg σ σ' -> outside σ'.
Proof.
  intros Hinv Hout Hex Hstep.
  destruct (pstep_effect σ σ' Hstep) as [[Hcall Hmain]|(pc & Hin & Heff & Hst & Hm)].
  2:{ apply (outside_summary σ σ'); try done.
      - by eapply effect_summary.
      - rewrite Hst. apply follows_refl.
      - intros Hflat Hex'.
        destruct (pool_cases σ pc Hinv Hin) as [(Hb & _)|[(Hb & _)| ->]]; [congruence..|].
        destruct Heff as [Hne _| | |ph msg Hu _ _|msg _ (_ & _ & _ & _ & Hx)]; try done.
        + destruct ph; simpl in Hu; lia.
        + simpl in Hx. congruence. }
  unfold step_main in Hmain.
  destruct (mainpc σ) as [| |head|head pc|head|head|head pc|head|head|head|values|] eqn:Hmpc;
    try done.
  - (* the flags *)
    destruct (decide _) as [Hmiss|_]; simplify_eq; main_summary.
    + unfold summary. sh. split_and!; auto.
      left. split; [done|]. unfold flags_present. tauto.
    + by apply summary_same, same_world_refl.
  - (* the root *)
    pose proof (o_files σ Hout) as Hf. rewrite Hmpc in Hf. simpl in Hf.
    destruct (getOrganizationMetrics W cfg (rootID cfg) (shared σ)) as [[b|] s0] eqn:Hget;
      simplify_eq; main_summary.
    + by eapply summary_directory.
    + by eapply summary_directory, same_world_refl.
  - simplify_eq. main_summary. by apply summary_same.
  - destruct (decide _); simplify_eq. main_summary.
    + by apply summary_same, same_world_refl.
    + right; left. done.
  - simplify_eq. main_summary. by apply summary_same.
  - destruct (decide _); simplify_eq. main_summary.
    + by apply summary_same, same_world_refl.
    + right; right. done.
  - (* metrics.json *)
    simplify_eq. destruct Hout as [Herr Hx0 Hfiles Hcalls Hfailed _].
    rewrite Hmpc in Hfiles, Hcalls. simpl in Hfiles, Hcalls.
    pose (t := head_tree (shared σ) head).
    destruct (write_and_report_world W (SnapTree t) (tree_file cfg) (shared σ))
      as (Hc & Hh & Hw).
    change (outdir cfg +:+ "/metrics.json") with (tree_file cfg).
    change (head_tree (shared σ) head) with t.
    split; cbn [mainpc with_main shared stage_of].
    + intros Hpre. destruct (write_error W (SnapTree t) (tree_file cfg)) as [err|].
      * destruct Hw as (Hx & _). rewrite Hx in Hpre. by destruct Hpre.
      * destruct Hw as (b & _ & _ & Hx & He & _). rewrite He. apply Herr. by left.
    + intros H0. destruct (write_error W (SnapTree t) (tree_file cfg)) as [err|].
      * destruct Hw as (Hx & _). congruence.
      * destruct Hw as (b & _ & _ & Hx & _). congruence.
    + intros Hex'. destruct (write_error W (SnapTree t) (tree_file cfg)) as [err|] eqn:Hwe.
      * destruct Hw as (Hx & _). congruence.
      * destruct Hw as (b & _ & _ & _ & _ & _ & Hf). exists t. rewrite Hf, Hfiles.
        split_and!; try done. intros head' [= <-]. unfold t, head_tree in *.
        by rewrite Hh.
    + destruct Hcalls as (ds & es & Hcs & _). exists ds, es. by rewrite Hc.
    + intros c err. rewrite Hc. intros Hin Herr'.
      destruct (Hfailed c err Hin Herr') as [? _]. congruence.
    + by intros _ ?.
  - (* the map *)
    simplify_eq. destruct Hout as [Herr Hx0 Hfiles Hcalls Hfailed _].
    rewrite Hmpc in Hfiles, Hcalls. simpl in Hfiles, Hcalls.
    destruct (prints_world (rangeMap W (flattenTree (head_tree (shared σ) head) ∅)) (shared σ))
      as (Hh & Hc & He & Hf & Hx & Ho).
    split; cbn [mainpc with_main shared stage_of].
    + rewrite Hx, He. done.
    + rewrite Hx. congruence.
    + rewrite Hx, Hf. intros Hex'. destruct (Hfiles Hex') as (t & Hw & Hft & Hhead & _).
      exists t. split_and!; try done. intros values [= <-]. by rewrite (Hhead head).
    + destruct Hcalls as (ds & es & Hcs & _). exists ds, es. by rewrite Hc.
    + intros c err. rewrite Hc. intros Hin Herr'.
      destruct (Hfailed c err Hin Herr') as [? _]. congruence.
    + by intros _ ?.
  - (* metrics_flat.json *)
    simplify_eq. destruct Hout as [Herr Hx0 Hfiles Hcalls Hfailed _].
    rewrite Hmpc in Hfiles, Hcalls. simpl in Hfiles, Hcalls.
    destruct (Hfiles Hex) as (t & Hwt & Hft & _ & Hvals). rewrite (Hvals values eq_refl) in *.
    destruct (write_and_report_world W (SnapFlat (rangeMap W (flattenTree t ∅)))
                (flat_file cfg) (shared σ)) as (Hc & Hh & Hw).
    change (outdir cfg +:+ "/metrics_flat.json") with (flat_file cfg).
    set (s1 := write_and_report W (SnapFlat (rangeMap W (flattenTree t ∅))) (flat_file cfg)
                 (shared σ)) in *.
    destruct (write_error W (SnapFlat (rangeMap W (flattenTree t ∅))) (flat_file cfg))
      as [err|] eqn:Hwe.
    + destruct Hw as (Hx & He & _). rewrite Hx.
      split; cbn [mainpc with_main shared stage_of]; rewrite ?Hx; try done.
      * intros [?|?]; done.
      * destruct Hcalls as (ds & es & Hcs & _). exists ds, es. by rewrite Hc.
      * intros c err'. rewrite Hc. intros Hin Herr'.
        destruct (Hfailed c err' Hin Herr') as [? _]. congruence.
    + destruct Hw as (b & _ & _ & Hx & He & _ & Hf). rewrite Hx, Hex.
      split; cbn [mainpc with_main shared stage_of]; sh; try done.
      * intros _. rewrite He. apply Herr. by left.
      * split; [done|]. intros _. exists t. by rewrite Hf, Hft.
      * destruct Hcalls as (ds & es & Hcs & _). exists ds, es. by rewrite Hc.
      * intros c err'. rewrite Hc. intros Hin Herr'.
        destruct (Hfailed c err' Hin Herr') as [? _]. congruence.
Qed.

Lemma outside_run stop sched : outside (run_until W cfg stop sched initial).
Proof.
  assert (PInv W cfg (run_until W cfg stop sched initial) /\
          outside (run_until W cfg stop sched initial)) as [_ H]; [|done].
  apply (run_until_invariant W cfg (fun σ => PInv W cfg σ /\ outside σ)).
  - intros σ1 σ2 [H1 H2] Hex Hstep. split; [by eapply PInv_step|by eapply outside_step].
  - split; [apply PInv_initial|apply outside_initial].
Qed.

(** No call of the pool is ever held up. *)
Lemma pool_moves σ pc :
  PInv W cfg σ -> pc ∈ pool σ -> step_pc W cfg pc (shared σ) <> Blocked.
Proof.
  intros Hinv Hin.
  destruct (pool_cases σ pc Hinv Hin) as [(_ & Hpc & _)|[(_ & Hpc & _)| ->]]; [| |done].
  - by eapply thread_ok_moves.
  - destruct pc; simpl in *; try done; repeat case_match; done.
Qed.

Lemma returned_exited σ : outside σ -> mainpc σ = MReturned -> exited (shared σ) <> None.
Proof. intros Hout Hm. pose proof (o_files σ Hout) as H. rewrite Hm in H. by destruct H. Qed.

Lemma run_progress σ :
  PInv W cfg σ -> outside σ -> exited (shared σ) = None ->
  exists tid σ', tid <= length (gos σ) /\ step_at W cfg tid σ = Some σ'.
Proof.
  intros Hinv Hout Hex. unfold step_at. rewrite Hex.
  assert (forall pc, pc ∈ pool σ -> step_pc W cfg pc (shared σ) <> Blocked) as Hmoves
      by (intros pc; by apply pool_moves).
  assert (forall ph, gos σ = [] -> pool σ = gos σ ->
                     (stage_of (mainpc σ) = SBuild /\ ph = Build) \/
                     (stage_of (mainpc σ) = SEnrich /\ ph = Enrich) ->
                     mainpc σ <> MStart -> mainpc σ <> MInitTree ->
                     (forall head, mainpc σ <> MBuildAdd head) ->
                     (forall head, mainpc σ <> MEnrichAdd head) ->
                     wg_counter ph (shared σ) = 0%Z) as Hidle.
  { intros ph Hg Hp Hst H1 H2 H3 H4. destruct Hinv as [_ Hphase]. unfold BInv in Hphase.
    rewrite Hg in Hp.
    destruct (mainpc σ) eqn:Hm; simpl in Hst; destruct Hst as [[? ->]|[? ->]]; try done;
      try (by destruct (H3 head)); try (by destruct (H4 head)).
    - destruct Hphase as [_ _ _ _ Hcnt _ _ _]. by rewrite Hp in Hcnt.
    - destruct Hphase as [_ _ _ _ Hcnt _ _ _]. by rewrite Hp in Hcnt.
    - destruct Hphase as (_ & Hcnt & _). by rewrite Hp in Hcnt.
    - destruct Hphase as (_ & Hcnt & _). by rewrite Hp in Hcnt. }
  assert (forall pc rest, gos σ = pc :: rest -> pool σ = gos σ ->
            exists tid σ', tid <= length (gos σ) /\ step_go W cfg (tid - 1) σ = Some σ' /\
                           tid = 1) as Hgo.
  { intros pc rest Hg Hp. exists 1. unfold step_go. rewrite Hg. simpl.
    assert (pc ∈ pool σ) as Hin by (rewrite Hp, Hg; by left).
    specialize (Hmoves pc Hin).
    destruct (step_pc W cfg pc (shared σ)); [done|eauto with lia..]. }
  destruct (mainpc σ) as [| |head|head pc|head|head|head pc|head|head|head|values|] eqn:Hmpc.
  - exists 0. unfold step_main. rewrite Hmpc. case_match; eauto with lia.
  - exists 0. unfold step_main. rewrite Hmpc. repeat case_match; eauto with lia.
  - exists 0. unfold step_main. rewrite Hmpc. eauto with lia.
  - exists 0. unfold step_main. rewrite Hmpc.
    assert (pc ∈ pool σ) as Hin by (unfold pool; rewrite Hmpc; by left).
    specialize (Hmoves pc Hin).
    destruct (step_pc W cfg pc (shared σ)); [done|eauto with lia..].
  - destruct (decide (wgInit (shared σ) = 0%Z)) as [Hz|Hnz].
    + exists 0. unfold step_main. rewrite Hmpc, decide_True by done. eauto with lia.
    + destruct (gos σ) as [|pc rest] eqn:Hg.
      * destruct Hnz. apply (Hidle Build); try done; [by unfold pool; rewrite Hmpc|by left].
      * destruct (Hgo pc rest eq_refl) as (tid & σ' & Hle & Hs & ->);
          [by unfold pool; rewrite Hmpc|]. exists 1, σ'. done.
  - exists 0. unfold step_main. rewrite Hmpc. eauto with lia.
  - exists 0. unfold step_main. rewrite Hmpc.
    assert (pc ∈ pool σ) as Hin by (unfold pool; rewrite Hmpc; by left).
    specialize (Hmoves pc Hin).
    destruct (step_pc W cfg pc (shared σ)); [done|eauto with lia..].
  - destruct (decide (wgMain (shared σ) = 0%Z)) as [Hz|Hnz].
    + exists 0. unfold step_main. rewrite Hmpc, decide_True by done. eauto with lia.
    + destruct (gos σ) as [|pc rest] eqn:Hg.
      * destruct Hnz. apply (Hidle Enrich); try done; [by unfold pool; rewrite Hmpc|by right].
      * destruct (Hgo pc rest eq_refl) as (tid & σ' & Hle & Hs & ->);
          [by unfold pool; rewrite Hmpc|]. exists 1, σ'. done.
  - exists 0. unfold step_main. rewrite Hmpc. eauto with lia.
  - exists 0. unfold step_main. rewrite Hmpc. eauto with lia.
  - exists 0. unfold step_main. rewrite Hmpc. eauto with lia.
  - by destruct (returned_exited σ Hout Hmpc).
Qed.

End Run.

(** ** From the first step to the last *)

Section Whole.
Context (W : Collaborators) (cfg : Config).

(** A run that is let go on after [stop]. *)
Lemma run_until_run stop s1 s2 σ :
  stop (run_until W cfg stop s1 σ) = true ->
  exists rest, length s2 <= length rest /\
               run W cfg (s1 ++ s2) σ = run W cfg rest (run_until W cfg stop s1 σ).
Proof.
  revert σ. induction s1 as [|k s1 IH]; intros σ Hstop.
  - exists s2. done.
  - rewrite run_until_cons in Hstop |- *. destruct (stop σ) eqn:Hs.
    { exists ((k :: s1) ++ s2). split; [rewrite length_app; lia|done]. }
    unfold run. rewrite <- app_comm_cons, run_until_cons. fold (run W cfg).
    destruct (enabled W cfg σ) as [|tid0 tids]; [congruence|].
    destruct (step_at W cfg _ σ) as [σ'|]; [|congruence].
    by apply IH.
Qed.

(** With no goroutine left, the main goroutine is the one that moves. *)
Lemma run_main k sched σ σ' :
  gos σ = [] -> exited (shared σ) = None -> step_main W cfg σ = Some σ' ->
  run W cfg (k :: sched) σ = run W cfg sched σ'.
Proof.
  intros Hg Hex Hstep. unfold run. rewrite run_until_cons.
  assert (step_at W cfg 0 σ = Some σ') as Hat by (unfold step_at; by rewrite Hex).
  assert (enabled W cfg σ = [0]) as ->.
  { unfold enabled. rewrite Hg. simpl. rewrite filter_cons_True by (by rewrite Hat). done. }
  simpl. by rewrite Hat.
Qed.

Lemma run_exited sched σ : exited (shared σ) <> None -> run W cfg sched σ = σ.
Proof. apply run_until_exited. Qed.

(** *** The directory and the inventory together *)

(** The hierarchy below [orgID] is finite, of depth at most [d], every
    request on the way goes through, no environment is missing and the
    inventory answers 200 for each. *)
Fixpoint inventory_within (d : nat) (orgID : string) : bool :=
  match d with
  | O => false
  | S d' =>
      match resolve W cfg orgID with
      | Some o =>
          forallb (env_ok W cfg) (Organization.Environments o) &&
          forallb (inventory_within d') (Organization.SubOrganizationIds o)
      | None => false
      end
  end.

Lemma inventory_within_hierarchy d orgID :
  inventory_within d orgID = true -> hierarchy_within W cfg d orgID = true.
Proof.
  revert orgID. induction d as [|d IH]; intros orgID; [done|]. simpl.
  destruct (resolve W cfg orgID) as [o|]; [|done].
  intros [_ Hsub]%andb_prop. rewrite forallb_forall in Hsub |- *. auto.
Qed.

Definition org_ready (o : Organization) : Prop :=
  forallb (env_ok W cfg) (Organization.Environments o) = true /\
  exists d, Forall (fun v => inventory_within d v = true) (Organization.SubOrganizationIds o).

Definition envs_ready (h : list Node) : Prop :=
  forall l nd, h !! l = Some nd -> org_ready (BusinessOrganization nd).

Lemma inventory_within_ready d orgID o :
  inventory_within d orgID = true -> resolve W cfg orgID = Some o -> org_ready o.
Proof.
  destruct d as [|d]; [done|]. simpl. intros H Ho. rewrite Ho in H.
  apply andb_prop in H as [Henv Hsub]. split; [done|]. exists d.
  rewrite forallb_forall in Hsub. apply Forall_forall. intros v Hv%list_elem_of_In. auto.
Qed.

Lemma envs_ready_app h nd :
  envs_ready h -> org_ready (BusinessOrganization nd) -> envs_ready (h ++ [nd]).
Proof.
  intros Hh Hnd l nd' Hl. apply lookup_app_Some in Hl as [Hl|[_ Hl]]; [by eapply Hh|].
  apply list_lookup_singleton_Some in Hl as [_ <-]. done.
Qed.

Lemma envs_ready_alter h p f :
  (forall nd, BusinessOrganization (f nd) = BusinessOrganization nd) ->
  envs_ready h -> envs_ready (alter f p h).
Proof.
  intros Hf Hh l nd Hl. destruct (decide (l = p)) as [->|Hne].
  - rewrite list_lookup_alter_eq in Hl. destruct (h !! p) as [nd0|] eqn:Hp; simplify_eq/=.
    rewrite Hf. by eapply Hh.
  - rewrite list_lookup_alter_ne in Hl by done. by eapply Hh.
Qed.

Lemma envs_ready_next pc s pc' forks s' :
  thread_ok W cfg (heap s) pc -> envs_ready (heap s) ->
  step_pc W cfg pc s = Next pc' forks s' -> envs_ready (heap s').
Proof.
  intros Hpc Hh Hstep.
  destruct pc as [p|p [|v vs]|p n vs|p n vs|p n vs|p n vs|p n vs|p i|p i apps|p cs|p c cs|ph p|];
    simpl in Hpc; try done; simpl in Hstep; repeat case_match; simplify_eq; sh; try done;
    try (by apply envs_ready_alter).
  - match goal with H : getOrganizationMetrics _ _ _ _ = _ |- _ =>
      apply getOrganizationMetrics_quiet in H as Hq;
      apply getOrganizationMetrics_Some in H as [Hres _]; destruct Hq as (Hq & _) end.
    rewrite Hq. apply envs_ready_app; [done|]. simpl.
    destruct Hpc as (nd & ds & Hp & _ & Hsub & _).
    destruct (Hh p nd Hp) as (_ & d & Hd). rewrite Hsub, Forall_app, Forall_cons in Hd.
    destruct Hd as (_ & Hv & _). by eapply inventory_within_ready.
  - match goal with H : getOrganizationMetrics _ _ _ _ = _ |- _ =>
      apply getOrganizationMetrics_quiet in H as (-> & _) end. done.
Qed.

Lemma envs_ready_return pc s s' :
  envs_ready (heap s) -> step_pc W cfg pc s = Return s' -> envs_ready (heap s').
Proof.
  intros Hh Hstep. apply step_pc_return_world in Hstep as Hw.
  destruct pc as [p|p [|v vs]|p n vs|p n vs|p n vs|p n vs|p n vs|p i|p i apps|p [|c cs]|p c cs|ph p|];
    simpl in Hstep; repeat case_match; simplify_eq;
    unfold wg_Done; case_match; sh; done.
Qed.

(** While the tree is built, every node is ready for the enricher. *)
Definition RInv (σ : State) : Prop :=
  BInv W cfg σ /\ (upto_built (mainpc σ) = true -> envs_ready (heap (shared σ))).

Lemma upto_built_same m m' : same_stage m m' -> upto_built m' = true -> upto_built m = true.
Proof. destruct m, m'; simpl; try done; by intros [= <-]. Qed.

Lemma upto_built_return m m' :
  return_stage m m' -> upto_built m' = true -> upto_built m = true.
Proof. destruct m; simpl; intros H; destruct_or?; by subst. Qed.

Lemma RInv_step D σ σ' :
  inventory_within D (rootID cfg) = true -> RInv σ -> pstep W cfg σ σ' -> RInv σ'.
Proof.
  intros Hroot [Hinv Hr] Hstep. split; [by eapply BInv_step|]. intros Hup'.
  destruct Hstep as [Hcall Hstep Hgos|pc rest pc' forks Hp Hstep Hp' Hst|pc rest Hp Hstep Hp' Hst].
  - unfold step_main in Hstep.
    destruct (mainpc σ) eqn:Hm; try done; repeat case_match; simplify_eq;
      cbn [mainpc with_main shared] in *; sh; try done; try (by apply Hr).
    + match goal with H : getOrganizationMetrics _ _ _ _ = _ |- _ =>
        apply getOrganizationMetrics_quiet in H as Hq;
        apply getOrganizationMetrics_Some in H as [Hres _]; destruct Hq as (Hq & _) end.
      rewrite Hq. apply envs_ready_app; [by apply Hr|]. simpl.
      by eapply inventory_within_ready.
    + match goal with H : getOrganizationMetrics _ _ _ _ = _ |- _ =>
        apply getOrganizationMetrics_quiet in H as (-> & _) end. by apply Hr.
  - pose proof (upto_built_same _ _ Hst Hup') as Hup.
    assert (in_build (mainpc σ) = true) as Hin.
    { unfold upto_built in Hup. destruct (mainpc σ) eqn:Hm; try done.
      unfold BInv in Hinv. rewrite Hm in Hinv. destruct Hinv as [_ Hg].
      unfold pool in Hp. rewrite Hm, Hg in Hp. by apply Permutation_nil_cons in Hp. }
    destruct (building_of_pool W cfg σ pc rest Hinv Hin Hp) as (head & Hb & _).
    destruct Hb as [_ _ [Hpc _]%Forall_cons _ _ _ _ _].
    eapply envs_ready_next; [done|by apply Hr|done].
  - pose proof (upto_built_return _ _ Hst Hup') as Hup.
    eapply envs_ready_return; [by apply Hr|done].
Qed.

Lemma RInv_initial : RInv initial.
Proof. split; [apply BInv_initial|]. intros _ l nd Hl. done. Qed.

Lemma envs_ready_enrichable h : envs_ready h -> enrichable W cfg h = true.
Proof.
  intros Hh. unfold enrichable. apply forallb_forall.
  intros nd (l & Hl)%list_elem_of_In%list_elem_of_lookup. by destruct (Hh l nd Hl).
Qed.

(** The enriched tree of the directory: what [main] has in hand when it
    starts writing. *)
Definition final_tree (D : nat) : Tree :=
  enrich_tree W cfg (directory_tree W cfg D (rootID cfg)).

(** The steps until the first file, at most. *)
Definition work (D : nat) : nat :=
  cost W cfg D (rootID cfg) + (2 + tree_cost (directory_tree W cfg D (rootID cfg))).

Lemma enrich_entry_eq σ head :
  mainpc σ = MEnrichAdd head -> gos σ = [] -> σ = enrich_entry (shared σ) head.
Proof. destruct σ. simpl. by intros -> ->. Qed.

Lemma invariants_from stop sched σ :
  PInv W cfg σ -> outside W cfg σ ->
  PInv W cfg (run_until W cfg stop sched σ) /\ outside W cfg (run_until W cfg stop sched σ).
Proof.
  intros H1 H2.
  apply (run_until_invariant W cfg (fun σ => PInv W cfg σ /\ outside W cfg σ)); [|done].
  intros σ1 σ2 [? ?] Hex Hstep. split; [by eapply PInv_step|by eapply outside_step].
Qed.

(** Whatever the schedule, [main] gets to the point where it writes the
    first file, with the enriched tree of the directory in hand. *)
Lemma reaches_write D k sched :
  flags_present cfg -> inventory_within D (rootID cfg) = true ->
  work D + k <= length sched ->
  exists head σ rest,
    run W cfg sched initial = run W cfg rest σ /\ k <= length rest /\
    mainpc σ = MWriteTree head /\ gos σ = [] /\ exited (shared σ) = None /\
    head_tree (shared σ) head = final_tree D /\
    PInv W cfg σ /\ outside W cfg σ.
Proof.
  intros Hflags Hroot Hlen. unfold work in Hlen.
  pose proof (inventory_within_hierarchy _ _ Hroot) as Hhier.
  set (c1 := cost W cfg D (rootID cfg)) in *.
  set (c2 := 2 + tree_cost (directory_tree W cfg D (rootID cfg))) in *.
  set (σb := run_until W cfg built (take c1 sched) initial).
  destruct (build_result W cfg D (take c1 sched) Hflags Hhier)
    as (head & Hm & Hg & Hex & Htree & _).
  { rewrite length_take. lia. }
  fold σb in Hm, Hg, Hex, Htree.
  pose proof (BInv_run W cfg built (take c1 sched)) as Hinv. fold σb in Hinv.
  unfold BInv in Hinv. rewrite Hm in Hinv. destruct Hinv as [[Hr Hheap _ _ _ _ _ [Hw Hf]] _].
  assert (RInv σb) as [_ Hready].
  { apply (run_until_invariant W cfg RInv); [|apply RInv_initial].
    intros σ1 σ2 H1 _ H2. by eapply RInv_step. }
  specialize (Hready ltac:(by rewrite Hm)).
  destruct (invariants_from built (take c1 sched) initial (PInv_initial W cfg)
              (outside_initial W cfg)) as [Hp Ho]. fold σb in Hp, Ho.
  destruct (run_until_run built (take c1 sched) (drop c1 sched) initial)
    as (rest1 & Hlen1 & Hrun1).
  { fold σb. unfold built. by rewrite Hm. }
  rewrite take_drop in Hrun1. fold σb in Hrun1. rewrite length_drop in Hlen1.
  rewrite (enrich_entry_eq σb head Hm Hg) in Hrun1.
  set (σw := run_until W cfg enriched (take c2 rest1) (enrich_entry (shared σb) head)).
  destruct (enrich_result W cfg (take c2 rest1) (shared σb) head)
    as (Hm' & Hg' & Hex' & _ & _ & _ & Htree'); try done.
  { by apply heap_ok_linked. }
  { by apply envs_ready_enrichable. }
  { destruct Hr as (nd & Hnd & _). by eapply lookup_lt_Some. }
  { unfold enrich_cost. fold (head_tree (shared σb) head). rewrite Htree, length_take.
    fold c2. lia. }
  fold σw in Hm', Hg', Hex', Htree'.
  destruct (invariants_from enriched (take c2 rest1) (enrich_entry (shared σb) head))
    as [Hp' Ho']; [by rewrite <- (enrich_entry_eq σb head Hm Hg)..|].
  fold σw in Hp', Ho'.
  destruct (run_until_run enriched (take c2 rest1) (drop c2 rest1)
              (enrich_entry (shared σb) head)) as (rest2 & Hlen2 & Hrun2).
  { fold σw. unfold enriched. by rewrite Hm'. }
  rewrite take_drop in Hrun2. fold σw in Hrun2. rewrite length_drop in Hlen2.
  exists head, σw, rest2. split_and!; try done.
  - by rewrite Hrun1, Hrun2.
  - lia.
  - rewrite Htree', Htree. done.
Qed.

(** *** The two files *)

Lemma write_and_report_ok data filename s b n :
  MarshalIndent W data = inl b -> osCreate W filename = None ->
  fileWrite W filename b = (n, None) ->
  write_and_report W data filename s
  = print (PrintWrote n) (add_file filename (take (Z.to_nat n) b) s).
Proof.
  intros Hm Hc Hw. unfold write_and_report, writeMetricsFile. by rewrite Hm, Hc, Hw.
Qed.

(** From the first write on, the main goroutine is alone: three steps, or
    one if the first file cannot be written. *)
Lemma tail_run σ head rest :
  mainpc σ = MWriteTree head -> gos σ = [] -> exited (shared σ) = None ->
  3 <= length rest ->
  let t := head_tree (shared σ) head in
  let s1 := write_and_report W (SnapTree t) (tree_file cfg) (shared σ) in
  let values := rangeMap W (flattenTree t ∅) in
  let s2 := fold_left (fun s value => print (PrintOrganization value) s) values s1 in
  let s3 := write_and_report W (SnapFlat values) (flat_file cfg) s2 in
  run W cfg rest σ =
  match exited s1 with
  | Some _ => with_main σ (MFlatten head) s1
  | None => with_main σ MReturned (match exited s3 with Some _ => s3 | None => os_Exit 0%Z s3 end)
  end.
Proof.
  intros Hm Hg Hex Hlen. cbv zeta.
  destruct rest as [|k1 [|k2 [|k3 rest]]]; simpl in Hlen; try lia.
  rewrite (run_main k1 _ σ (with_main σ (MFlatten head)
             (write_and_report W (SnapTree (head_tree (shared σ) head)) (tree_file cfg)
                (shared σ)))); [|done|done|by unfold step_main; rewrite Hm].
  set (s1 := write_and_report W (SnapTree (head_tree (shared σ) head)) (tree_file cfg)
               (shared σ)).
  destruct (exited s1) as [code|] eqn:Hex1.
  { apply run_exited. simpl. congruence. }
  assert (head_tree s1 head = head_tree (shared σ) head) as Ht.
  { unfold head_tree, s1.
    by destruct (write_and_report_world W (SnapTree (head_tree (shared σ) head))
                   (tree_file cfg) (shared σ)) as (_ & -> & _). }
  rewrite (run_main k2 _ _ (with_main (with_main σ (MFlatten head) s1)
             (MWriteFlat (rangeMap W (flattenTree (head_tree s1 head) ∅)))
             (fold_left (fun s value => print (PrintOrganization value) s)
                (rangeMap W (flattenTree (head_tree s1 head) ∅)) s1))); [|done..].
  rewrite Ht.
  set (values := rangeMap W (flattenTree (head_tree (shared σ) head) ∅)).
  set (s2 := fold_left (fun s value => print (PrintOrganization value) s) values s1).
  assert (exited s2 = None) as Hex2.
  { unfold s2. destruct (prints_world values s1) as (_ & _ & _ & _ & -> & _). done. }
  rewrite (run_main k3 _ _ (with_main (with_main (with_main σ (MFlatten head) s1)
                                          (MWriteFlat values) s2) MReturned
             (match exited (write_and_report W (SnapFlat values) (flat_file cfg) s2) with
              | Some _ => write_and_report W (SnapFlat values) (flat_file cfg) s2
              | None => os_Exit 0%Z (write_and_report W (SnapFlat values) (flat_file cfg) s2)
              end))); [|done..].
  rewrite run_exited; [done|]. simpl.
  destruct (exited (write_and_report _ _ _ _)) eqn:Hex3; simpl; congruence.
Qed.

End Whole.

(** ** More on the flattener *)

Lemma index_all_dom (orgs : list Organization) (m : gmap string Organization) :
  dom (index_all orgs m) = dom m ∪ list_to_set (map Organization.Name orgs).
Proof.
  revert m. induction orgs as [|o orgs IH]; intros m; simpl.
  - by rewrite (right_id_L ∅ (∪)).
  - unfold index_all in *. simpl. rewrite IH, dom_insert_L.
    rewrite (comm_L (∪) {[Organization.Name o]} (dom m)). by rewrite <- (assoc_L (∪)).
Qed.

Lemma index_all_fmap (f : Organization -> Organization) orgs (m : gmap string Organization) :
  (forall o, Organization.Name (f o) = Organization.Name o) ->
  index_all (map f orgs) (f <$> m) = f <$> index_all orgs m.
Proof.
  intros Hf. revert m. induction orgs as [|o orgs IH]; intros m; [done|].
  unfold index_all in *. simpl. rewrite Hf, <- fmap_insert. apply IH.
Qed.

Lemma tree_orgs_enrich W cfg t :
  tree_orgs (enrich_tree W cfg t) = map (enrich_org W cfg) (tree_orgs t).
Proof.
  induction t as [o cs IH] using Tree_ind'. simpl. f_equal.
  rewrite map_map. induction IH as [|c cs Hc _ IHcs]; [done|].
  simpl. by rewrite map_app, Hc, IHcs.
Qed.

(** ** The store after [InitTree] *)

(** Two environments that differ in their applications at most. *)
Definition env_shape (e e' : option Environment) : Prop :=
  match e, e' with
  | Some x, Some y =>
      Environment.ID y = Environment.ID x /\ Environment.Name y = Environment.Name x
  | None, None => True
  | _, _ => False
  end.

(** Two nodes that differ in the applications of their environments at
    most. *)
Definition same_shape (nd nd' : Node) : Prop :=
  mux nd' = mux nd /\ Children nd' = Children nd /\
  Organization.Name (BusinessOrganization nd') = Organization.Name (BusinessOrganization nd) /\
  Organization.ID (BusinessOrganization nd') = Organization.ID (BusinessOrganization nd) /\
  Organization.SubOrganizationIds (BusinessOrganization nd')
  = Organization.SubOrganizationIds (BusinessOrganization nd) /\
  Forall2 env_shape (Organization.Environments (BusinessOrganization nd))
          (Organization.Environments (BusinessOrganization nd')).

Lemma env_shape_refl e : env_shape e e.
Proof. by destruct e. Qed.

Lemma same_shape_refl nd : same_shape nd nd.
Proof.
  unfold same_shape. split_and!; try done.
  apply Forall_Forall2_diag, Forall_forall. intros e _. apply env_shape_refl.
Qed.

Lemma same_shape_store nd nd' i apps :
  same_shape nd nd' -> same_shape nd (set_applications i apps nd').
Proof.
  intros (Hm & Hc & Hn & Hi & Hs & He). unfold same_shape. simpl. split_and!; try done.
  apply Forall2_alter_r; [done|]. intros e e' _ _.
  destruct e as [x|], e' as [y|]; simpl; done.
Qed.

Section Shape.
Context (W : Collaborators) (cfg : Config).

Lemma shape_next h pc s pc' forks s' :
  is_enrich pc -> Forall2 same_shape h (heap s) ->
  step_pc W cfg pc s = Next pc' forks s' -> Forall2 same_shape h (heap s').
Proof.
  intros Hpc Hh Hstep.
  destruct pc as [p|p vs|p n vs|p n vs|p n vs|p n vs|p n vs|p i|p i apps|p [|c cs]|p c cs|ph p|];
    simpl in Hpc; try done; simpl in Hstep; repeat case_match; simplify_eq; sh; try done.
  - match goal with H : getDeployedArtifacts _ _ _ _ = _ |- _ =>
      apply getDeployedArtifacts_quiet in H as (-> & _) end. done.
  - match goal with H : getDeployedArtifacts _ _ _ _ = _ |- _ =>
      apply getDeployedArtifacts_quiet in H as (-> & _) end. done.
  - apply Forall2_alter_r; [done|]. intros nd nd' _ _. apply same_shape_store.
  - unfold wg_Done. case_match; by sh.
Qed.

Lemma heap_return pc s s' : step_pc W cfg pc s = Return s' -> heap s' = heap s.
Proof.
  intros Hstep.
  destruct pc as [p|p [|v vs]|p n vs|p n vs|p n vs|p n vs|p n vs|p i|p i apps|p [|c cs]|p c cs|ph p|];
    simpl in Hstep; repeat case_match; simplify_eq; unfold wg_Done; case_match; by sh.
Qed.

(** Once [InitTree] has returned, a step changes applications at most. *)
Definition SInv (h : list Node) (σ : State) : Prop :=
  PInv W cfg σ /\ in_build (mainpc σ) = false /\ Forall2 same_shape h (heap (shared σ)).

Lemma heap_write_and_report data filename s :
  heap (write_and_report W data filename s) = heap s.
Proof. by destruct (write_and_report_world W data filename s) as (_ & ? & _). Qed.

Lemma heap_prints (values : list Organization) s :
  heap (fold_left (fun s value => print (PrintOrganization value) s) values s) = heap s.
Proof. by destruct (prints_world values s) as (? & _). Qed.

Lemma SInv_step h σ σ' : SInv h σ -> exited (shared σ) = None -> pstep W cfg σ σ' -> SInv h σ'.
Proof.
  intros (Hinv & Hin & Hh) Hex Hstep. split; [by eapply PInv_step|].
  destruct Hstep as [Hcall Hmain Hgos|pc rest pc' forks Hp Hs Hp' Hst|pc rest Hp Hs Hp' Hst].
  - unfold step_main in Hmain.
    destruct (mainpc σ) as [| |head|head pc|head|head|head pc|head|head|head|values|] eqn:Hmpc;
      try done; repeat case_match; simplify_eq; cbn [mainpc with_main shared]; sh;
      rewrite ?heap_write_and_report, ?heap_prints; done.
  - assert (pc ∈ pool σ) as Hpc by (rewrite Hp; by left).
    split.
    + apply same_stage_of in Hst. by destruct (mainpc σ), (mainpc σ').
    + eapply shape_next; [|done..].
      destruct (pool_cases W cfg σ pc Hinv Hpc) as [(Hb & _)|[(_ & ? & _)| ->]]; try done.
      by destruct (mainpc σ).
  - split.
    + apply return_stage_of in Hst. by destruct (mainpc σ), (mainpc σ').
    + by rewrite (heap_return _ _ _ Hs).
Qed.

End Shape.

(** ** Panics *)

(** Some node of the store has an environment that is a nil pointer. *)
Definition has_nil (h : list Node) : Prop :=
  exists l nd i,
    h !! l = Some nd /\
    Organization.Environments (BusinessOrganization nd) !! i = Some None.

(** The call is panicking, or has brought the process down. *)
Definition doomed (pc : PC) : bool :=
  match pc with Panicking _ _ | Crashing => true | _ => false end.

Definition children_valid (h : list Node) : Prop :=
  forall l nd, h !! l = Some nd -> Forall (fun c => c < length h) (Children nd).

(** The nodes a call of [generateApplications] has in hand are in the
    store. *)
Definition on_store (n : nat) (pc : PC) : Prop :=
  match pc with
  | EEnv p _ | EStore p _ _ => p < n
  | EChild p cs => p < n /\ Forall (fun c => c < n) cs
  | EGo p c cs => p < n /\ c < n /\ Forall (fun c => c < n) cs
  | _ => True
  end.

Lemma has_nil_store h p i apps :
  has_nil h -> has_nil (alter (set_applications i apps) p h).
Proof.
  intros (l & nd & j & Hl & Hj). destruct (decide (l = p)) as [->|Hne].
  - exists p, (set_applications i apps nd), j. split.
    + rewrite list_lookup_alter_eq. by rewrite Hl.
    + simpl. destruct (decide (j = i)) as [->|Hji].
      * rewrite list_lookup_alter_eq. by rewrite Hj.
      * by rewrite list_lookup_alter_ne.
  - exists l, nd, j. split; [|done]. by rewrite list_lookup_alter_ne.
Qed.

Lemma children_valid_store h p i apps :
  children_valid h -> children_valid (alter (set_applications i apps) p h).
Proof.
  intros Hh l nd Hl. rewrite length_alter. destruct (decide (l = p)) as [->|Hne].
  - rewrite list_lookup_alter_eq in Hl. destruct (h !! p) as [nd0|] eqn:Hp; simplify_eq/=.
    by eapply Hh.
  - rewrite list_lookup_alter_ne in Hl by done. by eapply Hh.
Qed.

Section Panics.
Context (W : Collaborators) (cfg : Config).

Lemma on_store_next pc s pc' forks s' :
  children_valid (heap s) -> on_store (length (heap s)) pc -> is_enrich pc ->
  step_pc W cfg pc s = Next pc' forks s' ->
  length (heap s') = length (heap s) /\ children_valid (heap s') /\
  on_store (length (heap s)) pc' /\ Forall (on_store (length (heap s))) forks /\
  Forall (fun f => doomed f = false) forks /\
  (has_nil (heap s) -> has_nil (heap s')) /\
  (doomed pc' = true -> doomed pc = true \/ has_nil (heap s')).
Proof.
  intros Hh Hon Hen Hstep.
  destruct pc as [p|p vs|p n vs|p n vs|p n vs|p n vs|p n vs|p i|p i apps|p [|c cs]|p c cs|ph p|];
    simpl in Hen; try done; simpl in Hstep, Hon; try done.
  - (* EEnv *)
    destruct (lookup_lt_is_Some_2 _ _ Hon) as [nd Hnd]. rewrite Hnd in Hstep.
    destruct (Organization.Environments (BusinessOrganization nd) !! i) as [[env|]|] eqn:Hi.
    + destruct (getDeployedArtifacts W cfg (Environment.ID env) s) as [[b|] s0] eqn:Hget;
        simplify_eq; apply getDeployedArtifacts_quiet in Hget as (-> & _);
        split_and!; simpl; auto.
    + simplify_eq. split_and!; simpl; auto. intros _. right. by exists p, nd, i.
    + simplify_eq. split_and!; simpl; eauto.
  - (* EStore *)
    simplify_eq. sh. rewrite length_alter. split_and!; simpl; auto.
    + by apply children_valid_store.
    + by apply has_nil_store.
  - destruct Hon as (? & [? ?]%Forall_cons). simplify_eq. sh. split_and!; simpl; auto.
  - destruct Hon as (? & ? & ?). simplify_eq. split_and!; simpl; auto.
  - destruct ph; [done|]. simplify_eq.
    assert (heap (wg_Done Enrich p s) = heap s) as -> by (unfold wg_Done; case_match; by sh).
    split_and!; simpl; auto.
  - simplify_eq. sh. split_and!; simpl; auto.
Qed.

Lemma build_not_doomed σ pc :
  PInv W cfg σ -> in_build (mainpc σ) = true -> pc ∈ pool σ -> doomed pc = false.
Proof.
  intros Hinv Hin Hpc.
  destruct (pool_cases W cfg σ pc Hinv Hpc) as [(_ & Hok & _)|[(Hst & _)| ->]].
  - by destruct pc.
  - by destruct (mainpc σ).
  - unfold PInv, BInv, nothing_yet, pool in *. destruct Hinv as [_ Hinv].
    destruct (mainpc σ) eqn:Hm; try done.
    + destruct Hinv as ((Hg & _) & _). rewrite Hg in Hpc. by apply elem_of_nil in Hpc.
    + destruct Hinv as ((Hg & _) & _). rewrite Hg in Hpc. by apply elem_of_nil in Hpc.
    + destruct Hinv as ((Hg & _) & _). rewrite Hg in Hpc. by apply elem_of_nil in Hpc.
    + destruct Hinv as [_ _ Hth _ _ _ _ _]. rewrite Forall_forall in Hth.
      by destruct (Hth _ Hpc).
    + destruct Hinv as [_ _ Hth _ _ _ _ _]. rewrite Forall_forall in Hth.
      by destruct (Hth _ Hpc).
Qed.

(** Only a call that is crashing ends the process with code 2. *)
Lemma exit2_cause σ pc s' :
  PInv W cfg σ -> pc ∈ pool σ -> exited (shared σ) = None ->
  effect W cfg pc (shared σ) s' -> exited s' = Some 2%Z -> pc = Crashing.
Proof.
  intros Hinv Hin Hex Heff Hx.
  destruct Heff as [_ (_ & _ & _ & _ & Hx')|p v vs r s0 -> Hget (_ & _ & _ & _ & Hx')
                   |p i e r s0 -> Hget (_ & _ & _ & _ & Hx')|ph msg Hu Hneg _|msg -> _].
  - congruence.
  - apply getOrganizationMetrics_world in Hget as (_ & _ & _ & Herr).
    destruct (call_error _ _ _); destruct Herr as (_ & _ & ?); congruence.
  - apply getDeployedArtifacts_world in Hget as (_ & _ & _ & Herr).
    destruct (call_error _ _ _); [destruct Herr as (_ & _ & ?); congruence|].
    destruct Herr as (_ & [[_ ?]|[_ ?]]); congruence.
  - pose proof (counter_positive W cfg σ pc ph Hinv Hin Hu). lia.
  - done.
Qed.

Lemma step_main_facts σ σ' :
  in_call (mainpc σ) = false -> step_main W cfg σ = Some σ' ->
  exited (shared σ) = None ->
  exited (shared σ') <> Some 2%Z /\
  (in_build (mainpc σ') = false ->
   heap (shared σ') = heap (shared σ) /\
   (forall pc, pc ∈ pool σ' ->
      pc ∈ pool σ \/ exists head, mainpc σ = MEnrichAdd head /\ pc = EEnv head 0) /\
   (forall head, mainpc σ' = MEnrichAdd head -> mainpc σ = MBuildWait head)).
Proof.
  intros Hcall Hstep Hex. unfold step_main in Hstep.
  destruct (mainpc σ) as [| |head|head pc|head|head|head pc|head|head|head|values|] eqn:Hmpc;
    try done; repeat case_match; simplify_eq; cbn [mainpc with_main shared]; sh.
  all: try (match goal with H : getOrganizationMetrics _ _ _ _ = _ |- _ =>
              apply getOrganizationMetrics_world in H as (_ & _ & _ & Herr);
              destruct (call_error _ _ _); destruct Herr as (? & _ & Hx) end).
  all: rewrite ?heap_write_and_report, ?heap_prints.
  all: unfold pool; cbn [mainpc with_main shared gos]; rewrite ?Hmpc.
  all: split; [try congruence|try done].
  all: try (intros _; split_and!; [done|by auto|done]).
  - intros _. split_and!; [done|by auto|]. by intros ? [= ->].
  - intros _. split_and!; [done| |done]. intros pc [->|Hpc]%elem_of_cons; eauto.
  - destruct (write_and_report_world W (SnapTree (head_tree (shared σ) head))
                (outdir cfg +:+ "/metrics.json") (shared σ)) as (_ & _ & Hw).
    destruct (write_error _ _ _); [destruct Hw as (? & _)|destruct Hw as (? & _ & _ & ? & _)];
      congruence.
  - destruct (prints_world (rangeMap W (flattenTree (head_tree (shared σ) head) ∅))
                (shared σ)) as (_ & _ & _ & _ & ? & _). congruence.
  - destruct (write_and_report_world W (SnapFlat values)
                (outdir cfg +:+ "/metrics_flat.json") (shared σ)) as (_ & _ & Hw).
    destruct (write_error _ _ _); [destruct Hw as (? & _)|destruct Hw as (? & _ & _ & ? & _)];
      congruence.
Qed.

Definition NInv (σ : State) : Prop :=
  PInv W cfg σ /\ BInv W cfg σ /\
  (in_build (mainpc σ) = false ->
   children_valid (heap (shared σ)) /\
   Forall (on_store (length (heap (shared σ)))) (pool σ) /\
   (forall head, mainpc σ = MEnrichAdd head -> head < length (heap (shared σ)))) /\
  (Exists (fun pc => doomed pc = true) (pool σ) \/ exited (shared σ) = Some 2%Z ->
   has_nil (heap (shared σ))).

Lemma NInv_initial : NInv initial.
Proof.
  split_and!; [apply PInv_initial|apply BInv_initial|done|].
  intros [H|H]; [|done]. by apply Exists_nil in H.
Qed.

Lemma NInv_step σ σ' :
  NInv σ -> exited (shared σ) = None -> pstep W cfg σ σ' -> NInv σ'.
Proof.
  intros (Hp & Hb & Hv & Hn) Hex Hstep.
  assert (PInv W cfg σ') as Hp' by by eapply PInv_step.
  assert (BInv W cfg σ') as Hb' by by eapply BInv_step.
  assert (forall pc, doomed pc = true -> pc ∈ pool σ -> has_nil (heap (shared σ))) as Hdoom.
  { intros pc Hd Hin. apply Hn. left. apply Exists_exists. eauto. }
  assert (in_build (mainpc σ') = true ->
          ~ Exists (fun pc => doomed pc = true) (pool σ')) as Hbuild.
  { intros Hin (pc & Hpc & Hd)%Exists_exists.
    rewrite (build_not_doomed σ' pc Hp' Hin Hpc) in Hd. done. }
  split_and!; [done|done|..].
  - (* the calls have their nodes *)
    intros Hin'.
    destruct Hstep as [Hcall Hmain Hgos|pc rest pc' forks Hpl Hs Hpl' Hst|pc rest Hpl Hs Hpl' Hst].
    + destruct (step_main_facts σ σ' Hcall Hmain Hex) as [_ Hfacts].
      destruct (Hfacts Hin') as (Hheap & Hpool & Hadd). rewrite Hheap.
      destruct (in_build (mainpc σ)) eqn:Hin.
      * (* InitTree has just returned *)
        unfold step_main in Hmain.
        destruct (mainpc σ) as [| |head|head pc|head|head|head pc|head|head|head|values|] eqn:Hm;
          try done; repeat case_match; simplify_eq; cbn [mainpc with_main shared] in *;
          try done.
        unfold BInv in Hb'. cbn [mainpc with_main shared gos pool] in Hb'.
        destruct Hb' as [[Hr Hheap' _ _ _ _ _ _] Hg]. split_and!.
        -- intros l nd Hl. destruct (Hheap' l nd Hl) as [_ Hc].
           eapply Forall_impl; [done|]. simpl. lia.
        -- unfold pool. cbn [mainpc with_main gos]. rewrite Hg. constructor.
        -- intros head' [= <-]. destruct Hr as (nd & Hnd & _). by eapply lookup_lt_Some.
      * destruct (Hv eq_refl) as (Hcv & Hon & Hhead). split_and!; [done| |].
        -- apply Forall_forall. intros pc Hpc. rewrite Forall_forall in Hon.
           destruct (Hpool pc Hpc) as [Hold|(head & Hm & ->)]; [by apply Hon|].
           simpl. by apply Hhead.
        -- intros head Hm. apply Hadd in Hm. rewrite Hm in Hin. done.
    + assert (in_build (mainpc σ) = false) as Hin.
      { apply same_stage_of in Hst. by destruct (mainpc σ), (mainpc σ'). }
      destruct (Hv Hin) as (Hcv & Hon & Hhead).
      assert (pc ∈ pool σ) as Hpc by (rewrite Hpl; by left).
      assert (is_enrich pc) as Hen.
      { destruct (pool_cases W cfg σ pc Hp Hpc) as [(Hbs & _)|[(_ & ? & _)| ->]]; try done.
        by destruct (mainpc σ). }
      rewrite Hpl in Hon. apply Forall_cons in Hon as [Hon Hrest].
      destruct (on_store_next pc _ pc' forks _ Hcv Hon Hen Hs)
        as (Hlen & Hcv' & Hon' & Hforks & _). rewrite Hlen.
      split_and!; [done| |].
      * rewrite Hpl'. constructor; [done|]. apply Forall_app. by split.
      * intros head Hm. apply Hhead. rewrite Hm in Hst.
        destruct (mainpc σ); simpl in Hst; try done.
    + assert (in_build (mainpc σ) = false) as Hin.
      { apply return_stage_of in Hst. by destruct (mainpc σ), (mainpc σ'). }
      destruct (Hv Hin) as (Hcv & Hon & Hhead). rewrite (heap_return W cfg _ _ _ Hs).
      rewrite Hpl in Hon. apply Forall_cons in Hon as [Hon Hrest].
      split_and!; [done|by rewrite Hpl'|].
      intros head Hm. apply Hhead. rewrite Hm in Hst.
      destruct (mainpc σ); simpl in Hst; destruct_or?; done.
  - (* a panic comes from a nil environment *)
    intros Hprem.
    destruct Hstep as [Hcall Hmain Hgos|pc rest pc' forks Hpl Hs Hpl' Hst|pc rest Hpl Hs Hpl' Hst].
    + destruct (step_main_facts σ σ' Hcall Hmain Hex) as [Hno Hfacts].
      destruct Hprem as [Hd|?]; [|done].
      destruct (in_build (mainpc σ')) eqn:Hin'; [by destruct (Hbuild eq_refl)|].
      destruct (Hfacts eq_refl) as (-> & Hpool & _).
      apply Exists_exists in Hd as (pc & Hpc & Hd).
      destruct (Hpool pc Hpc) as [Hold|(head & _ & ->)]; [by eapply Hdoom|done].
    + assert (pc ∈ pool σ) as Hpc by (rewrite Hpl; by left).
      destruct (in_build (mainpc σ')) eqn:Hin'.
      { destruct Hprem as [Hd|Hx]; [by destruct (Hbuild eq_refl)|].
        pose proof (exit2_cause σ pc _ Hp Hpc Hex (step_pc_next_effect W cfg _ _ _ _ _ Hs) Hx)
          as ->.
        assert (in_build (mainpc σ) = true) as Hin.
        { apply same_stage_of in Hst. by destruct (mainpc σ), (mainpc σ'). }
        by pose proof (build_not_doomed σ Crashing Hp Hin Hpc). }
      assert (in_build (mainpc σ) = false) as Hin.
      { apply same_stage_of in Hst. by destruct (mainpc σ), (mainpc σ'). }
      destruct (Hv Hin) as (Hcv & Hon & Hhead).
      assert (is_enrich pc) as Hen.
      { destruct (pool_cases W cfg σ pc Hp Hpc) as [(Hbs & _)|[(_ & ? & _)| ->]]; try done.
        by destruct (mainpc σ). }
      rewrite Hpl in Hon. apply Forall_cons in Hon as [Hon Hrest].
      destruct (on_store_next pc _ pc' forks _ Hcv Hon Hen Hs)
        as (_ & _ & _ & _ & Hforks & Hkeep & Hnew).
      destruct Hprem as [Hd|Hx].
      * rewrite Hpl' in Hd. apply Exists_cons in Hd as [Hd|Hd].
        -- destruct (Hnew Hd) as [Hold|?]; [|done]. by apply Hkeep, (Hdoom pc).
        -- apply Exists_app in Hd as [Hd|Hd].
           ++ apply Exists_exists in Hd as (x & Hx & Hd). apply Hkeep, (Hdoom x); [done|].
              rewrite Hpl. by right.
           ++ apply Exists_exists in Hd as (x & Hx & Hd). rewrite Forall_forall in Hforks.
              rewrite (Hforks x Hx) in Hd. done.
      * pose proof (exit2_cause σ pc _ Hp Hpc Hex (step_pc_next_effect W cfg _ _ _ _ _ Hs) Hx)
          as ->.
        by apply Hkeep, (Hdoom Crashing).
    + assert (pc ∈ pool σ) as Hpc by (rewrite Hpl; by left).
      rewrite (heap_return W cfg _ _ _ Hs). destruct Hprem as [Hd|Hx].
      * apply Exists_exists in Hd as (x & Hx & Hd). rewrite Hpl' in Hx.
        apply (Hdoom x); [done|]. rewrite Hpl. by right.
      * pose proof (exit2_cause σ pc _ Hp Hpc Hex (step_pc_return_effect W cfg _ _ _ Hs) Hx)
          as ->.
        by apply (Hdoom Crashing).
Qed.

(** [main]'s own call of [generateApplications] on a root whose environment
    [i] is nil, with the environments before it in order: two steps for each
    of those, then the panic, the deferred [g.Done()] and the crash. *)
Lemma nil_root_run o head i n : forall j σ sched,
  mainpc σ = MEnrich head (EEnv head j) -> gos σ = [] -> exited (shared σ) = None ->
  wgMain (shared σ) = 1%Z ->
  (exists nd, heap (shared σ) !! head = Some nd /\
     forall k, j <= k ->
       Organization.Environments (BusinessOrganization nd) !! k
       = Organization.Environments o !! k) ->
  Organization.Environments o !! i = Some None ->
  (forall k, k < i -> exists env apps,
     Organization.Environments o !! k = Some (Some env) /\
     inventory W cfg (Environment.ID env) = Some apps) ->
  j + n = i -> 2 * n + 3 <= length sched ->
  exited (shared (run W cfg sched σ)) = Some 2%Z /\
  files (shared (run W cfg sched σ)) = files (shared σ) /\
  stderr (shared (run W cfg sched σ))
  = stderr (shared σ) ++ ["invalid memory address or nil pointer dereference"].
Proof.
  induction n as [|n IH]; intros j σ sched Hm Hg Hex Hw (nd & Hnd & Henvs) Hnil Hok Hj Hlen.
  - assert (j = i) as -> by lia.
    destruct sched as [|k1 [|k2 [|k3 sched]]]; simpl in Hlen; try lia.
    rewrite (run_main W cfg k1 _ σ
               {| shared := shared σ; mainpc := MEnrich head (Panicking Enrich head);
                  gos := [] |}); [|done|done|].
    2:{ unfold step_main. rewrite Hm. simpl. rewrite Hnd, Henvs, Hnil by done.
        by rewrite Hg. }
    rewrite (run_main W cfg k2 _ _
               {| shared := wg_Done Enrich head (shared σ); mainpc := MEnrich head Crashing;
                  gos := [] |}); [|done|done|done].
    assert (wg_Done Enrich head (shared σ)
            = log_done Enrich head (set_wgMain (fun n => n - 1)%Z (shared σ))) as ->.
    { unfold wg_Done. simpl. rewrite Hw. done. }
    rewrite (run_main W cfg k3 _ _
               {| shared := panic "invalid memory address or nil pointer dereference"
                              (log_done Enrich head
                                 (set_wgMain (fun n => n - 1)%Z (shared σ)));
                  mainpc := MEnrich head Crashing; gos := [] |}); [|done|done|done].
    rewrite run_exited by done. done.
  - assert (j < i) as Hlt by lia.
    destruct (Hok j Hlt) as (env & apps & Hjo & Hinv).
    destruct (getDeployedArtifacts_inventory W cfg _ (shared σ) _ Hinv)
      as (b & s1 & Hget & Hdec & Hex1).
    pose proof (getDeployedArtifacts_quiet W cfg _ _ _ _ Hget) as (Hheap & _ & Hw1 & Hf1 & _).
    assert (stderr s1 = stderr (shared σ)) as He1.
    { apply getDeployedArtifacts_world in Hget as (_ & _ & _ & Herr).
      destruct (call_error _ _ _); [by destruct Herr|by destruct Herr as (? & _)]. }
    destruct sched as [|k1 [|k2 sched]]; simpl in Hlen; try lia.
    rewrite (run_main W cfg k1 _ σ
               {| shared := s1; mainpc := MEnrich head (EStore head j apps); gos := [] |});
      [|done|done|].
    2:{ unfold step_main. rewrite Hm. simpl. rewrite Hnd, Henvs, Hjo by done.
        rewrite Hget, Hdec. by rewrite Hg. }
    rewrite (run_main W cfg k2 _ _
               {| shared := set_heap (alter (set_applications j apps) head) s1;
                  mainpc := MEnrich head (EEnv head (S j)); gos := [] |});
      [|done|simpl; congruence|done].
    destruct (IH (S j)
                {| shared := set_heap (alter (set_applications j apps) head) s1;
                   mainpc := MEnrich head (EEnv head (S j)); gos := [] |} sched)
      as (Hx & Hf & He); simpl; try done; try lia; try congruence.
    + exists (set_applications j apps nd). split.
      * rewrite Hheap, list_lookup_alter_eq. by rewrite Hnd.
      * intros k Hk. simpl. rewrite list_lookup_alter_ne by lia. apply Henvs. lia.
    + simpl in Hf, He. rewrite Hx, Hf, He. by rewrite Hf1, He1.
Qed.

Lemma reaches_enrich D k sched :
  flags_present cfg -> hierarchy_within W cfg D (rootID cfg) = true ->
  cost W cfg D (rootID cfg) + k <= length sched ->
  exists head σ rest,
    run W cfg sched initial = run W cfg rest σ /\ k <= length rest /\
    mainpc σ = MEnrichAdd head /\ gos σ = [] /\ exited (shared σ) = None /\
    BInv W cfg σ /\ outside W cfg σ.
Proof.
  intros Hflags Hhier Hlen.
  set (c1 := cost W cfg D (rootID cfg)) in *.
  set (σb := run_until W cfg built (take c1 sched) initial).
  destruct (build_result W cfg D (take c1 sched) Hflags Hhier)
    as (head & Hm & Hg & Hex & _).
  { rewrite length_take. lia. }
  fold σb in Hm, Hg, Hex.
  destruct (run_until_run W cfg built (take c1 sched) (drop c1 sched) initial)
    as (rest & Hlen1 & Hrun).
  { fold σb. unfold built. by rewrite Hm. }
  rewrite take_drop in Hrun. fold σb in Hrun. rewrite length_drop in Hlen1.
  exists head, σb, rest. split_and!; try done; [lia|apply BInv_run|apply outside_run].
Qed.

Lemma NInv_run sched : NInv (run W cfg sched initial).
Proof.
  apply (run_until_invariant W cfg NInv); [|apply NInv_initial].
  intros σ1 σ2. apply NInv_step.
Qed.

End Panics.

(** ** The requests [InitTree] sends *)

Section Requests.
Context (W : Collaborators) (cfg : Config).

(** The identifiers of the hierarchy below [orgID], each as often as the
    directory lists it. *)
Fixpoint directory_ids (d : nat) (orgID : string) : list string :=
  match d with
  | O => []
  | S d' =>
      match resolve W cfg orgID with
      | Some o => orgID :: (Organization.SubOrganizationIds o ≫= directory_ids d')
      | None => []
      end
  end.

Lemma bind_nil_l {A B} (f : A -> list B) : [] ≫= f = [].
Proof. done. Qed.

Lemma bind_ext_Forall {A B} (f g : A -> list B) (l : list A) :
  Forall (fun x => f x = g x) l -> l ≫= f = l ≫= g.
Proof. induction 1 as [|x l Hx _ IH]; [done|]. by rewrite !bind_cons, Hx, IH. Qed.

Lemma directory_ids_fuel d d' orgID :
  hierarchy_within W cfg d orgID = true -> d <= d' ->
  directory_ids d' orgID = directory_ids d orgID.
Proof.
  revert d' orgID. induction d as [|d IH]; intros d' orgID Hw Hle; [done|].
  destruct d' as [|d']; [lia|]. simpl in *.
  destruct (resolve W cfg orgID) as [o|]; [|done]. f_equal.
  apply bind_ext_Forall. rewrite forallb_forall in Hw.
  apply Forall_forall. intros v Hv%list_elem_of_In. apply IH; [auto|lia].
Qed.

Lemma directory_ids_length d orgID :
  length (directory_ids d orgID) = directory_count W cfg d orgID.
Proof.
  revert orgID. induction d as [|d IH]; intros orgID; [done|]. simpl.
  destruct (resolve W cfg orgID) as [o|]; [|done]. simpl. f_equal.
  induction (Organization.SubOrganizationIds o) as [|v vs IHvs]; [done|].
  rewrite bind_cons, length_app, IH, IHvs. done.
Qed.

Context (D : nat).

Definition todo_ids (vs : list string) : list string := vs ≫= directory_ids D.

Definition enter_ids (h : list Node) (n : loc) : list string :=
  match h !! n with
  | Some nd => todo_ids (Organization.SubOrganizationIds (BusinessOrganization nd))
  | None => []
  end.

(** The requests a call of [buildOrgTree] and the calls it will start have
    still to send. *)
Definition pc_ids (h : list Node) (pc : PC) : list string :=
  match pc with
  | BEnter p => enter_ids h p
  | BLoop p vs => todo_ids vs
  | BLock p n vs | BAppend p n vs | BUnlock p n vs | BAdd p n vs | BGo p n vs =>
      enter_ids h n ++ todo_ids vs
  | _ => []
  end.

Definition pending (h : list Node) (threads : list PC) : list string :=
  threads ≫= pc_ids h.

Lemma pending_cons h pc rest : pending h (pc :: rest) = pc_ids h pc ++ pending h rest.
Proof. unfold pending. by rewrite bind_cons. Qed.

Lemma pending_app h l1 l2 : pending h (l1 ++ l2) = pending h l1 ++ pending h l2.
Proof. unfold pending. by rewrite bind_app. Qed.

Lemma pending_nil h : pending h [] = [].
Proof. done. Qed.

Lemma directory_ids_unfold v o :
  hierarchy_within W cfg D v = true -> resolve W cfg v = Some o ->
  directory_ids D v = v :: todo_ids (Organization.SubOrganizationIds o).
Proof.
  intros Hw Ho. destruct D as [|d] eqn:HD; [done|]. simpl. rewrite Ho. f_equal.
  unfold todo_ids. apply bind_ext_Forall.
  destruct (hierarchy_within_children W cfg _ _ _ Hw Ho) as [Hsub _]. simpl in Hsub.
  eapply Forall_impl; [done|]. intros c Hc. simpl in Hc. symmetry.
  apply directory_ids_fuel; [done|lia].
Qed.

Lemma enter_ids_kept h h' n :
  orgs_kept h h' -> n < length h -> enter_ids h' n = enter_ids h n.
Proof.
  intros Hk Hn. unfold enter_ids.
  destruct (lookup_lt_is_Some_2 _ _ Hn) as [nd Hnd]. rewrite Hnd.
  destruct (Hk _ _ Hnd) as (nd' & -> & ->). done.
Qed.

Lemma pc_ids_kept h h' pc :
  orgs_kept h h' -> thread_ok W cfg h pc -> pc_ids h' pc = pc_ids h pc.
Proof.
  intros Hk Hok.
  assert (forall l, l ∈ owned pc -> l < length h) as Hlt
      by (intros l; by eapply thread_ok_owned_lt).
  destruct pc; simpl in *; try done;
    rewrite (enter_ids_kept h h') by (try done; apply Hlt; own; tauto); done.
Qed.

Lemma pending_kept h h' rest :
  orgs_kept h h' -> Forall (thread_ok W cfg h) rest -> pending h' rest = pending h rest.
Proof.
  intros Hk Hall. apply bind_ext_Forall. eapply Forall_impl; [done|].
  intros pc Hpc. by apply pc_ids_kept.
Qed.

(** A step of a call leaves the requests sent and the requests to send
    the same, taken together. *)
Lemma requests_next head pc rest pc' forks s s' ds :
  building W cfg head (pc :: rest) s -> ids_within W cfg D (heap s) ->
  calls s = map DirectoryCall ds ->
  step_pc W cfg pc s = Next pc' forks s' ->
  exists ds', calls s' = map DirectoryCall ds' /\
              ds' ++ pending (heap s') (pc' :: rest ++ forks)
              ≡ₚ ds ++ pending (heap s) (pc :: rest).
Proof.
  intros [_ Hheap [Hpc Hrest]%Forall_cons Hown _ _ _ _] Hw Hcalls Hstep.
  assert (forall l, l ∈ owned pc -> l < length (heap s)) as Hlt
      by (intros l; by eapply thread_ok_owned_lt).
  assert (forall f, (forall nd, BusinessOrganization (f nd) = BusinessOrganization nd) ->
            forall p, pending (alter f p (heap s)) rest = pending (heap s) rest) as Halter.
  { intros f Hf p. apply pending_kept; [by apply orgs_kept_alter|done]. }
  rewrite !pending_cons, !pending_app.
  destruct pc; simpl in Hstep, Hpc; try done.
  - destruct Hpc as (nd & Hp & Hmux & Hch). rewrite Hp in Hstep. simplify_eq.
    exists ds. split; [done|]. rewrite pending_nil, app_nil_r. simpl.
    unfold enter_ids. by rewrite Hp.
  - destruct Hpc as (nd & ds0 & Hp & Hmux & Hids & Hch).
    destruct vs as [|v vs]; [done|].
    assert (hierarchy_within W cfg D v = true) as Hv.
    { specialize (Hw _ _ Hp). rewrite Hids in Hw.
      by apply Forall_app in Hw as [_ [Hv _]%Forall_cons]. }
    destruct (getOrganizationMetrics_within W cfg D v s Hv) as (b & s1 & Hget).
    rewrite Hget in Hstep. simplify_eq.
    apply getOrganizationMetrics_quiet in Hget as Hq. destruct Hq as (Hh & _).
    apply getOrganizationMetrics_calls in Hget as Hc.
    apply getOrganizationMetrics_Some in Hget as [Hres Hex1].
    exists (ds ++ [v]). sh. rewrite Hc, Hcalls, map_app. split; [done|].
    rewrite Hh, pending_nil, app_nil_r.
    rewrite (pending_kept (heap s) (heap s ++ _)) by (try done; apply orgs_kept_app).
    simpl. unfold enter_ids. rewrite list_lookup_middle by done. simpl.
    rewrite (directory_ids_unfold v _ Hv Hres). rewrite <- !app_assoc. simpl. done.
  - destruct Hpc as (nd & ds0 & v & (Hp & Hmux & Hids & Hch) & _).
    rewrite Hp, Hmux in Hstep. simplify_eq. sh. exists ds. split; [done|].
    rewrite pending_nil, app_nil_r, Halter by done. simpl.
    rewrite (enter_ids_kept (heap s)); [done|by apply orgs_kept_alter|apply Hlt; own; tauto].
  - simplify_eq. sh. exists ds. split; [done|].
    rewrite pending_nil, app_nil_r, Halter by done. simpl.
    rewrite (enter_ids_kept (heap s)); [done|by apply orgs_kept_alter|apply Hlt; own; tauto].
  - simplify_eq. sh. exists ds. split; [done|].
    rewrite pending_nil, app_nil_r, Halter by done. simpl.
    rewrite (enter_ids_kept (heap s)); [done|by apply orgs_kept_alter|apply Hlt; own; tauto].
  - simplify_eq. sh. exists ds. split; [done|]. by rewrite pending_nil, app_nil_r.
  - simplify_eq. exists ds. split; [done|]. rewrite pending_cons, pending_nil, app_nil_r.
    simpl. apply Permutation_app_head.
    rewrite (Permutation_app_comm (enter_ids (heap s') n) (todo_ids vs)), <- app_assoc.
    apply Permutation_app_head, Permutation_app_comm.
Qed.

Lemma requests_return head pc rest s s' ds :
  building W cfg head (pc :: rest) s ->
  calls s = map DirectoryCall ds ->
  step_pc W cfg pc s = Return s' ->
  calls s' = map DirectoryCall ds /\ heap s' = heap s /\
  ds ++ pending (heap s') rest ≡ₚ ds ++ pending (heap s) (pc :: rest).
Proof.
  intros [_ _ [Hpc Hrest]%Forall_cons _ _ _ _ _] Hcalls Hstep.
  pose proof (heap_return W cfg _ _ _ Hstep) as Hh.
  apply step_pc_return_world in Hstep as Hw. destruct Hw as [_ Hc].
  rewrite Hc, Hh. split; [done|]. split; [done|].
  destruct pc; simpl in Hpc; try done; simpl in Hstep; by repeat case_match.
Qed.

Global Instance pending_perm h : Proper ((≡ₚ) ==> (≡ₚ)) (pending h).
Proof. intros l1 l2 Hl. unfold pending. by rewrite Hl. Qed.

(** The requests sent so far and the requests still to send are, together,
    the identifiers of the hierarchy. *)
Definition QInv (σ : State) : Prop :=
  exists ds, calls (shared σ) = map DirectoryCall ds /\
    match mainpc σ with
    | MStart | MInitTree => ds = []
    | MBuildAdd head =>
        ds ++ enter_ids (heap (shared σ)) head ≡ₚ directory_ids D (rootID cfg)
    | MBuild _ _ | MBuildWait _ =>
        ds ++ pending (heap (shared σ)) (pool σ) ≡ₚ directory_ids D (rootID cfg)
    | MEnrichAdd _ => ds ≡ₚ directory_ids D (rootID cfg)
    | _ => True
    end.

Lemma QInv_step σ σ' :
  BInv W cfg σ -> TInv W cfg D σ -> QInv σ -> in_build (mainpc σ) = true ->
  pstep W cfg σ σ' -> QInv σ'.
Proof.
  intros Hinv (Hex & Hflags & Hroot & Hw) (ds & Hcalls & Hq) Hin
    [Hcall Hstep Hgos|pc rest pc' forks Hp Hstep Hp' Hst|pc rest Hp Hstep Hp' Hst].
  - unfold step_main in Hstep. unfold QInv, BInv, nothing_yet in *.
    destruct (mainpc σ) eqn:Hm; try done.
    + destruct (decide _) as [Hd|_]; [unfold flags_present in Hflags; tauto|].
      simplify_eq/=. by exists [].
    + destruct (getOrganizationMetrics_within W cfg D (rootID cfg) (shared σ) Hroot)
        as (b & s1 & Hget).
      rewrite Hget in Hstep. simplify_eq.
      apply getOrganizationMetrics_quiet in Hget as Hq'. destruct Hq' as (Hh & _).
      apply getOrganizationMetrics_calls in Hget as Hc.
      apply getOrganizationMetrics_Some in Hget as [Hres Hex1].
      cbn [mainpc with_main shared]. sh. exists [rootID cfg]. rewrite Hc, Hcalls.
      split; [done|]. unfold enter_ids. rewrite list_lookup_middle by done. simpl.
      by rewrite (directory_ids_unfold _ _ Hroot Hres).
    + simplify_eq. cbn [mainpc with_main shared pool gos]. sh.
      destruct Hinv as ((-> & _) & _). exists ds. split; [done|].
      rewrite pending_cons, pending_nil, app_nil_r. done.
    + destruct (decide _) as [Hz|_]; [|done]. simplify_eq.
      cbn [mainpc with_main shared]. exists ds. split; [done|].
      unfold pool in *. rewrite Hm in *.
      rewrite (building_idle W cfg _ _ _ Hinv Hz) in Hq.
      by rewrite pending_nil, app_nil_r in Hq.
  - destruct (building_of_pool W cfg σ pc rest Hinv Hin Hp) as (head & Hb & Hm).
    destruct (requests_next _ _ _ _ _ _ _ ds Hb Hw Hcalls Hstep) as (ds' & Hc' & Hperm).
    exists ds'. split; [done|].
    assert (ds ++ pending (heap (shared σ)) (pool σ) ≡ₚ directory_ids D (rootID cfg)) as Hq'.
    { destruct Hm as [[q Hm]|Hm]; by rewrite Hm in Hq. }
    assert (ds' ++ pending (heap (shared σ')) (pool σ') ≡ₚ directory_ids D (rootID cfg)) as Hgoal.
    { by rewrite Hp', Hperm, <- Hp. }
    destruct Hm as [[q Hm]|Hm]; rewrite Hm in Hst; destruct (mainpc σ') eqn:Hmm;
      simpl in Hst; try done.
  - destruct (building_of_pool W cfg σ pc rest Hinv Hin Hp) as (head & Hb & Hm).
    destruct (requests_return _ _ _ _ _ ds Hb Hcalls Hstep) as (Hc' & Hh & Hperm).
    exists ds. split; [done|].
    assert (ds ++ pending (heap (shared σ)) (pool σ) ≡ₚ directory_ids D (rootID cfg)) as Hq'.
    { destruct Hm as [[q Hm]|Hm]; by rewrite Hm in Hq. }
    assert (ds ++ pending (heap (shared σ')) (pool σ') ≡ₚ directory_ids D (rootID cfg)) as Hgoal.
    { by rewrite Hp', Hperm, <- Hp. }
    destruct Hm as [[q Hm]|Hm]; rewrite Hm in Hst; simpl in Hst; destruct_or?;
      rewrite Hst; done.
Qed.

Lemma step_main_upto σ σ' :
  step_main W cfg σ = Some σ' -> upto_built (mainpc σ') = true ->
  in_build (mainpc σ) = true.
Proof.
  unfold step_main. intros Hstep Hup.
  destruct (mainpc σ); try done; repeat case_match; simplify_eq; done.
Qed.

Lemma requests_run stop sched :
  flags_present cfg -> hierarchy_within W cfg D (rootID cfg) = true ->
  upto_built (mainpc (run_until W cfg stop sched initial)) = true ->
  QInv (run_until W cfg stop sched initial).
Proof.
  intros Hflags Hroot.
  assert (BInv W cfg (run_until W cfg stop sched initial) /\
          (upto_built (mainpc (run_until W cfg stop sched initial)) = true ->
           TInv W cfg D (run_until W cfg stop sched initial) /\
           QInv (run_until W cfg stop sched initial))) as [_ H]; [|tauto].
  apply (run_until_invariant W cfg
           (fun σ => BInv W cfg σ /\ (upto_built (mainpc σ) = true -> TInv W cfg D σ /\ QInv σ))).
  - intros σ1 σ2 [Hb Hrest] Hex Hstep. split; [by eapply BInv_step|]. intros Hup'.
    assert (in_build (mainpc σ1) = true) as Hin.
    { destruct Hstep as [Hcall Hs Hgos|pc rest pc' forks Hp Hs Hp' Hst|pc rest Hp Hs Hp' Hst].
      - by eapply step_main_upto.
      - pose proof (upto_built_same _ _ Hst Hup') as Hup. unfold upto_built in Hup.
        destruct (mainpc σ1) eqn:Hm; try done.
        unfold BInv in Hb. rewrite Hm in Hb. destruct Hb as [_ Hg].
        unfold pool in Hp. rewrite Hm, Hg in Hp. by apply Permutation_nil_cons in Hp.
      - pose proof (upto_built_return _ _ Hst Hup') as Hup. unfold upto_built in Hup.
        destruct (mainpc σ1) eqn:Hm; try done.
        unfold BInv in Hb. rewrite Hm in Hb. destruct Hb as [_ Hg].
        unfold pool in Hp. rewrite Hm, Hg in Hp. by apply Permutation_nil_cons in Hp. }
    destruct Hrest as [Ht Hq]; [unfold upto_built; by rewrite Hin|].
    split; [by eapply TInv_step|by eapply QInv_step].
  - split; [apply BInv_initial|]. intros _. split.
    + by split_and!.
    + by exists [].
Qed.

End Requests.

(** ** The requests [generateApplications] sends *)

(** The identifiers of the environments that are there. *)
Definition env_ids (envs : list (option Environment)) : list string :=
  omap (fun e => Environment.ID <$> e) envs.

(** The identifiers of the environments of a tree, node by node. *)
Fixpoint tree_env_ids (t : Tree) : list string :=
  let 'TNode o cs := t in
  env_ids (Organization.Environments o) ++ concat (map tree_env_ids cs).

Section Inventory.
Context (W : Collaborators) (cfg : Config).
Context (h0 : list Node) (Hlinked : linked h0) (Hable : enrichable W cfg h0 = true).

Definition subtree_ids (l : loc) : list string := tree_env_ids (tree_of (length h0) h0 l).

Definition kids_ids (cs : list loc) : list string := cs ≫= subtree_ids.

Definition envs0 (p : loc) : list (option Environment) :=
  match h0 !! p with
  | Some nd0 => Organization.Environments (BusinessOrganization nd0)
  | None => []
  end.

(** The requests a call of [generateApplications] and the calls it will
    start have still to send. *)
Definition epending (pc : PC) : list string :=
  match pc with
  | EEnv p i => env_ids (drop i (envs0 p)) ++ kids_ids (children0 h0 p)
  | EStore p i _ => env_ids (drop (S i) (envs0 p)) ++ kids_ids (children0 h0 p)
  | EChild p cs => kids_ids cs
  | EGo p c cs => subtree_ids c ++ kids_ids cs
  | _ => []
  end.

Lemma subtree_ids_unfold l nd0 :
  h0 !! l = Some nd0 ->
  subtree_ids l
  = env_ids (Organization.Environments (BusinessOrganization nd0)) ++ kids_ids (Children nd0).
Proof.
  intros Hl. unfold subtree_ids. rewrite (tree_of_unfold h0 l nd0) by done.
  cbn [tree_env_ids]. f_equal. unfold kids_ids.
  induction (Children nd0) as [|c cs IH]; [done|].
  rewrite bind_cons. cbn [map concat]. by rewrite IH.
Qed.

Lemma inventory_next head pc rest pc' forks s s' cs0 es :
  passing W cfg h0 head (pc :: rest) s ->
  calls s = cs0 ++ map InventoryCall es ->
  step_pc W cfg pc s = Next pc' forks s' ->
  exists es', calls s' = cs0 ++ map InventoryCall es' /\
              es' ++ epending pc' ++ (forks ≫= epending) ≡ₚ es ++ epending pc.
Proof.
  intros Hpass Hcalls Hstep.
  pose proof (p_like _ _ _ _ _ _ Hpass) as Hlike.
  pose proof (p_threads _ _ _ _ _ _ Hpass) as [Hpc Hrest]%Forall_cons.
  destruct pc as [| | | | | | |p i|p i apps|p cs|p c cs| |]; simpl in Hpc; try done.
  - (* EEnv *)
    destruct Hpc as (nd0 & Hp0 & Hslots).
    destruct (heap_like_lookup _ _ _ _ _ _ Hlike Hp0) as (nd & Hnd & Hm & Hc & _ & _ & _ & Henv).
    simpl in Hstep. rewrite Hnd in Hstep.
    destruct (Organization.Environments (BusinessOrganization nd) !! i) as [e|] eqn:Hi.
    + destruct (Forall2_lookup_l _ _ _ _ _ Henv Hi) as (e0 & Hi0 & Hrel).
      destruct (enrichable_lookup W cfg h0 p nd0 i e0 Hable Hp0 Hi0) as (env0 & apps & -> & Hinv).
      assert (exists env, e = Some env /\ Environment.ID env = Environment.ID env0)
        as (env & -> & Hid).
      { destruct Hrel as [->| ->]; [by eexists|]. simpl. rewrite Hinv. by eexists. }
      rewrite Hid in Hstep.
      destruct (getDeployedArtifacts_inventory W cfg _ s _ Hinv) as (b & s1 & Hget & Hdec & Hex1).
      rewrite Hget in Hstep. simplify_eq.
      apply getDeployedArtifacts_calls in Hget as (Hc' & _).
      exists (es ++ [Environment.ID env0]). rewrite Hc', Hcalls, map_app, app_assoc.
      split; [done|]. rewrite bind_nil_l, app_nil_r. cbn [epending].
      unfold envs0. rewrite Hp0. rewrite (drop_S _ _ _ Hi0). simpl.
      by rewrite <- !app_assoc.
    + simplify_eq. exists es. split; [done|]. rewrite bind_nil_l, app_nil_r. cbn [epending].
      unfold envs0, children0. rewrite Hp0, Hc.
      rewrite drop_ge; [done|]. apply lookup_ge_None in Hi. apply Forall2_length in Henv. lia.
  - (* EStore *)
    simpl in Hstep. simplify_eq. sh. exists es. split; [done|].
    by rewrite bind_nil_l, app_nil_r.
  - (* EChild *)
    simpl in Hstep. destruct cs as [|c cs]; simplify_eq. sh. exists es. split; [done|].
    rewrite bind_nil_l, app_nil_r. cbn [epending]. unfold kids_ids. by rewrite bind_cons.
  - (* EGo *)
    destruct Hpc as (nd0 & ds & Hp0 & Hd & Hc & Hcov).
    simpl in Hstep. simplify_eq. exists es. split; [done|].
    assert (is_Some (h0 !! c)) as [ndc Hndc].
    { apply lookup_lt_is_Some. pose proof (Hlinked _ _ Hp0) as Hf.
      rewrite Hc, Forall_app, Forall_cons in Hf. lia. }
    rewrite bind_cons, bind_nil_l, app_nil_r. cbn [epending].
    rewrite (subtree_ids_unfold c ndc Hndc). unfold envs0, children0. rewrite Hndc, drop_0.
    apply Permutation_app_head, Permutation_app_comm.
Qed.

Lemma inventory_return head pc rest s s' :
  passing W cfg h0 head (pc :: rest) s ->
  step_pc W cfg pc s = Return s' ->
  calls s' = calls s /\ epending pc = [].
Proof.
  intros Hpass Hstep. apply step_pc_return_world in Hstep as Hw. destruct Hw as [_ Hc].
  split; [done|].
  pose proof (p_threads _ _ _ _ _ _ Hpass) as [Hpc Hrest]%Forall_cons.
  destruct pc as [| | | | | | |p i|p i apps|p [|c cs]|p c cs| |]; simpl in Hpc; try done;
    simpl in Hstep; by repeat case_match.
Qed.

(** The requests sent since the pass started and the requests still to
    send are, together, the environments of the tree. *)
Definition IQ (head : loc) (cs0 : list Call) (σ : State) : Prop :=
  exists es, calls (shared σ) = cs0 ++ map InventoryCall es /\
    match mainpc σ with
    | MEnrichAdd _ => es = []
    | MEnrich _ _ | MEnrichWait _ => es ++ (pool σ ≫= epending) ≡ₚ subtree_ids head
    | MWriteTree _ => es ≡ₚ subtree_ids head
    | _ => True
    end.

Lemma IQ_step head cs0 σ σ' :
  EInv W cfg h0 head σ -> IQ head cs0 σ -> enriched σ = false ->
  pstep W cfg σ σ' -> IQ head cs0 σ'.
Proof.
  intros Hinv (es & Hcalls & Hq) Hin
    [Hcall Hstep Hgos|pc rest pc' forks Hp Hstep Hp' Hst|pc rest Hp Hstep Hp' Hst].
  - unfold step_main in Hstep. unfold IQ, EInv, enriched in *.
    destruct (mainpc σ) eqn:Hm; try done.
    + destruct Hinv as (-> & Hg & Hh & Hlt & _). simplify_eq.
      cbn [mainpc with_main shared pool gos]. sh. exists []. rewrite Hg.
      split; [done|]. rewrite bind_cons, bind_nil_l, app_nil_r. cbn [epending].
      destruct (lookup_lt_is_Some_2 h0 head Hlt) as [nd0 Hnd0].
      rewrite (subtree_ids_unfold head nd0 Hnd0). unfold envs0, children0.
      by rewrite Hnd0, drop_0.
    + destruct (decide _) as [Hz|_]; [|done]. simplify_eq.
      cbn [mainpc with_main shared]. exists es. split; [done|].
      destruct Hinv as (-> & Hpass). unfold pool in *. rewrite Hm in *.
      rewrite (passing_idle W cfg h0 _ _ _ Hpass Hz) in Hq.
      by rewrite bind_nil_l, app_nil_r in Hq.
  - assert (exists r, passing W cfg h0 head (pool σ) (shared σ) /\
                      es ++ (pool σ ≫= epending) ≡ₚ subtree_ids head /\
                      (mainpc σ = MEnrichWait r \/ exists q, mainpc σ = MEnrich r q))
      as (r & Hpass & Hq' & Hm).
    { unfold EInv, enriched in *. destruct (mainpc σ) eqn:Hm; try done.
      - destruct Hinv as (_ & Hg & _). unfold pool in Hp. rewrite Hm, Hg in Hp.
        by apply Permutation_nil_cons in Hp.
      - destruct Hinv as (-> & Hpass). eauto 10.
      - destruct Hinv as (-> & Hpass). eauto 10. }
    rewrite Hp in Hpass.
    destruct (inventory_next _ _ _ _ _ _ _ cs0 es Hpass Hcalls Hstep) as (es' & Hc' & Hperm).
    exists es'. split; [done|].
    assert (es' ++ (pool σ' ≫= epending) ≡ₚ subtree_ids head) as Hgoal.
    { rewrite Hp', bind_cons, bind_app.
      rewrite <- Hq', Hp, bind_cons.
      rewrite (Permutation_app_comm (rest ≫= epending) (forks ≫= epending)).
      rewrite !app_assoc. apply Permutation_app_tail. by rewrite <- !app_assoc. }
    destruct Hm as [Hm|[q Hm]]; rewrite Hm in Hst; destruct (mainpc σ') eqn:Hmm;
      simpl in Hst; simplify_eq; done.
  - assert (exists r, passing W cfg h0 head (pool σ) (shared σ) /\
                      es ++ (pool σ ≫= epending) ≡ₚ subtree_ids head /\
                      (mainpc σ = MEnrichWait r \/ exists q, mainpc σ = MEnrich r q))
      as (r & Hpass & Hq' & Hm).
    { unfold EInv, enriched in *. destruct (mainpc σ) eqn:Hm; try done.
      - destruct Hinv as (_ & Hg & _). unfold pool in Hp. rewrite Hm, Hg in Hp.
        by apply Permutation_nil_cons in Hp.
      - destruct Hinv as (-> & Hpass). eauto 10.
      - destruct Hinv as (-> & Hpass). eauto 10. }
    rewrite Hp in Hpass.
    destruct (inventory_return _ _ _ _ _ Hpass Hstep) as (Hc' & Hnil).
    exists es. rewrite Hc'. split; [done|].
    assert (es ++ (pool σ' ≫= epending) ≡ₚ subtree_ids head) as Hgoal.
    { rewrite Hp'. rewrite <- Hq', Hp, bind_cons, Hnil. done. }
    destruct Hm as [Hm|[q Hm]]; rewrite Hm in Hst; simpl in Hst; destruct_or?;
      rewrite Hst; done.
Qed.

Lemma IQ_run head cs0 sched : forall σ,
  EInv W cfg h0 head σ -> IQ head cs0 σ ->
  IQ head cs0 (run_until W cfg enriched sched σ).
Proof.
  induction sched as [|k sched IH]; intros σ Hinv Hq; [done|].
  rewrite run_until_cons. destruct (enriched σ) eqn:Hin; [done|].
  destruct (enabled W cfg σ) as [|tid0 tids]; [done|].
  destruct (step_at W cfg _ σ) as [σ'|] eqn:Hstep; [|done].
  apply step_at_pstep in Hstep as [Hex Hstep].
  apply IH; [by eapply EInv_step|by eapply IQ_step].
Qed.

End Inventory.

(** * Properties of the whole program *)

(** A marshaller that shows what it is given: the name of every
    organization, the identifier of every environment and the domain of every
    application. *)
Definition ex_render_env (e : option Environment) : string :=
  match e with
  | None => "null"
  | Some e =>
      Environment.ID e +:+ "[" +:+
      String.concat ","
        (map (fun a => match a with Some a => Domain a | None => "null" end)
           (Environment.Applications e)) +:+ "]"
  end.

Definition ex_render_org (o : Organization) : string :=
  Organization.Name o +:+ "{" +:+
  String.concat "," (map ex_render_env (Organization.Environments o)) +:+ "}".

Fixpoint ex_render_tree (t : Tree) : string :=
  let 'TNode o cs := t in
  ex_render_org o +:+ "(" +:+ String.concat "," (map ex_render_tree cs) +:+ ")".

Definition ex_world_render : Collaborators :=
  {| RemoteDirectory := RemoteDirectory ex_world;
     RemoteInventory := RemoteInventory ex_world;
     UnmarshalOrganization := UnmarshalOrganization ex_world;
     UnmarshalApplications := UnmarshalApplications ex_world;
     MarshalIndent := fun data =>
       inl (ex_body match data with
                    | SnapTree head => ex_render_tree head
                    | SnapFlat values => String.concat ";" (map ex_render_org values)
                    end);
     osCreate := osCreate ex_world;
     fileWrite := fileWrite ex_world;
     rangeMap := rangeMap ex_world |}.

(** X1. When the three flags are given, the hierarchy below the root is
    finite, every request goes through, no environment is missing, the
    inventory answers 200 and both files can be written, the program ends
    with exit code 0 under every schedule: nothing is on standard error,
    [metrics.json] holds the marshalled tree of the directory with the
    applications of every environment, [metrics_flat.json] the marshalled
    values of the map made from that tree, and standard output holds the
    status lines of the requests, in some order, then the first byte count,
    the values in the order of the [range], and the second byte count.  The
    tree of the directory with the applications ([final_tree]) is unfolded
    from the answers of the directory and of the inventory and from
    [json.Unmarshal], by [resolve], [inventory] and [enrich_tree], not from
    what the program does. *)
Theorem main_writes_both_files W cfg D sched b1 n1 b2 n2 :
  flags_present cfg ->
  inventory_within W cfg D (rootID cfg) = true ->
  MarshalIndent W (SnapTree (final_tree W cfg D)) = inl b1 ->
  osCreate W (tree_file cfg) = None ->
  fileWrite W (tree_file cfg) b1 = (n1, None) ->
  MarshalIndent W (SnapFlat (rangeMap W (flattenTree (final_tree W cfg D) ∅))) = inl b2 ->
  osCreate W (flat_file cfg) = None ->
  fileWrite W (flat_file cfg) b2 = (n2, None) ->
  work W cfg D + 3 <= length sched ->
  mainpc (run W cfg sched initial) = MReturned /\
  gos (run W cfg sched initial) = [] /\
  exited (shared (run W cfg sched initial)) = Some 0%Z /\
  stderr (shared (run W cfg sched initial)) = [] /\
  files (shared (run W cfg sched initial))
  = [(tree_file cfg, take (Z.to_nat n1) b1); (flat_file cfg, take (Z.to_nat n2) b2)] /\
  exists lines,
    lines ≡ₚ status_lines W cfg (calls (shared (run W cfg sched initial))) /\
    stdout (shared (run W cfg sched initial))
    = lines ++
      [PrintWrote n1] ++
      map PrintOrganization (rangeMap W (flattenTree (final_tree W cfg D) ∅)) ++
      [PrintWrote n2].
Proof.
  intros Hflags Hroot Hm1 Hc1 Hw1 Hm2 Hc2 Hw2 Hlen.
  destruct (reaches_write W cfg D 3 sched Hflags Hroot Hlen)
    as (head & σ & rest & -> & Hrest & Hm & Hg & Hex & Ht & _ & Hout).
  rewrite (tail_run W cfg σ head rest Hm Hg Hex Hrest). cbv zeta. rewrite Ht.
  rewrite (write_and_report_ok W _ _ _ b1 n1 Hm1 Hc1 Hw1). sh. rewrite Hex.
  rewrite (write_and_report_ok W _ _ _ b2 n2 Hm2 Hc2 Hw2). sh.
  destruct (prints_world (rangeMap W (flattenTree (final_tree W cfg D) ∅))
              (print (PrintWrote n1)
                 (add_file (tree_file cfg) (take (Z.to_nat n1) b1) (shared σ))))
    as (_ & Hcalls & Herr & Hfiles & Hexit & Hstd).
  rewrite Hexit. sh. rewrite Hex. cbn [mainpc gos with_main shared]. sh.
  rewrite Hcalls, Herr, Hfiles, Hstd. sh.
  pose proof (o_files W cfg σ Hout) as Hf. rewrite Hm in Hf. simpl in Hf.
  rewrite Hf, (o_stderr W cfg σ Hout) by auto.
  rewrite (o_stdout W cfg σ Hout Hflags) by (unfold before_files; by rewrite Hm).
  split_and!; try done. exists (status_lines W cfg (calls (shared σ))).
  split; [done|]. by rewrite <- !app_assoc.
Qed.

Lemma main_writes_both_files_witness :
  mainpc (run ex_world_render ex_cfg ex_second_child_first initial) = MReturned /\
  gos (run ex_world_render ex_cfg ex_second_child_first initial) = [] /\
  exited (shared (run ex_world_render ex_cfg ex_second_child_first initial)) = Some 0%Z /\
  stderr (shared (run ex_world_render ex_cfg ex_second_child_first initial)) = [] /\
  files (shared (run ex_world_render ex_cfg ex_second_child_first initial))
  = [("./metrics.json", ex_body "A{}(B{env-1[x.example]}(D{}()),C{}())");
     ("./metrics_flat.json", ex_body "C{};A{};B{env-1[x.example]};D{}")] /\
  stdout (shared (run ex_world_render ex_cfg ex_second_child_first initial))
  = [PrintWrote 37;
     PrintOrganization (Organization.mk "C" "org-3" [] []);
     PrintOrganization (Organization.mk "A" "org-1" ["org-2"; "org-3"] []);
     PrintOrganization
       (Organization.mk "B" "org-2" ["org-4"]
          [Some (Environment.mk "env-1" "production" [Some ex_app])]);
     PrintOrganization (Organization.mk "D" "org-4" [] []);
     PrintWrote 31].
Proof.
  destruct (main_writes_both_files ex_world_render ex_cfg 3 ex_second_child_first
              (ex_body "A{}(B{env-1[x.example]}(D{}()),C{}())") 37%Z
              (ex_body "C{};A{};B{env-1[x.example]};D{}") 31%Z)
    as (Hm & Hg & Hex & Herr & Hfiles & lines & Hlines & Hout); try reflexivity.
  - by split_and!.
  - vm_compute. lia.
  - split_and!; [exact Hm|exact Hg|exact Hex|exact Herr| |].
    + vm_compute. reflexivity.
    + vm_compute. reflexivity.
Defined.

(** The file system refuses to create any file. *)
Definition ex_world_readonly : Collaborators :=
  {| RemoteDirectory := RemoteDirectory ex_world;
     RemoteInventory := RemoteInventory ex_world;
     UnmarshalOrganization := UnmarshalOrganization ex_world;
     UnmarshalApplications := UnmarshalApplications ex_world;
     MarshalIndent := MarshalIndent ex_world;
     osCreate := fun filename => Some ("open " +:+ filename +:+ ": permission denied");
     fileWrite := fileWrite ex_world;
     rangeMap := rangeMap ex_world |}.

(** The disk is full after the first file and one more byte. *)
Definition ex_world_full : Collaborators :=
  {| RemoteDirectory := RemoteDirectory ex_world;
     RemoteInventory := RemoteInventory ex_world;
     UnmarshalOrganization := UnmarshalOrganization ex_world;
     UnmarshalApplications := UnmarshalApplications ex_world;
     MarshalIndent := MarshalIndent ex_world;
     osCreate := osCreate ex_world;
     fileWrite := fun filename b =>
       if decide (filename = "./metrics.json") then (Z.of_nat (length b), None)
       else (1%Z, Some "write ./metrics_flat.json: no space left on device");
     rangeMap := rangeMap ex_world |}.

(** X2. When [metrics.json] cannot be written (the tree cannot be
    marshalled, the file cannot be created or the write fails), the program
    ends with exit code 1 and the error on standard error, under every
    schedule: no byte count is printed, no value of the map is printed and
    [metrics_flat.json] is not created. *)
Theorem tree_write_error_is_fatal W cfg D sched err :
  flags_present cfg ->
  inventory_within W cfg D (rootID cfg) = true ->
  write_error W (SnapTree (final_tree W cfg D)) (tree_file cfg) = Some err ->
  work W cfg D + 3 <= length sched ->
  exited (shared (run W cfg sched initial)) = Some 1%Z /\
  stderr (shared (run W cfg sched initial)) = [err] /\
  stdout (shared (run W cfg sched initial))
  = status_lines W cfg (calls (shared (run W cfg sched initial))) /\
  (files (shared (run W cfg sched initial)) = [] \/
   exists b, files (shared (run W cfg sched initial)) = [(tree_file cfg, b)]).
Proof.
  intros Hflags Hroot Herr Hlen.
  destruct (reaches_write W cfg D 3 sched Hflags Hroot Hlen)
    as (head & σ & rest & -> & Hrest & Hm & Hg & Hex & Ht & _ & Hout).
  rewrite (tail_run W cfg σ head rest Hm Hg Hex Hrest). cbv zeta. rewrite Ht.
  destruct (write_and_report_world W (SnapTree (final_tree W cfg D)) (tree_file cfg) (shared σ))
    as (Hc & _ & Hw).
  rewrite Herr in Hw. destruct Hw as (Hx & He & Ho & Hf). rewrite Hx.
  cbn [shared with_main]. rewrite Hx, He, Ho, Hc.
  pose proof (o_files W cfg σ Hout) as Hf0. rewrite Hm in Hf0. simpl in Hf0.
  rewrite (o_stderr W cfg σ Hout) by auto.
  rewrite (o_stdout W cfg σ Hout Hflags) by (unfold before_files; by rewrite Hm).
  split_and!; try done.
  destruct Hf as [->|(b & _ & _ & ->)]; rewrite Hf0; eauto.
Qed.

Lemma tree_write_error_is_fatal_witness :
  exited (shared (run ex_world_readonly ex_cfg ex_main_first initial)) = Some 1%Z /\
  stderr (shared (run ex_world_readonly ex_cfg ex_main_first initial))
  = ["open ./metrics.json: permission denied"] /\
  stdout (shared (run ex_world_readonly ex_cfg ex_main_first initial))
  = status_lines ex_world_readonly ex_cfg
      (calls (shared (run ex_world_readonly ex_cfg ex_main_first initial))) /\
  (files (shared (run ex_world_readonly ex_cfg ex_main_first initial)) = [] \/
   exists b, files (shared (run ex_world_readonly ex_cfg ex_main_first initial))
             = [(tree_file ex_cfg, b)]).
Proof.
  apply (tree_write_error_is_fatal ex_world_readonly ex_cfg 3 ex_main_first); try reflexivity.
  - by split_and!.
  - vm_compute. lia.
Defined.

(** X3. When [metrics.json] is written and [metrics_flat.json] cannot be,
    the program ends with exit code 1 and the error on standard error, under
    every schedule: [metrics.json] is left as it was written, the first byte
    count and the values of the map have been printed, and the second byte
    count is not printed. *)
Theorem flat_write_error_is_fatal W cfg D sched b1 n1 err :
  flags_present cfg ->
  inventory_within W cfg D (rootID cfg) = true ->
  MarshalIndent W (SnapTree (final_tree W cfg D)) = inl b1 ->
  osCreate W (tree_file cfg) = None ->
  fileWrite W (tree_file cfg) b1 = (n1, None) ->
  write_error W (SnapFlat (rangeMap W (flattenTree (final_tree W cfg D) ∅))) (flat_file cfg)
  = Some err ->
  work W cfg D + 3 <= length sched ->
  exited (shared (run W cfg sched initial)) = Some 1%Z /\
  stderr (shared (run W cfg sched initial)) = [err] /\
  stdout (shared (run W cfg sched initial))
  = status_lines W cfg (calls (shared (run W cfg sched initial))) ++
    [PrintWrote n1] ++
    map PrintOrganization (rangeMap W (flattenTree (final_tree W cfg D) ∅)) /\
  exists rest,
    files (shared (run W cfg sched initial))
    = (tree_file cfg, take (Z.to_nat n1) b1) :: rest /\
    (rest = [] \/ exists b, rest = [(flat_file cfg, b)]).
Proof.
  intros Hflags Hroot Hm1 Hc1 Hw1 Herr Hlen.
  destruct (reaches_write W cfg D 3 sched Hflags Hroot Hlen)
    as (head & σ & rest & -> & Hrest & Hm & Hg & Hex & Ht & _ & Hout).
  rewrite (tail_run W cfg σ head rest Hm Hg Hex Hrest). cbv zeta. rewrite Ht.
  rewrite (write_and_report_ok W _ _ _ b1 n1 Hm1 Hc1 Hw1). sh. rewrite Hex.
  set (values := rangeMap W (flattenTree (final_tree W cfg D) ∅)) in *.
  set (s1 := print (PrintWrote n1)
               (add_file (tree_file cfg) (take (Z.to_nat n1) b1) (shared σ))).
  destruct (prints_world values s1) as (_ & Hcalls & Herr2 & Hfiles & Hexit & Hstd).
  set (s2 := fold_left (fun s value => print (PrintOrganization value) s) values s1) in *.
  destruct (write_and_report_world W (SnapFlat values) (flat_file cfg) s2) as (Hc & _ & Hw).
  rewrite Herr in Hw. destruct Hw as (Hx & He & Ho & Hf). rewrite Hx.
  cbn [shared with_main]. rewrite Hx, He, Ho, Hc, Hcalls, Herr2, Hstd. unfold s1. sh.
  pose proof (o_files W cfg σ Hout) as Hf0. rewrite Hm in Hf0. simpl in Hf0.
  rewrite (o_stderr W cfg σ Hout) by auto.
  rewrite (o_stdout W cfg σ Hout Hflags) by (unfold before_files; by rewrite Hm).
  split_and!; try done; [by rewrite <- !app_assoc|].
  destruct Hf as [->|(b & _ & _ & ->)]; rewrite Hfiles; unfold s1; sh; rewrite Hf0; simpl; eauto.
Qed.

Lemma flat_write_error_is_fatal_witness :
  exited (shared (run ex_world_full ex_cfg ex_main_first initial)) = Some 1%Z /\
  stderr (shared (run ex_world_full ex_cfg ex_main_first initial))
  = ["write ./metrics_flat.json: no space left on device"] /\
  stdout (shared (run ex_world_full ex_cfg ex_main_first initial))
  = status_lines ex_world_full ex_cfg
      (calls (shared (run ex_world_full ex_cfg ex_main_first initial))) ++
    [PrintWrote 2] ++
    map PrintOrganization (rangeMap ex_world_full (flattenTree (final_tree ex_world_full ex_cfg 3) ∅)) /\
  exists rest,
    files (shared (run ex_world_full ex_cfg ex_main_first initial))
    = (tree_file ex_cfg, take (Z.to_nat 2) (ex_body "{}")) :: rest /\
    (rest = [] \/ exists b, rest = [(flat_file ex_cfg, b)]).
Proof.
  apply (flat_write_error_is_fatal ex_world_full ex_cfg 3 ex_main_first (ex_body "{}") 2%Z);
    try reflexivity.
  - by split_and!.
  - vm_compute. lia.
Defined.

(** X4. Exit code 0 means that both files were written without an error,
    from one and the same tree, and that nothing went to standard error:
    whatever the directory, the inventory and the file system do, and under
    every schedule. *)
Theorem exit_zero_means_both_files W cfg sched :
  exited (shared (run W cfg sched initial)) = Some 0%Z ->
  mainpc (run W cfg sched initial) = MReturned /\
  stderr (shared (run W cfg sched initial)) = [] /\
  exists t,
    write_error W (SnapTree t) (tree_file cfg) = None /\
    write_error W (SnapFlat (rangeMap W (flattenTree t ∅))) (flat_file cfg) = None /\
    files (shared (run W cfg sched initial)) =
      [(tree_file cfg, (written W (SnapTree t) (tree_file cfg)).2);
       (flat_file cfg,
        (written W (SnapFlat (rangeMap W (flattenTree t ∅))) (flat_file cfg)).2)].
Proof.
  intros Hex. pose proof (outside_run W cfg (fun _ => false) sched) as Hout.
  fold (run W cfg) in Hout.
  pose proof (o_exit0 W cfg _ Hout Hex) as Hm.
  pose proof (o_files W cfg _ Hout) as Hf. rewrite Hm in Hf. simpl in Hf.
  destruct Hf as [_ Hf]. split_and!; [done|apply (o_stderr W cfg _ Hout); by right|auto].
Qed.

Lemma exit_zero_means_both_files_witness :
  exited (shared (run ex_world ex_cfg ex_main_first initial)) = Some 0%Z /\
  mainpc (run ex_world ex_cfg ex_main_first initial) = MReturned /\
  stderr (shared (run ex_world ex_cfg ex_main_first initial)) = [] /\
  exists t,
    write_error ex_world (SnapTree t) (tree_file ex_cfg) = None /\
    write_error ex_world (SnapFlat (rangeMap ex_world (flattenTree t ∅))) (flat_file ex_cfg)
    = None /\
    files (shared (run ex_world ex_cfg ex_main_first initial)) =
      [(tree_file ex_cfg, (written ex_world (SnapTree t) (tree_file ex_cfg)).2);
       (flat_file ex_cfg,
        (written ex_world (SnapFlat (rangeMap ex_world (flattenTree t ∅)))
           (flat_file ex_cfg)).2)].
Proof.
  split; [reflexivity|].
  apply (exit_zero_means_both_files ex_world ex_cfg ex_main_first). reflexivity.
Defined.

(** The directory is down for org-3. *)
Definition ex_world_down : Collaborators :=
  {| RemoteDirectory := fun _ _ orgID =>
       if decide (orgID = "org-3") then RequestFailed "dial tcp: i/o timeout"
       else Response 200%Z (inl (ex_body orgID));
     RemoteInventory := RemoteInventory ex_world;
     UnmarshalOrganization := UnmarshalOrganization ex_world;
     UnmarshalApplications := UnmarshalApplications ex_world;
     MarshalIndent := MarshalIndent ex_world;
     osCreate := osCreate ex_world;
     fileWrite := fileWrite ex_world;
     rangeMap := rangeMap ex_world |}.

(** X5. A request that fails ([http.NewRequest] or [client.Do] returns an
    error, or the body cannot be read) ends the process through
    [errorCheck]: once such a request has been sent, the exit code is 1, the
    error is on standard error and no file has been written.  This holds for
    the directory and for the inventory, under every schedule. *)
Theorem failed_request_is_fatal W cfg sched c err :
  c ∈ calls (shared (run W cfg sched initial)) ->
  call_error W cfg c = Some err ->
  exited (shared (run W cfg sched initial)) = Some 1%Z /\
  files (shared (run W cfg sched initial)) = [] /\
  err ∈ stderr (shared (run W cfg sched initial)).
Proof.
  intros Hc Herr. pose proof (outside_run W cfg (fun _ => false) sched) as Hout.
  by apply (o_failed W cfg _ Hout c err).
Qed.

Lemma failed_request_is_fatal_witness :
  DirectoryCall "org-3" ∈ calls (shared (run ex_world_down ex_cfg ex_main_first initial)) /\
  exited (shared (run ex_world_down ex_cfg ex_main_first initial)) = Some 1%Z /\
  files (shared (run ex_world_down ex_cfg ex_main_first initial)) = [] /\
  "dial tcp: i/o timeout" ∈ stderr (shared (run ex_world_down ex_cfg ex_main_first initial)).
Proof.
  assert (DirectoryCall "org-3"
            ∈ calls (shared (run ex_world_down ex_cfg ex_main_first initial))) as Hin.
  { apply list_elem_of_In. vm_compute. tauto. }
  split; [exact Hin|].
  apply (failed_request_is_fatal ex_world_down ex_cfg ex_main_first (DirectoryCall "org-3"));
    [exact Hin|reflexivity].
Defined.

(** X6. The two phases do not overlap: at every point of every run, the
    requests sent so far are requests to the directory followed by requests
    to the inventory, and none has gone to the inventory while [InitTree]
    has not returned. *)
Theorem directory_requests_precede_inventory_requests W cfg sched :
  exists ds es,
    calls (shared (run W cfg sched initial)) = map DirectoryCall ds ++ map InventoryCall es /\
    (in_build (mainpc (run W cfg sched initial)) = true -> es = []).
Proof.
  pose proof (outside_run W cfg (fun _ => false) sched) as Hout.
  destruct (o_calls W cfg _ Hout) as (ds & es & Hc & Hb). exists ds, es. split; [done|].
  intros Hin. apply Hb. fold (run W cfg). by destruct (mainpc (run W cfg sched initial)).
Qed.

(** X7. No call ever waits for a mutex: at every point of every run, each
    call that is running can take its next step.  Only the call that runs
    on a node locks the mutex of that node. *)
Theorem no_call_waits_for_a_mutex W cfg sched :
  Forall (fun pc => step_pc W cfg pc (shared (run W cfg sched initial)) <> Blocked)
         (pool (run W cfg sched initial)).
Proof.
  apply Forall_forall. intros pc Hin. apply pool_moves; [|done]. apply PInv_run.
Qed.

(** X8. No state of a run is a deadlock: at every point of every run,
    unless the process has exited, some goroutine can take a step, and when
    the main goroutine cannot (it is held in a [g.Wait()]), a call of the
    pool can.  This is progress and not termination: whether a [g.Wait()]
    is ever passed depends on the directory (C1 and X1 give it for a finite
    hierarchy, X20 shows that it never is for a cyclic one). *)
Theorem run_never_deadlocks W cfg sched :
  exited (shared (run W cfg sched initial)) = None ->
  (exists tid σ',
     tid <= length (gos (run W cfg sched initial)) /\
     step_at W cfg tid (run W cfg sched initial) = Some σ') /\
  (step_main W cfg (run W cfg sched initial) = None ->
   exists i σ',
     i < length (gos (run W cfg sched initial)) /\
     step_go W cfg i (run W cfg sched initial) = Some σ').
Proof.
  intros Hex.
  destruct (run_progress W cfg (run W cfg sched initial)) as (tid & σ' & Hle & Hstep);
    [apply PInv_run|apply outside_run|done|].
  split; [by exists tid, σ'|]. intros Hmain.
  unfold step_at in Hstep. rewrite Hex in Hstep.
  destruct tid as [|i]; [congruence|]. exists i, σ'. split; [lia|done].
Qed.

Lemma run_never_deadlocks_witness :
  exited (shared (run ex_world ex_cfg (repeat 0 29) initial)) = None /\
  (exists tid σ',
     tid <= length (gos (run ex_world ex_cfg (repeat 0 29) initial)) /\
     step_at ex_world ex_cfg tid (run ex_world ex_cfg (repeat 0 29) initial) = Some σ') /\
  (step_main ex_world ex_cfg (run ex_world ex_cfg (repeat 0 29) initial) = None ->
   exists i σ',
     i < length (gos (run ex_world ex_cfg (repeat 0 29) initial)) /\
     step_go ex_world ex_cfg i (run ex_world ex_cfg (repeat 0 29) initial) = Some σ').
Proof.
  split; [reflexivity|].
  apply (run_never_deadlocks ex_world ex_cfg (repeat 0 29)). reflexivity.
Defined.

(** X9. The deferred [g.Done()] of a call that returns never panics: at
    every point of every run, the WaitGroup a returning call signals counts
    that call, so the counter goes down by one and stays at zero or above. *)
Theorem done_never_panics W cfg sched pc s' :
  pc ∈ pool (run W cfg sched initial) ->
  step_pc W cfg pc (shared (run W cfg sched initial)) = Return s' ->
  exited s' = exited (shared (run W cfg sched initial)) /\
  stderr s' = stderr (shared (run W cfg sched initial)) /\
  exists ph p,
    dones s' = dones (shared (run W cfg sched initial)) ++ [(ph, p)] /\
    wg_counter ph s' = (wg_counter ph (shared (run W cfg sched initial)) - 1)%Z /\
    (0 <= wg_counter ph s')%Z.
Proof.
  intros Hin Hstep. pose proof (PInv_run W cfg (fun _ => false) sched) as Hinv.
  fold (run W cfg) in Hinv. set (σ := run W cfg sched initial) in *.
  assert (exists ph p, 1 <= units ph pc /\ s' = wg_Done ph p (shared σ)) as (ph & p & Hu & ->).
  { destruct pc as [q|q [|v vs]|q n vs|q n vs|q n vs|q n vs|q n vs|q i|q i apps|q [|c cs]|q c cs|ph q|];
      simpl in Hstep; repeat case_match; simplify_eq.
    - exists Build, q. simpl. auto.
    - exists Enrich, q. simpl. auto. }
  pose proof (counter_positive W cfg σ pc ph Hinv Hin Hu) as Hpos.
  unfold wg_Done. destruct (decide _) as [Hneg|_]; [lia|].
  split_and!; [by destruct ph..|]. exists ph, p. destruct ph; sh; split_and!; try done; lia.
Qed.

(** The main goroutine runs until its own call of [buildOrgTree] is about
    to return. *)
Definition ex_first_return : list nat := repeat 0 16.

Lemma done_never_panics_witness :
  BLoop 0 [] ∈ pool (run ex_world ex_cfg ex_first_return initial) /\
  exited (wg_Done Build 0 (shared (run ex_world ex_cfg ex_first_return initial)))
  = exited (shared (run ex_world ex_cfg ex_first_return initial)) /\
  stderr (wg_Done Build 0 (shared (run ex_world ex_cfg ex_first_return initial)))
  = stderr (shared (run ex_world ex_cfg ex_first_return initial)) /\
  exists ph p,
    dones (wg_Done Build 0 (shared (run ex_world ex_cfg ex_first_return initial)))
    = dones (shared (run ex_world ex_cfg ex_first_return initial)) ++ [(ph, p)] /\
    wg_counter ph (wg_Done Build 0 (shared (run ex_world ex_cfg ex_first_return initial)))
    = (wg_counter ph (shared (run ex_world ex_cfg ex_first_return initial)) - 1)%Z /\
    (0 <= wg_counter ph (wg_Done Build 0 (shared (run ex_world ex_cfg ex_first_return initial))))%Z.
Proof.
  assert (BLoop 0 [] ∈ pool (run ex_world ex_cfg ex_first_return initial)) as Hin.
  { apply list_elem_of_In. vm_compute. tauto. }
  split; [exact Hin|].
  apply (done_never_panics ex_world ex_cfg ex_first_return (BLoop 0 [])); [exact Hin|reflexivity].
Defined.

(** X10. [flattenTree] on a map that already has entries: the keys
    afterwards are the keys before and the names of the tree; an entry under
    a name that is not in the tree is left as it was, and the entry under a
    name of the tree does not depend on what the map held. *)
Theorem flattenTree_into_map t (m : gmap string Organization) :
  dom (flattenTree t m) = dom m ∪ list_to_set (map Organization.Name (tree_orgs t)) /\
  (forall k, k ∉ map Organization.Name (tree_orgs t) -> flattenTree t m !! k = m !! k) /\
  (forall k, k ∈ map Organization.Name (tree_orgs t) ->
             flattenTree t m !! k = flattenTree t ∅ !! k).
Proof.
  rewrite !flattenTree_index_all. split_and!.
  - apply index_all_dom.
  - intros k Hk. rewrite index_all_lookup. apply filter_name_nil in Hk. by rewrite Hk.
  - intros k Hk. rewrite !index_all_lookup.
    destruct (last _) as [o|] eqn:Hl; [done|].
    apply last_None in Hl. apply filter_name_nil in Hl. done.
Qed.

(** X11. Flattening the same tree into the map a second time changes
    nothing, and a map filled from empty never has more entries than the
    tree has nodes. *)
Theorem flattenTree_twice t (m : gmap string Organization) :
  flattenTree t (flattenTree t m) = flattenTree t m /\
  size (flattenTree t ∅) <= tree_size t.
Proof.
  rewrite !flattenTree_index_all, tree_size_orgs. split; [|apply index_all_size].
  apply map_eq. intros k. rewrite !index_all_lookup. by destruct (last _).
Qed.

(** Environment [e'] is environment [e] with the applications the inventory
    reports for its identifier. *)
Definition reported_applications (W : Collaborators) (cfg : Config)
    (e e' : option Environment) : Prop :=
  exists environment applications,
    e = Some environment /\
    inventory W cfg (Environment.ID environment) = Some applications /\
    e' = Some (Environment.mk (Environment.ID environment) (Environment.Name environment)
                 applications).

Lemma enrich_org_reported W cfg o :
  forallb (env_ok W cfg) (Organization.Environments o) = true ->
  Forall2 (reported_applications W cfg)
    (Organization.Environments o) (Organization.Environments (enrich_org W cfg o)).
Proof.
  unfold enrich_org. cbn [Organization.Environments].
  induction (Organization.Environments o) as [|e envs IH]; [constructor|].
  cbn [forallb map]. intros [He Hall]%andb_prop. constructor; [|by apply IH].
  destruct e as [environment|]; [|done]. simpl in *.
  destruct (inventory W cfg (Environment.ID environment)) as [applications|] eqn:Hi; [|done].
  by exists environment, applications.
Qed.

(** The organizations of a tree read from an enrichable store. *)
Lemma tree_orgs_env_ok W cfg fuel h l :
  enrichable W cfg h = true ->
  forall o, o ∈ tree_orgs (tree_of fuel h l) ->
            forallb (env_ok W cfg) (Organization.Environments o) = true.
Proof.
  intros Ha. revert l. induction fuel as [|fuel IH]; intros l o Ho.
  { simpl in Ho. apply list_elem_of_singleton in Ho as ->. done. }
  simpl in Ho. destruct (h !! l) as [nd|] eqn:Hl.
  2:{ simpl in Ho. apply list_elem_of_singleton in Ho as ->. done. }
  cbn [tree_orgs] in Ho. apply elem_of_cons in Ho as [->|Ho].
  - unfold enrichable in Ha. rewrite forallb_forall in Ha. apply Ha.
    apply list_elem_of_In. by eapply list_elem_of_lookup_2.
  - apply list_elem_of_In, in_concat in Ho as (orgs & Horgs & Ho).
    rewrite map_map in Horgs. apply in_map_iff in Horgs as (c & <- & _).
    apply (IH c). by apply list_elem_of_In.
Qed.

(** X12. The flat map after [generateApplications] has run: on a built
    tree whose environments are all there and for which the inventory answers
    200, under every schedule, the map [flattenTree] makes from the tree the
    pass leaves has the names of the map made from the tree before the pass,
    and the entry under a name is the entry of before with, in each
    environment, the applications the inventory reports for its
    identifier. *)
Theorem flattenTree_after_generateApplications W cfg s head sched :
  linkedb (heap s) = true ->
  enrichable W cfg (heap s) = true ->
  head < length (heap s) ->
  wgMain s = 0%Z -> files s = [] -> exited s = None ->
  enrich_cost (heap s) head <= length sched ->
  dom (flattenTree
         (head_tree (shared (run_until W cfg enriched sched (enrich_entry s head))) head) ∅)
  = dom (flattenTree (head_tree s head) ∅) /\
  forall name o,
    flattenTree (head_tree s head) ∅ !! name = Some o ->
    exists o',
      flattenTree
        (head_tree (shared (run_until W cfg enriched sched (enrich_entry s head))) head) ∅
      !! name = Some o' /\
      Organization.Name o' = Organization.Name o /\
      Organization.ID o' = Organization.ID o /\
      Organization.SubOrganizationIds o' = Organization.SubOrganizationIds o /\
      Forall2 (reported_applications W cfg)
        (Organization.Environments o) (Organization.Environments o').
Proof.
  intros Hl%linkedb_linked Ha Hlt Hw Hf Hex Hlen.
  destruct (enrich_result W cfg sched s head Hl Ha Hlt Hw Hf Hex Hlen) as (_ & _ & _ & _ & _ & _ & Ht).
  rewrite Ht, !flattenTree_index_all, tree_orgs_enrich.
  assert (index_all (map (enrich_org W cfg) (tree_orgs (head_tree s head))) ∅
          = enrich_org W cfg <$> index_all (tree_orgs (head_tree s head)) ∅) as ->.
  { rewrite <- (index_all_fmap (enrich_org W cfg)) by done. by rewrite fmap_empty. }
  split; [apply dom_fmap_L|].
  intros name o Ho. exists (enrich_org W cfg o). rewrite lookup_fmap, Ho.
  split_and!; try done. apply enrich_org_reported.
  apply (tree_orgs_env_ok W cfg (length (heap s)) (heap s) head Ha).
  rewrite index_all_lookup, lookup_empty in Ho.
  destruct (last _) as [o1|] eqn:Hlast; [|done]. simplify_eq.
  apply last_Some_elem_of in Hlast. by apply list_elem_of_filter in Hlast as [_ ?].
Qed.

(** Whenever two threads can move, the second one does. *)
Definition ex_pool_first : list nat := repeat 1 20.

Lemma flattenTree_after_generateApplications_witness :
  dom (flattenTree
         (head_tree (shared (run_until ex_world ex_cfg enriched ex_pool_first
                               (enrich_entry ex_built 0))) 0) ∅)
  = dom (flattenTree (head_tree ex_built 0) ∅) /\
  flattenTree (head_tree ex_built 0) ∅ !! "B"
  = Some (Organization.mk "B" "org-2" ["org-4"]
            [Some (Environment.mk "env-1" "production" [])]) /\
  flattenTree
    (head_tree (shared (run_until ex_world ex_cfg enriched ex_pool_first
                          (enrich_entry ex_built 0))) 0) ∅
  !! "B"
  = Some (Organization.mk "B" "org-2" ["org-4"]
            [Some (Environment.mk "env-1" "production" [Some ex_app])]) /\
  Forall2 (reported_applications ex_world ex_cfg)
    [Some (Environment.mk "env-1" "production" [])]
    [Some (Environment.mk "env-1" "production" [Some ex_app])].
Proof.
  destruct (flattenTree_after_generateApplications ex_world ex_cfg ex_built 0 ex_pool_first)
    as [Hdom Hall]; try (vm_compute; first [reflexivity | lia]).
  destruct (Hall "B" (Organization.mk "B" "org-2" ["org-4"]
                        [Some (Environment.mk "env-1" "production" [])]) eq_refl)
    as (o' & Ho' & _ & _ & _ & Hrep).
  assert (flattenTree
            (head_tree (shared (run_until ex_world ex_cfg enriched ex_pool_first
                                  (enrich_entry ex_built 0))) 0) ∅
          !! "B"
          = Some (Organization.mk "B" "org-2" ["org-4"]
                    [Some (Environment.mk "env-1" "production" [Some ex_app])])) as Hb
      by (vm_compute; reflexivity).
  rewrite Hb in Ho'. injection Ho' as <-.
  split_and!; [exact Hdom|reflexivity|exact Hb|exact Hrep].
Defined.

(** X13. Once [InitTree] has returned, nothing changes the tree but the
    application lists: whatever happens afterwards, under every schedule,
    every node keeps its children, its mutex state and the name, identifier
    and sub-organization identifiers of its organization, and every
    environment keeps its identifier and name. *)
Theorem only_applications_change_after_InitTree W cfg sched1 sched2 :
  built (run_until W cfg built sched1 initial) = true ->
  Forall2 same_shape
    (heap (shared (run_until W cfg built sched1 initial)))
    (heap (shared (run W cfg sched2 (run_until W cfg built sched1 initial)))).
Proof.
  intros Hb.
  assert (SInv W cfg (heap (shared (run_until W cfg built sched1 initial)))
            (run W cfg sched2 (run_until W cfg built sched1 initial))) as (_ & _ & H);
    [|done].
  apply (run_until_invariant W cfg
           (SInv W cfg (heap (shared (run_until W cfg built sched1 initial)))));
    [intros σ1 σ2; apply SInv_step|].
  split_and!; [apply PInv_run|by apply negb_true_iff in Hb|].
  apply Forall_Forall2_diag, Forall_forall. intros nd _. apply same_shape_refl.
Qed.

Lemma only_applications_change_after_InitTree_witness :
  built (run_until ex_world ex_cfg built ex_main_first initial) = true /\
  Forall2 same_shape
    (heap (shared (run_until ex_world ex_cfg built ex_main_first initial)))
    (heap (shared (run ex_world ex_cfg ex_main_first
                     (run_until ex_world ex_cfg built ex_main_first initial)))).
Proof.
  split; [reflexivity|].
  apply (only_applications_change_after_InitTree ex_world ex_cfg ex_main_first ex_main_first).
  reflexivity.
Defined.

(** Until [InitTree] has returned, and at the point where it returns, every
    request has gone to the directory. *)
Lemma calls_upto_built W cfg stop sched :
  upto_built (mainpc (run_until W cfg stop sched initial)) = true ->
  exists ds, calls (shared (run_until W cfg stop sched initial)) = map DirectoryCall ds.
Proof.
  assert (BInv W cfg (run_until W cfg stop sched initial) /\
          PInv W cfg (run_until W cfg stop sched initial) /\
          outside W cfg (run_until W cfg stop sched initial) /\
          (upto_built (mainpc (run_until W cfg stop sched initial)) = true ->
           exists ds, calls (shared (run_until W cfg stop sched initial)) = map DirectoryCall ds))
    as (_ & _ & _ & H); [|done].
  apply (run_until_invariant W cfg
           (fun σ => BInv W cfg σ /\ PInv W cfg σ /\ outside W cfg σ /\
                     (upto_built (mainpc σ) = true ->
                      exists ds, calls (shared σ) = map DirectoryCall ds))).
  - intros σ1 σ2 (Hb & Hp & Ho & _) Hex Hstep.
    pose proof (outside_step W cfg σ1 σ2 Hp Ho Hex Hstep) as Ho2.
    split_and!; [by eapply BInv_step|by eapply PInv_step|done|]. intros Hup.
    destruct (in_build (mainpc σ2)) eqn:Hin2.
    { destruct (o_calls W cfg σ2 Ho2) as (ds & es & Hc & Hes). exists ds.
      rewrite Hc, Hes; [by rewrite app_nil_r|]. by destruct (mainpc σ2). }
    destruct (o_calls W cfg σ1 Ho) as (ds & es & Hc & Hes). exists ds.
    destruct Hstep as [Hcall Hs Hgos|pc rest pc' forks Hq Hs Hq' Hst|pc rest Hq Hs Hq' Hst].
    + unfold step_main in Hs.
      destruct (mainpc σ1) eqn:Hm; try done; repeat case_match; simplify_eq/=; try done.
      rewrite Hc, Hes; [by rewrite app_nil_r|done].
    + exfalso. unfold upto_built in Hup. rewrite Hin2 in Hup.
      destruct (mainpc σ2) eqn:Hm2; try done.
      destruct (mainpc σ1) eqn:Hm1; simpl in Hst; try done. simplify_eq.
      unfold BInv in Hb. rewrite Hm1 in Hb. destruct Hb as [_ Hg].
      unfold pool in Hq. rewrite Hm1, Hg in Hq. by apply Permutation_nil_cons in Hq.
    + exfalso. unfold upto_built in Hup. rewrite Hin2 in Hup.
      destruct (mainpc σ2) eqn:Hm2; try done.
      destruct (mainpc σ1) eqn:Hm1; simpl in Hst; destruct_or?; try done. simplify_eq.
      unfold BInv in Hb. rewrite Hm1 in Hb. destruct Hb as [_ Hg].
      unfold pool in Hq. rewrite Hm1, Hg in Hq. by apply Permutation_nil_cons in Hq.
  - split_and!; [apply BInv_initial|apply PInv_initial|apply outside_initial|].
    intros _. by exists [].
Qed.

Lemma step_at_upto W cfg tid σ σ' :
  in_build (mainpc σ) = true -> step_at W cfg tid σ = Some σ' ->
  upto_built (mainpc σ') = true.
Proof.
  unfold step_at, step_main, step_go. intros Hin Hstep.
  destruct (exited (shared σ)); [done|]. destruct tid as [|i].
  - destruct (mainpc σ); try done; repeat case_match; simplify_eq; done.
  - repeat case_match; simplify_eq; simpl; unfold upto_built; by rewrite Hin.
Qed.

(** The run that stops when [InitTree] has returned stops where it returns. *)
Lemma run_until_built_upto W cfg sched σ :
  upto_built (mainpc σ) = true ->
  upto_built (mainpc (run_until W cfg built sched σ)) = true.
Proof.
  revert σ. induction sched as [|k sched IH]; intros σ Hup; [done|].
  rewrite run_until_cons. destruct (built σ) eqn:Hb; [done|].
  destruct (enabled W cfg σ) as [|tid0 tids]; [done|].
  destruct (step_at W cfg _ σ) as [σ'|] eqn:Hstep; [|done].
  apply IH. eapply step_at_upto; [|done]. unfold built in Hb. by apply negb_false_iff in Hb.
Qed.

(** X14. When [InitTree] returns, standard output holds the status lines
    of the directory and nothing else: under every schedule, the requests
    made are requests to the directory, and what has been printed is, in some
    order, one line for every one of them that was answered with a status
    other than 200.  Nothing is said of the order of the lines: the calls of
    [buildOrgTree] have their requests under way at the same time. *)
Theorem status_lines_match_requests W cfg sched :
  flags_present cfg ->
  built (run_until W cfg built sched initial) = true ->
  exists ds,
    calls (shared (run_until W cfg built sched initial)) = map DirectoryCall ds /\
    stdout (shared (run_until W cfg built sched initial))
    ≡ₚ status_lines W cfg (map DirectoryCall ds).
Proof.
  intros Hflags Hb. pose proof (outside_run W cfg built sched) as Hout.
  pose proof (run_until_built_upto W cfg sched initial eq_refl) as Hup.
  destruct (calls_upto_built W cfg built sched Hup) as (ds & Hc). exists ds.
  split; [done|]. rewrite <- Hc, (o_stdout W cfg _ Hout Hflags); [done|].
  unfold built in Hb. by destruct (mainpc (run_until W cfg built sched initial)).
Qed.

Lemma status_lines_match_requests_witness :
  built (run_until ex_world_500 ex_cfg built ex_second_child_first initial) = true /\
  calls (shared (run_until ex_world_500 ex_cfg built ex_second_child_first initial))
  = map DirectoryCall ["org-1"; "org-2"; "org-3"; "org-4"] /\
  exists ds,
    calls (shared (run_until ex_world_500 ex_cfg built ex_second_child_first initial))
    = map DirectoryCall ds /\
    stdout (shared (run_until ex_world_500 ex_cfg built ex_second_child_first initial))
    ≡ₚ status_lines ex_world_500 ex_cfg (map DirectoryCall ds).
Proof.
  split; [reflexivity|]. split; [vm_compute; reflexivity|].
  apply (status_lines_match_requests ex_world_500 ex_cfg ex_second_child_first); [|reflexivity].
  by split_and!.
Defined.

(** The decoder gives the root organization two environments, the second
    of which is a nil pointer (a JSON null). *)
Definition ex_world_nil : Collaborators :=
  {| RemoteDirectory := RemoteDirectory ex_world;
     RemoteInventory := RemoteInventory ex_world;
     UnmarshalOrganization := fun _ _ =>
       (Organization.mk "A" "org-1" []
          [Some (Environment.mk "env-1" "production" []); None], None);
     UnmarshalApplications := UnmarshalApplications ex_world;
     MarshalIndent := MarshalIndent ex_world;
     osCreate := osCreate ex_world;
     fileWrite := fileWrite ex_world;
     rangeMap := rangeMap ex_world |}.

(** X15. The program panics only for a nil environment: whatever the
    directory, the inventory and the file system do, and under every
    schedule, if a call is panicking or the process has ended with exit code
    2, then some node of the tree has an environment that is a nil
    pointer. *)
Theorem panic_needs_nil_environment W cfg sched :
  Exists (fun pc => doomed pc = true) (pool (run W cfg sched initial)) \/
  exited (shared (run W cfg sched initial)) = Some 2%Z ->
  has_nil (heap (shared (run W cfg sched initial))).
Proof. intros H. by apply (NInv_run W cfg sched). Qed.

Lemma panic_needs_nil_environment_witness :
  exited (shared (run ex_world_nil ex_cfg ex_main_first initial)) = Some 2%Z /\
  has_nil (heap (shared (run ex_world_nil ex_cfg ex_main_first initial))).
Proof.
  split; [reflexivity|].
  apply (panic_needs_nil_environment ex_world_nil ex_cfg ex_main_first). right. reflexivity.
Defined.

(** X16. A nil environment in the root organization brings the program
    down: when the tree can be built, environment [i] of the root is a nil
    pointer and the inventory answers 200 for the environments before it,
    the program ends under every schedule with exit code 2, the message of
    the nil dereference on standard error and no file written. *)
Theorem nil_root_environment_panics W cfg D sched o i :
  flags_present cfg ->
  hierarchy_within W cfg D (rootID cfg) = true ->
  resolve W cfg (rootID cfg) = Some o ->
  Organization.Environments o !! i = Some None ->
  (forall k, k < i -> exists env apps,
     Organization.Environments o !! k = Some (Some env) /\
     inventory W cfg (Environment.ID env) = Some apps) ->
  cost W cfg D (rootID cfg) + (2 * i + 4) <= length sched ->
  exited (shared (run W cfg sched initial)) = Some 2%Z /\
  files (shared (run W cfg sched initial)) = [] /\
  stderr (shared (run W cfg sched initial))
  = ["invalid memory address or nil pointer dereference"].
Proof.
  intros Hflags Hhier Ho Hnil Hok Hlen.
  destruct (reaches_enrich W cfg D (2 * i + 4) sched Hflags Hhier Hlen)
    as (head & σ & rest & -> & Hrest & Hm & Hg & Hex & Hb & Hout).
  unfold BInv in Hb. rewrite Hm in Hb.
  destruct Hb as [[(nd & Hnd & Hres) _ _ _ _ _ _ [Hw _]] _].
  pose proof (o_files W cfg σ Hout) as Hf. rewrite Hm in Hf. simpl in Hf.
  pose proof (o_stderr W cfg σ Hout (or_introl Hex)) as He.
  destruct rest as [|k rest]; [simpl in Hrest; lia|]. simpl in Hrest.
  rewrite (run_main W cfg k _ σ
             {| shared := wg_Add Enrich (shared σ); mainpc := MEnrich head (EEnv head 0);
                gos := [] |}); [|done|done|].
  2:{ unfold step_main. rewrite Hm. unfold with_main. by rewrite Hg. }
  destruct (nil_root_run W cfg o head i i 0
              {| shared := wg_Add Enrich (shared σ); mainpc := MEnrich head (EEnv head 0);
                 gos := [] |} rest) as (Hx & Hfiles & Herr); simpl; try done; try lia.
  - exists nd. split; [done|]. intros k' _. congruence.
  - simpl in Hx, Hfiles, Herr. by rewrite Hx, Hfiles, Herr, Hf, He.
Qed.

Lemma nil_root_environment_panics_witness :
  exited (shared (run ex_world_nil ex_cfg ex_main_first initial)) = Some 2%Z /\
  files (shared (run ex_world_nil ex_cfg ex_main_first initial)) = [] /\
  stderr (shared (run ex_world_nil ex_cfg ex_main_first initial))
  = ["invalid memory address or nil pointer dereference"].
Proof.
  apply (nil_root_environment_panics ex_world_nil ex_cfg 1 ex_main_first
           (Organization.mk "A" "org-1" []
              [Some (Environment.mk "env-1" "production" []); None]) 1);
    try reflexivity.
  - by split_and!.
  - intros k Hk. assert (k = 0) as -> by lia.
    exists (Environment.mk "env-1" "production" []), [Some ex_app]. split; reflexivity.
  - vm_compute. lia.
Defined.

(** X17. [InitTree] sends one request for every identifier of the
    hierarchy and no other: when the hierarchy below the root is finite and
    every request goes through, then under every schedule the requests sent
    by the time [InitTree] returns are directory requests, their identifiers
    are those of the hierarchy (the root, and every identifier as often as
    payloads list it) in some order, and there are as many as the directory
    has organizations.  The identifiers of the hierarchy ([directory_ids])
    and the number of organizations ([directory_count]) are unfolded from the
    answers of the directory and from [json.Unmarshal] by [resolve], not from
    what the builder does. *)
Theorem InitTree_requests_each_identifier_once W cfg D sched :
  flags_present cfg ->
  hierarchy_within W cfg D (rootID cfg) = true ->
  cost W cfg D (rootID cfg) <= length sched ->
  exists ds,
    calls (shared (run_until W cfg built sched initial)) = map DirectoryCall ds /\
    ds ≡ₚ directory_ids W cfg D (rootID cfg) /\
    length ds = directory_count W cfg D (rootID cfg).
Proof.
  intros Hflags Hroot Hlen.
  destruct (build_result W cfg D sched Hflags Hroot Hlen) as (head & Hm & _).
  destruct (requests_run W cfg D built sched Hflags Hroot) as (ds & Hc & Hq).
  { by rewrite Hm. }
  rewrite Hm in Hq. exists ds. split_and!; [done..|].
  by rewrite Hq, directory_ids_length.
Qed.

Lemma InitTree_requests_each_identifier_once_witness :
  calls (shared (run_until ex_world ex_cfg built ex_second_child_first initial))
  = map DirectoryCall ["org-1"; "org-2"; "org-3"; "org-4"] /\
  exists ds,
    calls (shared (run_until ex_world ex_cfg built ex_second_child_first initial))
    = map DirectoryCall ds /\
    ds ≡ₚ ["org-1"; "org-2"; "org-4"; "org-3"] /\
    length ds = 4.
Proof.
  split; [vm_compute; reflexivity|].
  destruct (InitTree_requests_each_identifier_once ex_world ex_cfg 3 ex_second_child_first)
    as (ds & Hc & Hp & Hn); [by split_and!|reflexivity|vm_compute; lia|].
  exists ds. split_and!; [exact Hc|exact Hp|exact Hn].
Defined.

(** X18. [generateApplications] sends one request for every environment of
    the tree and no other: on a built tree whose environments are all there
    and for which the inventory answers 200, under every schedule the
    requests sent during the pass are inventory requests, and their
    environment identifiers are those of the environments of the tree, each
    as often as it appears, in some order. *)
Theorem generateApplications_requests_each_environment_once W cfg s head sched :
  linkedb (heap s) = true ->
  enrichable W cfg (heap s) = true ->
  head < length (heap s) ->
  wgMain s = 0%Z -> files s = [] -> exited s = None ->
  enrich_cost (heap s) head <= length sched ->
  exists es,
    calls (shared (run_until W cfg enriched sched (enrich_entry s head)))
    = calls s ++ map InventoryCall es /\
    es ≡ₚ tree_env_ids (head_tree s head).
Proof.
  intros Hl%linkedb_linked Ha Hlt Hw Hf Hex Hlen.
  destruct (enrich_result W cfg sched s head Hl Ha Hlt Hw Hf Hex Hlen) as (Hm & _).
  destruct (IQ_run W cfg (heap s) Hl Ha head (calls s) sched (enrich_entry s head))
    as (es & Hc & Hq).
  - unfold EInv. simpl. by split_and!.
  - exists []. simpl. by rewrite app_nil_r.
  - rewrite Hm in Hq. by exists es.
Qed.

Lemma generateApplications_requests_each_environment_once_witness :
  exists es,
    calls (shared (run_until ex_world ex_cfg enriched ex_pool_first (enrich_entry ex_built 0)))
    = calls ex_built ++ map InventoryCall es /\
    es ≡ₚ tree_env_ids (head_tree ex_built 0).
Proof.
  apply (generateApplications_requests_each_environment_once ex_world ex_cfg ex_built 0
           ex_pool_first); vm_compute; first [reflexivity | lia].
Defined.

(** ** When [InitTree] returns *)

(** A run that has got past [InitTree] has stopped there when told to. *)
Lemma run_built_until W cfg sched σ :
  built (run W cfg sched σ) = true -> built (run_until W cfg built sched σ) = true.
Proof.
  revert σ. induction sched as [|k sched IH]; intros σ Hb; [done|].
  unfold run in Hb. rewrite run_until_cons in Hb |- *. cbv beta in Hb.
  destruct (built σ) eqn:Hσ; [done|].
  destruct (enabled W cfg σ) as [|tid0 tids]; [by rewrite Hσ in Hb|].
  destruct (step_at W cfg _ σ) as [σ'|] eqn:Hstep; [by apply IH|by rewrite Hσ in Hb].
Qed.

(** In a store where every call has returned, the hierarchy below the
    identifier of a node is as deep as the store is long, at most. *)
Lemma complete_within W cfg h :
  linked h -> (forall l, l < length h -> node_complete W cfg h l) ->
  forall k l orgID,
    length h - l <= k -> resolved W cfg h l orgID -> hierarchy_within W cfg k orgID = true.
Proof.
  intros Hlink Hall. induction k as [|k IH]; intros l orgID Hk (nd & Hl & Hr).
  { apply lookup_lt_Some in Hl. lia. }
  cbn [hierarchy_within]. rewrite Hr. apply forallb_forall. intros v Hv%list_elem_of_In.
  destruct (Hall l) as (nd' & Hl' & Hch); [by eapply lookup_lt_Some|]. simplify_eq.
  apply list_elem_of_lookup in Hv as [i Hi].
  destruct (Forall2_lookup_r _ _ _ _ _ Hch Hi) as (c & Hci & Hres).
  pose proof (Hlink l nd Hl) as Hc. rewrite Forall_forall in Hc.
  specialize (Hc c (list_elem_of_lookup_2 _ _ _ Hci)).
  apply (IH c); [lia|done].
Qed.

(** Past [InitTree], the store witnesses that the hierarchy is finite. *)
Lemma built_finite W cfg sched :
  built (run W cfg sched initial) = true ->
  exists D, hierarchy_within W cfg D (rootID cfg) = true.
Proof.
  intros Hb%run_built_until.
  pose proof (run_until_built_upto W cfg sched initial eq_refl) as Hup.
  pose proof (BInv_run W cfg built sched) as Hinv.
  set (σ := run_until W cfg built sched initial) in *.
  assert (exists head, mainpc σ = MEnrichAdd head) as [head Hm].
  { unfold built in Hb. destruct (mainpc σ); try done. eauto. }
  unfold BInv in Hinv. rewrite Hm in Hinv.
  destruct Hinv as [[Hr Hheap _ _ _ Hdone Hcov _] _].
  exists (length (heap (shared σ)) - head).
  apply (complete_within W cfg (heap (shared σ))) with (l := head);
    [by apply heap_ok_linked| |done|done].
  intros l Hl. apply Hdone. destruct (Hcov l Hl) as [Hin|Hd]; [|done].
  by apply elem_of_nil in Hin.
Qed.

(** Identifier [w] is in the payload the directory has for identifier [v]. *)
Definition lists (W : Collaborators) (cfg : Config) (v w : string) : Prop :=
  exists o, resolve W cfg v = Some o /\ w ∈ Organization.SubOrganizationIds o.

Lemma hierarchy_within_lists W cfg d v w :
  hierarchy_within W cfg (S d) v = true -> lists W cfg v w ->
  hierarchy_within W cfg d w = true.
Proof.
  intros H (o & Ho & Hw). cbn [hierarchy_within] in H. rewrite Ho in H.
  rewrite forallb_forall in H. apply H. by apply list_elem_of_In.
Qed.

Lemma hierarchy_within_below W cfg d v w :
  rtc (lists W cfg) v w -> hierarchy_within W cfg d v = true ->
  hierarchy_within W cfg d w = true.
Proof.
  induction 1 as [|v u w Hvu _ IH]; [done|]. intros H. apply IH.
  destruct d as [|d]; [done|]. apply hierarchy_within_S. by eapply hierarchy_within_lists.
Qed.

Lemma hierarchy_within_cycle W cfg d v :
  tc (lists W cfg) v v -> hierarchy_within W cfg d v = false.
Proof.
  intros Hc.
  assert (exists u, lists W cfg v u /\ rtc (lists W cfg) u v) as (u & Hvu & Huv).
  { inversion Hc as [? ? Hvv|? u ? Hvu Huv]; subst.
    - by exists v.
    - exists u. split; [done|]. by apply tc_rtc. }
  induction d as [|d IH]; [done|].
  destruct (hierarchy_within W cfg (S d) v) eqn:H; [|done].
  pose proof (hierarchy_within_lists W cfg d v u H Hvu) as Hu.
  pose proof (hierarchy_within_below W cfg d u v Huv Hu) as Hv. congruence.
Qed.

(** X19. [InitTree] returns only for a finite hierarchy: at any point of any
    run, if the main goroutine is past [InitTree], or a file has been
    written, or the process has ended with exit code 0, then the hierarchy
    below the root identifier is finite and every request for an identifier
    of it goes through. *)
Theorem InitTree_returns_only_for_finite_hierarchy W cfg sched :
  built (run W cfg sched initial) = true \/
  files (shared (run W cfg sched initial)) <> [] \/
  exited (shared (run W cfg sched initial)) = Some 0%Z ->
  exists D, hierarchy_within W cfg D (rootID cfg) = true.
Proof.
  intros H. apply (built_finite W cfg sched).
  pose proof (outside_run W cfg (fun _ => false) sched) as Hout. fold (run W cfg) in Hout.
  destruct H as [H|[H|H]]; [done| |].
  - pose proof (o_files W cfg _ Hout) as Hf. unfold built.
    by destruct (mainpc (run W cfg sched initial)).
  - apply (o_exit0 W cfg _ Hout) in H. unfold built. by rewrite H.
Qed.

Lemma InitTree_returns_only_for_finite_hierarchy_witness :
  built (run ex_world ex_cfg ex_first_return initial) = false /\
  built (run ex_world ex_cfg ex_main_first initial) = true /\
  exists D, hierarchy_within ex_world ex_cfg D (rootID ex_cfg) = true.
Proof.
  split; [reflexivity|]. split; [reflexivity|].
  apply (InitTree_returns_only_for_finite_hierarchy ex_world ex_cfg ex_main_first).
  left. reflexivity.
Defined.

(** The payload of every organization lists org-1: org-1 is its own
    child. *)
Definition ex_world_cycle : Collaborators :=
  {| RemoteDirectory := RemoteDirectory ex_world;
     RemoteInventory := RemoteInventory ex_world;
     UnmarshalOrganization := fun _ _ => (Organization.mk "A" "org-1" ["org-1"] [], None);
     UnmarshalApplications := UnmarshalApplications ex_world;
     MarshalIndent := MarshalIndent ex_world;
     osCreate := osCreate ex_world;
     fileWrite := fileWrite ex_world;
     rangeMap := rangeMap ex_world |}.

Definition ex_long : list nat := repeat 0 100 ++ repeat 1 100 ++ repeat 2 100.

(** X20. [buildOrgTree] keeps no record of the identifiers it has seen: when
    an organization of the hierarchy lists itself or one of its ancestors,
    [InitTree] never returns.  At every point of every run the main goroutine
    is inside [InitTree], no file has been written and the process has not
    ended with exit code 0. *)
Theorem cyclic_directory_never_returns W cfg sched v :
  rtc (lists W cfg) (rootID cfg) v ->
  tc (lists W cfg) v v ->
  in_build (mainpc (run W cfg sched initial)) = true /\
  files (shared (run W cfg sched initial)) = [] /\
  exited (shared (run W cfg sched initial)) <> Some 0%Z.
Proof.
  intros Hbelow Hcycle.
  assert (in_build (mainpc (run W cfg sched initial)) = true) as Hin.
  { destruct (in_build (mainpc (run W cfg sched initial))) eqn:Hin; [done|].
    destruct (built_finite W cfg sched) as [D HD]; [unfold built; by rewrite Hin|].
    pose proof (hierarchy_within_below W cfg D _ v Hbelow HD) as Hv.
    pose proof (hierarchy_within_cycle W cfg D v Hcycle). congruence. }
  pose proof (outside_run W cfg (fun _ => false) sched) as Hout. fold (run W cfg) in Hout.
  split_and!; [done| |].
  - pose proof (o_files W cfg _ Hout) as Hf.
    by destruct (mainpc (run W cfg sched initial)).
  - intros Hex. apply (o_exit0 W cfg _ Hout) in Hex. by rewrite Hex in Hin.
Qed.

Lemma cyclic_directory_never_returns_witness :
  lists ex_world_cycle ex_cfg "org-1" "org-1" /\
  length (heap (shared (run ex_world_cycle ex_cfg ex_long initial))) = 38 /\
  in_build (mainpc (run ex_world_cycle ex_cfg ex_long initial)) = true /\
  files (shared (run ex_world_cycle ex_cfg ex_long initial)) = [] /\
  exited (shared (run ex_world_cycle ex_cfg ex_long initial)) <> Some 0%Z.
Proof.
  assert (lists ex_world_cycle ex_cfg "org-1" "org-1") as Hl.
  { exists (Organization.mk "A" "org-1" ["org-1"] []). split; [reflexivity|].
    apply list_elem_of_In. simpl. tauto. }
  split; [exact Hl|]. split; [vm_compute; reflexivity|].
  apply (cyclic_directory_never_returns ex_world_cycle ex_cfg ex_long "org-1").
  - apply rtc_refl.
  - by apply tc_once.
Defined.
